(** * Simulation core of the action roguelike: components, combat,
      hitbox windows and pathfinding.

    The Python sources are embedded as Rocq functions.  Conventions:
    - Python [int] is [Z]; Python [float] is modelled by the exact rationals
      [Q] (no rounding, no infinities, no NaN); [int(x)] on a float is
      truncation toward zero ([py_int]).
    - Objects mutated in place become explicit state passing: a method
      returns its result together with the new component / world.
    - [random.random()] reads the next element of an explicit stream of
      rolls carried by the world.
    - Exceptions and non-terminating loops are outcomes of the [result]
      type used by the combat system. *)

From Stdlib Require Import String ZArith QArith Qround Qabs List Bool Lia Lqa.
From Stdlib Require Import Permutation.
Import ListNotations.

Local Open Scope Z_scope.

(** ** Python numerics *)

Module Py.

(** [int(x)] for a float [x]: truncation toward zero. *)
Definition py_int (x : Q) : Z := Z.quot (Qnum x) (Zpos (Qden x)).

(** [round(x)] for a float [x] (the built-in rounds halves to even). *)
Definition py_round (x : Q) : Z :=
  let f := Qfloor x in
  match ((x - inject_Z f) ?= (1 # 2))%Q with
  | Lt => f
  | Gt => f + 1
  | Eq => if Z.even f then f else f + 1
  end.

(** [x // y] on floats, then [int(...)]: floor of the quotient. *)
Definition floordiv (x : Q) (y : Z) : Z := Qfloor (x / inject_Z y).

(** [a < b] on floats. *)
Definition Qltb (a b : Q) : bool := negb (Qle_bool b a).

End Py.
Import Py.

(** ** game/ecs/components.py *)

Inductive FactionType := PLAYER | ENEMY | BOSS | NEUTRAL.

Inductive WeaponType := SWORD | SPEAR | CROSSBOW.

Inductive StatusEffectType :=
  SLOW | SLOWED | POISON | BURN | FREEZE | STUN | REGEN | SPEED_BOOST | INVULNERABLE.

Definition FactionType_eqb (a b : FactionType) : bool :=
  match a, b with
  | PLAYER, PLAYER | ENEMY, ENEMY | BOSS, BOSS | NEUTRAL, NEUTRAL => true
  | _, _ => false
  end.

Definition StatusEffectType_eqb (a b : StatusEffectType) : bool :=
  match a, b with
  | SLOW, SLOW | SLOWED, SLOWED | POISON, POISON | BURN, BURN | FREEZE, FREEZE
  | STUN, STUN | REGEN, REGEN | SPEED_BOOST, SPEED_BOOST
  | INVULNERABLE, INVULNERABLE => true
  | _, _ => false
  end.

Record StatusEffect := {
  effect_type : StatusEffectType;
  duration : Q;
  value : Q;
  tick_rate : Q;
  last_tick : Q
}.

Record Transform := { x : Q; y : Q; dx : Q; dy : Q }.

Record Health := { max_hp : Z; hp : Z }.

(** [Health.__post_init__] *)
Definition new_Health (max_hp0 hp0 : Z) : Health :=
  {| max_hp := max_hp0; hp := Z.min hp0 max_hp0 |}.

Definition is_alive (h : Health) : bool := hp h >? 0.

(** [Health.take_damage]: the value returned and the mutated component. *)
Definition take_damage (h : Health) (amount : Z) : Z * Health :=
  let old_hp := hp h in
  let h' := {| max_hp := max_hp h; hp := Z.max 0 (hp h - amount) |} in
  (old_hp - hp h', h').

(** [Health.heal] *)
Definition heal (h : Health) (amount : Z) : Z * Health :=
  let old_hp := hp h in
  let h' := {| max_hp := max_hp h; hp := Z.min (max_hp h) (hp h + amount) |} in
  (hp h' - old_hp, h').

Record Damage := {
  base : Z;
  crit_chance : Q;
  crit_multiplier : Q;
  bonus_damage : Z
}.

(** [Damage.calculate_damage].  [is_crit = None] is the Python default: the
    crit is then decided by [roll], the value [random.random()] returns. *)
Definition calculate_damage (d : Damage) (is_crit : option bool) (roll : Q)
  : Z * bool :=
  let is_crit := match is_crit with
                 | None => Qltb roll (crit_chance d)
                 | Some b => b
                 end in
  let damage := base d + bonus_damage d in
  let damage := if is_crit
                then py_int (inject_Z damage * crit_multiplier d)
                else damage in
  (damage, is_crit).

Record Faction := { tag : FactionType }.

(** [Faction.is_enemy_of] *)
Definition is_enemy_of (self other : Faction) : bool :=
  match tag self with
  | PLAYER => match tag other with ENEMY | BOSS => true | _ => false end
  | ENEMY | BOSS => FactionType_eqb (tag other) PLAYER
  | NEUTRAL => false
  end.

Record Weapon := {
  weapon_type : WeaponType;
  attack_delay : Q;
  range : Q;
  projectile_speed : Q;
  reload_time : Q;
  penetration : Z;
  (** [modifiers.get("range_multiplier", 1.0)]; the other keys of the
      dictionary are not read by the combat code. *)
  range_multiplier : option Q;
  last_attack_time : Q;
  ammo : Z
}.

(** [Weapon.can_attack] *)
Definition can_attack (w : Weapon) (current_time : Q) : bool :=
  let time_since_attack := (current_time - last_attack_time w)%Q in
  Qle_bool (attack_delay w) time_since_attack.

(** [Weapon.get_effective_range] *)
Definition get_effective_range (w : Weapon) : Q :=
  let range_mod := match range_multiplier w with
                   | Some m => m
                   | None => 1%Q
                   end in
  (range w * range_mod)%Q.

Definition set_last_attack_time (w : Weapon) (t : Q) : Weapon :=
  {| weapon_type := weapon_type w; attack_delay := attack_delay w;
     range := range w; projectile_speed := projectile_speed w;
     reload_time := reload_time w; penetration := penetration w;
     range_multiplier := range_multiplier w; last_attack_time := t;
     ammo := ammo w |}.

Record Experience := {
  level : Z;
  xp : Z;
  next_xp : Z;
  xp_multiplier : Q
}.

(** The [while self.xp >= self.next_xp] loop of [Experience.add_xp].
    [None] means that [fuel] iterations did not reach the loop exit. *)
Fixpoint level_up_loop (fuel : nat) (e : Experience) (leveled_up : bool)
  : option (bool * Experience) :=
  match fuel with
  | O => None
  | S fuel' =>
      if xp e >=? next_xp e then
        level_up_loop fuel'
          {| level := level e + 1;
             xp := xp e - next_xp e;
             next_xp := py_int (inject_Z (next_xp e) * (3 # 2));
             xp_multiplier := xp_multiplier e |}
          true
      else Some (leveled_up, e)
  end.

(** The state right after [self.xp += adjusted_amount]. *)
Definition credit_xp (e : Experience) (amount : Z) : Experience :=
  let adjusted_amount := py_int (inject_Z amount * xp_multiplier e) in
  {| level := level e; xp := xp e + adjusted_amount;
     next_xp := next_xp e; xp_multiplier := xp_multiplier e |}.

(** [Experience.add_xp].  The loop is run with [xp + 1] iterations of
    fuel, which is enough whenever the Python loop exits at all
    ([level_up_loop_hangs] below): [None] is a loop that never exits. *)
Definition add_xp (e : Experience) (amount : Z) : option (bool * Experience) :=
  let e1 := credit_xp e amount in
  level_up_loop (S (Z.to_nat (xp e1))) e1 false.

Record Collider := { width : Z; height : Z; solid : bool }.

Record Enemy := { enemy_type : string }.

(** *** StatusEffects *)

Module StatusEffects.

(** The component is its list [effects]. *)
Definition t := list StatusEffect.

(** [==] of the dataclass: field-wise, floats compared numerically. *)
Definition effect_eqb (a b : StatusEffect) : bool :=
  StatusEffectType_eqb (effect_type a) (effect_type b)
  && Qeq_bool (duration a) (duration b)
  && Qeq_bool (value a) (value b)
  && Qeq_bool (tick_rate a) (tick_rate b)
  && Qeq_bool (last_tick a) (last_tick b).

Definition set_duration (e : StatusEffect) (d : Q) : StatusEffect :=
  {| effect_type := effect_type e; duration := d; value := value e;
     tick_rate := tick_rate e; last_tick := last_tick e |}.

(** The [for existing in self.effects] loop of [add_effect]: [Some] is
    the early [return] after the refresh, [None] falls out of the loop. *)
Fixpoint refresh (effects : t) (effect : StatusEffect) : option t :=
  match effects with
  | [] => None
  | existing :: rest =>
      if StatusEffectType_eqb (effect_type existing) (effect_type effect)
      then Some (set_duration existing (duration effect) :: rest)
      else match refresh rest effect with
           | Some rest' => Some (existing :: rest')
           | None => None
           end
  end.

Definition add_effect (effects : t) (effect : StatusEffect) : t :=
  match refresh effects effect with
  | Some effects' => effects'
  | None => effects ++ [effect]
  end.

Definition remove_effect (effects : t) (ty : StatusEffectType) : t :=
  filter (fun e => negb (StatusEffectType_eqb (effect_type e) ty)) effects.

Definition has_effect (effects : t) (ty : StatusEffectType) : bool :=
  existsb (fun e => StatusEffectType_eqb (effect_type e) ty) effects.

Definition get_effect (effects : t) (ty : StatusEffectType)
  : option StatusEffect :=
  find (fun e => StatusEffectType_eqb (effect_type e) ty) effects.

(** [list.remove(x)]: drops the first element equal to [x]; [None] when
    there is none. *)
Fixpoint list_remove (x : StatusEffect) (l : t) : option t :=
  match l with
  | [] => None
  | a :: l' =>
      if effect_eqb a x then Some l'
      else match list_remove x l' with
           | Some r => Some (a :: r)
           | None => None
           end
  end.

(** [effect.duration -= dt] *)
Definition tick (dt : Q) (e : StatusEffect) : StatusEffect :=
  set_duration e (duration e - dt)%Q.

(** The loop of [update] over the copy [self.effects[:]].  [visited] is
    the part of the live list that the loop has already passed,
    [remaining] the part still to visit.  The current effect sits right
    after [visited] in the live list, so [self.effects.remove(effect)]
    removes an equal element of [visited] when there is one, and the
    current effect otherwise. *)
Fixpoint update_loop (dt : Q) (visited remaining : t) : t :=
  match remaining with
  | [] => visited
  | effect :: rest =>
      let effect' := tick dt effect in
      if Qle_bool (duration effect') 0 then
        match list_remove effect' visited with
        | Some visited' => update_loop dt (visited' ++ [effect']) rest
        | None => update_loop dt visited rest
        end
      else update_loop dt (visited ++ [effect']) rest
  end.

Definition update (effects : t) (dt : Q) : t := update_loop dt [] effects.

End StatusEffects.

(** ** game/ecs/entities.py *)

(** [Entity.components]: at most one component per component type;
    [get_X e] is [e.get_component(X)]. *)
Record Entity := {
  get_Transform : option Transform;
  get_Health : option Health;
  get_Damage : option Damage;
  get_Faction : option Faction;
  get_Weapon : option Weapon;
  get_Experience : option Experience;
  get_Collider : option Collider;
  get_Enemy : option Enemy;
  get_StatusEffects : option StatusEffects.t
}.

Definition set_Health (e : Entity) (h : Health) : Entity :=
  {| get_Transform := get_Transform e; get_Health := Some h;
     get_Damage := get_Damage e; get_Faction := get_Faction e;
     get_Weapon := get_Weapon e; get_Experience := get_Experience e;
     get_Collider := get_Collider e; get_Enemy := get_Enemy e;
     get_StatusEffects := get_StatusEffects e |}.

Definition set_Weapon (e : Entity) (wp : Weapon) : Entity :=
  {| get_Transform := get_Transform e; get_Health := get_Health e;
     get_Damage := get_Damage e; get_Faction := get_Faction e;
     get_Weapon := Some wp; get_Experience := get_Experience e;
     get_Collider := get_Collider e; get_Enemy := get_Enemy e;
     get_StatusEffects := get_StatusEffects e |}.

Definition set_Experience (e : Entity) (ex : Experience) : Entity :=
  {| get_Transform := get_Transform e; get_Health := get_Health e;
     get_Damage := get_Damage e; get_Faction := get_Faction e;
     get_Weapon := get_Weapon e; get_Experience := Some ex;
     get_Collider := get_Collider e; get_Enemy := get_Enemy e;
     get_StatusEffects := get_StatusEffects e |}.

(** [EntityManager]: the dictionary [entities] keeps insertion order, which
    is the order every loop over it follows. *)
Module EntityManager.

Record t := { entities : list (Z * Entity); next_id : Z }.

Fixpoint lookup (entity_id : Z) (l : list (Z * Entity)) : option Entity :=
  match l with
  | [] => None
  | (k, e) :: l' => if k =? entity_id then Some e else lookup entity_id l'
  end.

Definition get_entity (em : t) (entity_id : Z) : option Entity :=
  lookup entity_id (entities em).

Definition create_entity (em : t) (e : Entity) : Z * t :=
  (next_id em,
   {| entities := entities em ++ [(next_id em, e)];
      next_id := next_id em + 1 |}).

Definition remove_entity (em : t) (entity_id : Z) : t :=
  {| entities := filter (fun p => negb (fst p =? entity_id)) (entities em);
     next_id := next_id em |}.

(** In-place mutation of the entity stored under [entity_id]. *)
Fixpoint replace (entity_id : Z) (f : Entity -> Entity)
    (l : list (Z * Entity)) : list (Z * Entity) :=
  match l with
  | [] => []
  | (k, e) :: l' =>
      if k =? entity_id then (k, f e) :: l'
      else (k, e) :: replace entity_id f l'
  end.

Definition mutate (em : t) (entity_id : Z) (f : Entity -> Entity) : t :=
  {| entities := replace entity_id f (entities em); next_id := next_id em |}.

End EntityManager.

(** ** game/core/events.py *)

(** The events emitted by the combat system, with their [data] payload. *)
Inductive GameEvent :=
| EVENT_DAMAGE_TAKEN (entity_id damage attacker_id : Z) (is_crit : bool)
| EVENT_LEVEL_UP (entity_id level : Z)
| EVENT_ENEMY_KILLED (entity_id killer_id : Z)
| EVENT_PLAYER_DIED (entity_id : Z).

(** ** The world the systems act on *)

Record World := {
  entity_manager : EntityManager.t;
  (** [event_bus._queue] *)
  event_queue : list GameEvent;
  (** the values [random.random()] will return, and how many were drawn *)
  rolls : nat -> Q;
  rolls_drawn : nat
}.

Inductive exn := RuntimeError (msg : string) | ValueError (msg : string).

(** Outcome of a call: normal return, exception, or a loop that never
    exits.  The first two carry the world as the call left it. *)
Inductive result (A : Type) :=
| Ok (a : A) (w : World)
| Raise (e : exn) (w : World)
| Hang.
Arguments Ok {A} a w.
Arguments Raise {A} e w.
Arguments Hang {A}.

Definition M (A : Type) := World -> result A.

Definition ret {A} (a : A) : M A := fun w => Ok a w.

Definition bind {A B} (m : M A) (k : A -> M B) : M B :=
  fun w => match m w with
           | Ok a w' => k a w'
           | Raise e w' => Raise e w'
           | Hang => Hang
           end.

Declare Scope sim_scope.
Delimit Scope sim_scope with sim.
Notation "x <- m ;; k" := (bind m (fun x => k))
  (at level 61, m at next level, right associativity) : sim_scope.
Notation "m ;; k" := (bind m (fun _ => k))
  (at level 61, right associativity) : sim_scope.

Definition set_entity_manager (w : World) (em : EntityManager.t) : World :=
  {| entity_manager := em; event_queue := event_queue w;
     rolls := rolls w; rolls_drawn := rolls_drawn w |}.

(** [self.entity_manager.get_entity(id)] *)
Definition get_entity (entity_id : Z) : M (option Entity) :=
  fun w => Ok (EntityManager.get_entity (entity_manager w) entity_id) w.

(** In-place update of a component of a stored entity. *)
Definition mutate (entity_id : Z) (f : Entity -> Entity) : M unit :=
  fun w => Ok tt (set_entity_manager w
                    (EntityManager.mutate (entity_manager w) entity_id f)).

(** [self.entity_manager.remove_entity(id)] *)
Definition remove_entity (entity_id : Z) : M unit :=
  fun w => Ok tt (set_entity_manager w
                    (EntityManager.remove_entity (entity_manager w) entity_id)).

(** [event_bus.emit(event)] *)
Definition emit (ev : GameEvent) : M unit :=
  fun w => Ok tt {| entity_manager := entity_manager w;
                    event_queue := event_queue w ++ [ev];
                    rolls := rolls w; rolls_drawn := rolls_drawn w |}.

(** [random.random()] *)
Definition random : M Q :=
  fun w => Ok (rolls w (rolls_drawn w))
              {| entity_manager := entity_manager w;
                 event_queue := event_queue w;
                 rolls := rolls w; rolls_drawn := S (rolls_drawn w) |}.

Definition raise {A} (e : exn) : M A := fun w => Raise e w.

Definition hang {A} : M A := fun _ => Hang.

(** ** game/ecs/systems.py: CombatSystem *)

Module CombatSystem.

Local Open Scope sim_scope.

(** [killer_exp.add_xp(xp_amount)] on the Experience stored for the
    killer. *)
Definition add_xp_to (killer_id : Z) (killer_exp : Experience)
    (xp_amount : Z) : M (bool * Experience) :=
  match add_xp killer_exp xp_amount with
  | None => hang
  | Some (leveled_up, killer_exp') =>
      mutate killer_id (fun k => set_Experience k killer_exp') ;;
      ret (leveled_up, killer_exp')
  end.

(** [xp_amount = int(base_xp * (1 + enemy_level * 0.1))], tripled for a
    boss. *)
Definition xp_reward (enemy_level : Z) (faction : Faction) : Z :=
  let base_xp := 10 in
  let xp_amount :=
    py_int (inject_Z base_xp * (1 + inject_Z enemy_level * (1 # 10))) in
  match tag faction with
  | BOSS => xp_amount * 3
  | _ => xp_amount
  end.

(** The "Grant XP" block of [handle_death]. *)
Definition grant_xp (killer_id : Z) (entity killer : Entity)
    (faction : Faction) : M unit :=
  match get_Experience entity with
  | Some exp =>
      let xp_amount := xp_reward (level exp) faction in
      match get_Experience killer with
      | Some killer_exp =>
          r <- add_xp_to killer_id killer_exp xp_amount ;;
          if fst r
          then emit (EVENT_LEVEL_UP killer_id (level (snd r)))
          else ret tt
      | None => ret tt
      end
  | None => ret tt
  end.

(** [handle_death(entity_id, killer_id, None, None)], the call made by
    [apply_damage]: without [enemy_ai] the slime branch does nothing. *)
Definition handle_death (entity_id killer_id : Z) : M unit :=
  entity <- get_entity entity_id ;;
  killer <- get_entity killer_id ;;
  match entity, killer with
  | Some entity, Some killer =>
      match get_Faction entity, get_Faction killer with
      | Some faction, Some _ =>
          match tag faction with
          | PLAYER => emit (EVENT_PLAYER_DIED entity_id)
          | ENEMY | BOSS =>
              grant_xp killer_id entity killer faction ;;
              emit (EVENT_ENEMY_KILLED entity_id killer_id) ;;
              remove_entity entity_id
          | NEUTRAL => ret tt
          end
      | _, _ => ret tt
      end
  | _, _ => ret tt
  end.

(** The dodge test of [apply_damage]: a roll is drawn only for a target
    whose faction tag is "enemy". *)
Definition dodges (target : Entity) : M bool :=
  match get_Faction target with
  | Some faction =>
      if FactionType_eqb (tag faction) ENEMY
      then roll <- random ;; ret (Qltb roll (1 # 10))
      else ret false
  | None => ret false
  end.

Definition apply_damage (target_id damage attacker_id : Z) (is_crit : bool)
  : M Z :=
  target <- get_entity target_id ;;
  match target with
  | None => ret 0
  | Some target =>
      match get_Health target with
      | None => ret 0
      | Some health =>
          dodged <- dodges target ;;
          if dodged then ret 0
          else
            let (actual_damage, health') := take_damage health damage in
            mutate target_id (fun t => set_Health t health') ;;
            (if actual_damage >? 0 then
               emit (EVENT_DAMAGE_TAKEN target_id actual_damage attacker_id
                       is_crit) ;;
               if negb (is_alive health')
               then handle_death target_id attacker_id
               else ret tt
             else ret tt) ;;
            ret actual_damage
      end
  end.

(** What the body of the target loop tells the loop to do next. *)
Inductive flow := Continue | Break.

Definition in_range (target : Transform) (target_pos : Q * Q) (range_sq : Q)
  : bool :=
  let dx := (x target - fst target_pos)%Q in
  let dy := (y target - snd target_pos)%Q in
  let dist_sq := (dx * dx + dy * dy)%Q in
  Qle_bool dist_sq range_sq.

(** Body of the loop of [perform_attack] for one dictionary item. *)
Definition attack_step (attacker_id : Z) (weapon : Weapon)
    (damage_comp : Damage) (attacker_faction : Faction)
    (target_pos : Q * Q) (range_sq : Q)
    (entity_id : Z) (entity : Entity) (hit_entities : list Z)
  : M (flow * list Z) :=
  if entity_id =? attacker_id then ret (Continue, hit_entities)
  else
    match get_Faction entity, get_Transform entity, get_Health entity with
    | Some target_faction, Some target_transform, Some _ =>
        if negb (is_enemy_of attacker_faction target_faction)
        then ret (Continue, hit_entities)
        else if in_range target_transform target_pos range_sq then
          roll <- random ;;
          let (damage, is_crit) := calculate_damage damage_comp None roll in
          actual_damage <- apply_damage entity_id damage attacker_id is_crit ;;
          let hit_entities :=
            if actual_damage >? 0 then hit_entities ++ [entity_id]
            else hit_entities in
          if (penetration weapon >? 0)
             && (Z.of_nat (length hit_entities) >=? penetration weapon + 1)
          then ret (Break, hit_entities)
          else ret (Continue, hit_entities)
        else ret (Continue, hit_entities)
    | _, _, _ => ret (Continue, hit_entities)
    end.

(** [for entity_id, entity in self.entity_manager.entities.items()].
    The iterator remembers the size [used] the dictionary had when the
    loop started and walks it by position; every advance first compares
    the current size with [used] and raises when an entity was removed
    by the body in the meantime. *)
Fixpoint attack_loop (step : Z -> Entity -> list Z -> M (flow * list Z))
    (used : nat) (positions : list nat) (hit_entities : list Z)
  : M (list Z) :=
  fun w =>
    let items := EntityManager.entities (entity_manager w) in
    if negb (length items =? used)%nat
    then Raise (RuntimeError "dictionary changed size during iteration") w
    else
      match positions with
      | [] => Ok hit_entities w
      | i :: rest =>
          match nth_error items i with
          | None => Ok hit_entities w
          | Some (entity_id, entity) =>
              match step entity_id entity hit_entities w with
              | Ok (Break, hits) w' => Ok hits w'
              | Ok (Continue, hits) w' => attack_loop step used rest hits w'
              | Raise e w' => Raise e w'
              | Hang => Hang
              end
          end
      end.

Definition perform_attack (attacker_id : Z) (target_pos : Q * Q)
    (current_time : Q) : M (list Z) :=
  attacker <- get_entity attacker_id ;;
  match attacker with
  | None => ret []
  | Some attacker =>
      match get_Weapon attacker, get_Damage attacker,
            get_Faction attacker, get_Transform attacker with
      | Some weapon, Some damage_comp, Some attacker_faction, Some _ =>
          if negb (can_attack weapon current_time) then ret []
          else
            let weapon := set_last_attack_time weapon current_time in
            mutate attacker_id (fun a => set_Weapon a weapon) ;;
            let range_sq :=
              (get_effective_range weapon * get_effective_range weapon)%Q in
            fun w =>
              let used := length (EntityManager.entities (entity_manager w)) in
              attack_loop
                (attack_step attacker_id weapon damage_comp attacker_faction
                   target_pos range_sq)
                used (seq 0 used) [] w
      | _, _, _, _ => ret []
      end
  end.

End CombatSystem.

(** ** game/gameplay/hitboxes.py *)

Module HitboxManager.

(** The geometric data of [ArcHitbox] and [LineHitbox]. *)
Inductive Shape :=
| Arc (center : Q * Q) (radius start_angle arc_angle : Q)
| Line (start end_ : Q * Q) (width : Q).

(** A melee hitbox: its shape and its frame window. *)
Record Hitbox := {
  shape : Shape;
  start_frame : Z;
  end_frame : Z;
  current_frame : Z
}.

(** [is_active], the same for both classes. *)
Definition is_active (h : Hitbox) : bool :=
  (start_frame h <=? current_frame h) && (current_frame h <=? end_frame h).

Definition pair_eqb (a b : Q * Q) : bool :=
  Qeq_bool (fst a) (fst b) && Qeq_bool (snd a) (snd b).

(** [==] of the two dataclasses: same class and equal fields. *)
Definition shape_eqb (a b : Shape) : bool :=
  match a, b with
  | Arc c r s g, Arc c' r' s' g' =>
      pair_eqb c c' && Qeq_bool r r' && Qeq_bool s s' && Qeq_bool g g'
  | Line s e w, Line s' e' w' =>
      pair_eqb s s' && pair_eqb e e' && Qeq_bool w w'
  | _, _ => false
  end.

Definition hitbox_eqb (a b : Hitbox) : bool :=
  shape_eqb (shape a) (shape b)
  && (start_frame a =? start_frame b)
  && (end_frame a =? end_frame b)
  && (current_frame a =? current_frame b).

Record t := { active_hitboxes : list Hitbox; frame_counter : Z }.

(** [HitboxManager()] *)
Definition init : t := {| active_hitboxes := []; frame_counter := 0 |}.

Definition add_hitbox (m : t) (h : Hitbox) : t :=
  {| active_hitboxes := active_hitboxes m ++ [h];
     frame_counter := frame_counter m |}.

Definition add_arc_hitbox (m : t) (center : Q * Q)
    (radius start_angle arc_angle : Q) (start_frame end_frame : Z) : t :=
  add_hitbox m {| shape := Arc center radius start_angle arc_angle;
                  start_frame := start_frame; end_frame := end_frame;
                  current_frame := 0 |}.

Definition add_line_hitbox (m : t) (start end_ : Q * Q) (width : Q)
    (start_frame end_frame : Z) : t :=
  add_hitbox m {| shape := Line start end_ width;
                  start_frame := start_frame; end_frame := end_frame;
                  current_frame := 0 |}.

Definition clear (m : t) : t := init.

(** [hitbox.current_frame = self.frame_counter] *)
Definition stamp (frame : Z) (h : Hitbox) : Hitbox :=
  {| shape := shape h; start_frame := start_frame h;
     end_frame := end_frame h; current_frame := frame |}.

Definition expired (h : Hitbox) : bool := current_frame h >? end_frame h.

(** [list.remove(x)]: drops the first element equal to [x]; [None] is the
    ValueError of a list without such an element. *)
Fixpoint list_remove (x : Hitbox) (l : list Hitbox) : option (list Hitbox) :=
  match l with
  | [] => None
  | a :: l' =>
      if hitbox_eqb a x then Some l'
      else match list_remove x l' with
           | Some r => Some (a :: r)
           | None => None
           end
  end.

(** [for hitbox in expired: self.active_hitboxes.remove(hitbox)] *)
Fixpoint remove_all (gone : list Hitbox) (l : list Hitbox)
  : option (list Hitbox) :=
  match gone with
  | [] => Some l
  | h :: gone' =>
      match list_remove h l with
      | Some l' => remove_all gone' l'
      | None => None
      end
  end.

(** [update]; [None] is a ValueError raised by [list.remove]. *)
Definition update (m : t) : option t :=
  let frame_counter := frame_counter m + 1 in
  let stamped := map (stamp frame_counter) (active_hitboxes m) in
  let expired := filter expired stamped in
  match remove_all expired stamped with
  | Some l => Some {| active_hitboxes := l; frame_counter := frame_counter |}
  | None => None
  end.

Section Geometry.
(** [check_entity] of the two hitbox classes: point-in-shape tests on
    the entity centre and the corners of its collider, computed with
    [math.sqrt] and [math.atan2].  The frame logic does not look into
    it. *)
Variable check_entity : Shape -> Transform -> Collider -> bool.

(** Body of the inner loop of [check_hits] for one dictionary item. *)
Definition check_item (hitbox : Hitbox) (attacker_id : Z)
    (exclude_ids hit_entities : list Z) (item : Z * Entity) : list Z :=
  let (entity_id, entity) := item in
  if (entity_id =? attacker_id)
     || existsb (Z.eqb entity_id) exclude_ids
     || existsb (Z.eqb entity_id) hit_entities
  then hit_entities
  else
    match get_Transform entity, get_Collider entity with
    | Some transform, Some collider =>
        if check_entity (shape hitbox) transform collider
        then hit_entities ++ [entity_id]
        else hit_entities
    | _, _ => hit_entities
    end.

(** Body of the outer loop of [check_hits] for one hitbox. *)
Definition check_hitbox (attacker_id : Z) (entities : list (Z * Entity))
    (exclude_ids hit_entities : list Z) (hitbox : Hitbox) : list Z :=
  if negb (is_active hitbox) then hit_entities
  else fold_left (check_item hitbox attacker_id exclude_ids)
         entities hit_entities.

Definition check_hits (m : t) (attacker_id : Z)
    (entities : list (Z * Entity)) (exclude_ids : option (list Z))
  : list Z :=
  let exclude_ids := match exclude_ids with
                     | None => []
                     | Some l => l
                     end in
  fold_left (check_hitbox attacker_id entities exclude_ids)
    (active_hitboxes m) [].
End Geometry.

End HitboxManager.

(** ** game/gameplay/combat.py *)

Module WeaponAttackSystem.

Local Open Scope sim_scope.

(** The state of the system besides the world: the hitbox manager and
    the dictionary [attack_frames].  The calls into the effects system
    (damage numbers, particles, camera shake) touch neither and are left
    out. *)
Record t := {
  hitbox_manager : HitboxManager.t;
  attack_frames : list (Z * Z)
}.

Section Geometry.
Variable check_entity :
  HitboxManager.Shape -> Transform -> Collider -> bool.

(** [for entity_id in hit_entities] of [update_attack_frames]. *)
Fixpoint damage_hits (attacker_id : Z) (damage_comp : Damage)
    (hit_entities : list Z) : M unit :=
  match hit_entities with
  | [] => ret tt
  | entity_id :: rest =>
      roll <- random ;;
      let (damage, is_crit) := calculate_damage damage_comp None roll in
      _ <- CombatSystem.apply_damage entity_id damage attacker_id is_crit ;;
      damage_hits attacker_id damage_comp rest
  end.

(** [self.attack_frames[attacker_id] += 1] *)
Fixpoint bump (attacker_id : Z) (frames : list (Z * Z)) : list (Z * Z) :=
  match frames with
  | [] => []
  | (k, v) :: rest =>
      if k =? attacker_id then (k, v + 1) :: rest
      else (k, v) :: bump attacker_id rest
  end.

(** [del self.attack_frames[attacker_id]] *)
Definition drop (attacker_id : Z) (frames : list (Z * Z)) : list (Z * Z) :=
  filter (fun p => negb (fst p =? attacker_id)) frames.

(** [for attacker_id in list(self.attack_frames.keys())] *)
Fixpoint attackers_loop (hm : HitboxManager.t) (attackers : list Z)
    (frames : list (Z * Z)) : M (list (Z * Z)) :=
  match attackers with
  | [] => ret frames
  | attacker_id :: rest =>
      let frames := bump attacker_id frames in
      attacker <- get_entity attacker_id ;;
      match attacker with
      | None => attackers_loop hm rest (drop attacker_id frames)
      | Some attacker =>
          match get_Weapon attacker, get_Damage attacker with
          | Some _, Some damage_comp =>
              (fun w =>
                 let hit_entities :=
                   HitboxManager.check_hits check_entity hm attacker_id
                     (EntityManager.entities (entity_manager w)) None in
                 damage_hits attacker_id damage_comp hit_entities w) ;;
              attackers_loop hm rest frames
          | _, _ => attackers_loop hm rest (drop attacker_id frames)
          end
      end
  end.

(** [dt] is not read by the body. *)
Definition update_attack_frames (s : t) (dt : Q) : M t :=
  match HitboxManager.update (hitbox_manager s) with
  | None => raise (ValueError "list.remove(x): x not in list")
  | Some hm =>
      frames <- attackers_loop hm (map fst (attack_frames s))
                  (attack_frames s) ;;
      ret {| hitbox_manager := hm; attack_frames := frames |}
  end.
End Geometry.

End WeaponAttackSystem.

(** ** game/world/level.py *)

Module Level.

(** [tiles x y] is the [walkable] flag of [self.tiles[y][x]]; it is only
    read inside the bounds. *)
Record t := { width : Z; height : Z; tiles : Z -> Z -> bool }.

Definition in_bounds (l : t) (x y : Z) : bool :=
  (0 <=? x) && (x <? width l) && (0 <=? y) && (y <? height l).

(** [is_walkable]: [get_tile] answers [None] outside the bounds. *)
Definition is_walkable (l : t) (x y : Z) : bool :=
  if in_bounds l x y then tiles l x y else false.

End Level.

(** ** game/gameplay/pathfinding.py *)

Module Pathfinder.

#[warnings="-register-all"]
Inductive Node := mkNode (x y : Z) (g h : Q) (parent : option Node).

Definition node_x (n : Node) : Z := let (x, _, _, _, _) := n in x.
Definition node_y (n : Node) : Z := let (_, y, _, _, _) := n in y.
Definition node_g (n : Node) : Q := let (_, _, g, _, _) := n in g.
Definition node_h (n : Node) : Q := let (_, _, _, h, _) := n in h.
Definition node_parent (n : Node) : option Node :=
  let (_, _, _, _, p) := n in p.

(** [Node.f] and [Node.__lt__] *)
Definition f (n : Node) : Q := (node_g n + node_h n)%Q.
Definition lt (a b : Node) : bool := Qltb (f a) (f b).

Record t := { level : Level.t; tile_size : Z }.

(** [heuristic]: Manhattan distance. *)
Definition heuristic (x1 y1 x2 y2 : Z) : Z :=
  Z.abs (x1 - x2) + Z.abs (y1 - y2).

Definition directions : list (Z * Z) :=
  [(0, 1); (1, 0); (0, -1); (-1, 0); (1, 1); (-1, 1); (1, -1); (-1, -1)].

Definition get_neighbors (pf : t) (x y : Z) : list (Z * Z) :=
  filter (fun n => Level.is_walkable (level pf) (fst n) (snd n))
    (map (fun d => (x + fst d, y + snd d)) directions).

(** [range(a, b)] *)
Definition range (a b : Z) : list Z :=
  map (fun i => a + Z.of_nat i) (seq 0 (Z.to_nat (b - a))).

(** The offsets the two inner loops of [_find_nearest_walkable] accept
    for one [radius], in the order they are visited. *)
Definition ring (radius : Z) : list (Z * Z) :=
  filter (fun d => Z.abs (fst d) + Z.abs (snd d) =? radius)
    (list_prod (range (- radius) (radius + 1))
               (range (- radius) (radius + 1))).

Definition find_nearest_walkable (pf : t) (x y : Z) (max_radius : Z)
  : Z * Z :=
  match find (fun d => Level.is_walkable (level pf) (x + fst d) (y + snd d))
             (flat_map ring (range 1 (max_radius + 1))) with
  | Some d => (x + fst d, y + snd d)
  | None => (x, y)
  end.

(** A start or goal tile that is not walkable is replaced. *)
Definition snap (pf : t) (tile : Z * Z) : Z * Z :=
  if Level.is_walkable (level pf) (fst tile) (snd tile) then tile
  else find_nearest_walkable pf (fst tile) (snd tile) 5.

Definition tile_eqb (a b : Z * Z) : bool :=
  (fst a =? fst b) && (snd a =? snd b).

(** World coordinates of the centre of a tile. *)
Definition to_world (pf : t) (n : Node) : Q * Q :=
  (inject_Z (node_x n * tile_size pf + tile_size pf / 2),
   inject_Z (node_y n * tile_size pf + tile_size pf / 2)).

(** The [while node] loop that follows the parent pointers. *)
Fixpoint trace (pf : t) (n : Node) : list (Q * Q) :=
  match n with
  | mkNode _ _ _ _ parent =>
      to_world pf n :: match parent with
                       | Some p => trace pf p
                       | None => []
                       end
  end.

Section Heap.
(** [heapq.heappush] and [heapq.heappop] of the Python library,
    ordered by [Node.__lt__]. *)
Variable heappush : list Node -> Node -> list Node.
Variable heappop : list Node -> option (Node * list Node).

(** Body of the loop over the neighbours of [current]. *)
Definition push_neighbor (goal : Z * Z) (closed_set : list (Z * Z))
    (current : Node) (open_set : list Node) (n : Z * Z) : list Node :=
  if existsb (tile_eqb n) closed_set then open_set
  else
    let is_diagonal :=
      Z.abs (fst n - node_x current) + Z.abs (snd n - node_y current)
      =? 2 in
    let cost := if is_diagonal then (1414 # 1000)%Q else 1%Q in
    heappush open_set
      (mkNode (fst n) (snd n) (node_g current + cost)
         (inject_Z (heuristic (fst n) (snd n) (fst goal) (snd goal)))
         (Some current)).

(** The [while open_set] loop.  [None]: the fuel ran out;
    [Some None]: the open set was exhausted; [Some (Some n)]: the goal
    node [n] was reached. *)
Fixpoint search (fuel : nat) (pf : t) (goal : Z * Z)
    (open_set : list Node) (closed_set : list (Z * Z))
  : option (option Node) :=
  match fuel with
  | O => None
  | S fuel' =>
      match open_set with
      | [] => Some None
      | _ :: _ =>
          match heappop open_set with
          | None => Some None (* no item left: the loop is over *)
          | Some (current, open_set) =>
              let here := (node_x current, node_y current) in
              if existsb (tile_eqb here) closed_set
              then search fuel' pf goal open_set closed_set
              else
                let closed_set := here :: closed_set in
                if tile_eqb here goal then Some (Some current)
                else
                  search fuel' pf goal
                    (fold_left (push_neighbor goal closed_set current)
                       (get_neighbors pf (node_x current) (node_y current))
                       open_set)
                    closed_set
          end
      end
  end.

(** Iterations that are always enough for the level of [pf]. *)
Definition search_fuel (pf : t) : nat :=
  2 + 8 * S (Z.to_nat (Level.width (level pf))
             * Z.to_nat (Level.height (level pf))).

Inductive outcome :=
| Path (path : list (Q * Q))
| ZeroDivisionError
| Diverges.

Definition find_path (pf : t) (start_x start_y goal_x goal_y : Q)
  : outcome :=
  if tile_size pf =? 0 then ZeroDivisionError
  else
    let start_tile :=
      (floordiv start_x (tile_size pf), floordiv start_y (tile_size pf)) in
    let goal_tile :=
      (floordiv goal_x (tile_size pf), floordiv goal_y (tile_size pf)) in
    let goal_tile := snap pf goal_tile in
    let start_tile := snap pf start_tile in
    let start_node :=
      mkNode (fst start_tile) (snd start_tile) 0
        (inject_Z (heuristic (fst start_tile) (snd start_tile)
                     (fst goal_tile) (snd goal_tile)))
        None in
    match search (search_fuel pf) pf goal_tile
            (heappush [] start_node) [] with
    | None => Diverges
    | Some (Some node) => Path (rev (trace pf node))
    | Some None => Path [(goal_x, goal_y)]
    end.
End Heap.

End Pathfinder.

(** ** game/ecs/components.py: Inventory and SkillTree *)

Module Inventory.

Local Set Implicit Arguments.

Section Items.
(** An item, weapon or consumable description ([Dict[str, Any]]). *)
Variable Item : Type.

Record t := {
  items : list Item;
  gold : Z;
  max_size : Z;
  weapon_slots : list (option Item);
  active_weapon_slot : Z;
  consumable_slots : list (option Item);
  consumable_counts : list Z
}.

(** [0 <= index < len(l)] *)
Definition valid_index {A} (index : Z) (l : list A) : bool :=
  (0 <=? index) && (index <? Z.of_nat (length l)).

(** [l[i] = v]; [None] is the IndexError of an index out of range. *)
Fixpoint assign {A} (l : list A) (i : nat) (v : A) : option (list A) :=
  match l, i with
  | [], _ => None
  | _ :: l', O => Some (v :: l')
  | a :: l', S i' =>
      match assign l' i' v with
      | Some r => Some (a :: r)
      | None => None
      end
  end.

Definition set_items (inv : t) (l : list Item) : t :=
  {| items := l; gold := gold inv; max_size := max_size inv;
     weapon_slots := weapon_slots inv;
     active_weapon_slot := active_weapon_slot inv;
     consumable_slots := consumable_slots inv;
     consumable_counts := consumable_counts inv |}.

Definition set_gold (inv : t) (g : Z) : t :=
  {| items := items inv; gold := g; max_size := max_size inv;
     weapon_slots := weapon_slots inv;
     active_weapon_slot := active_weapon_slot inv;
     consumable_slots := consumable_slots inv;
     consumable_counts := consumable_counts inv |}.

Definition set_weapon_slots (inv : t) (l : list (option Item)) : t :=
  {| items := items inv; gold := gold inv; max_size := max_size inv;
     weapon_slots := l;
     active_weapon_slot := active_weapon_slot inv;
     consumable_slots := consumable_slots inv;
     consumable_counts := consumable_counts inv |}.

Definition set_active_weapon_slot (inv : t) (slot : Z) : t :=
  {| items := items inv; gold := gold inv; max_size := max_size inv;
     weapon_slots := weapon_slots inv;
     active_weapon_slot := slot;
     consumable_slots := consumable_slots inv;
     consumable_counts := consumable_counts inv |}.

Definition set_consumables (inv : t) (slots : list (option Item))
    (counts : list Z) : t :=
  {| items := items inv; gold := gold inv; max_size := max_size inv;
     weapon_slots := weapon_slots inv;
     active_weapon_slot := active_weapon_slot inv;
     consumable_slots := slots;
     consumable_counts := counts |}.

Definition add_item (inv : t) (item : Item) : bool * t :=
  if Z.of_nat (length (items inv)) <? max_size inv
  then (true, set_items inv (items inv ++ [item]))
  else (false, inv).

(** [self.items.pop(index)] behind the bounds test. *)
Definition remove_item (inv : t) (index : Z) : option Item * t :=
  if valid_index index (items inv) then
    let i := Z.to_nat index in
    (nth_error (items inv) i,
     set_items inv (firstn i (items inv) ++ skipn (S i) (items inv)))
  else (None, inv).

Definition add_gold (inv : t) (amount : Z) : t :=
  set_gold inv (gold inv + amount).

Definition spend_gold (inv : t) (amount : Z) : bool * t :=
  if gold inv >=? amount
  then (true, set_gold inv (gold inv - amount))
  else (false, inv).

Definition set_weapon (inv : t) (slot : Z) (weapon_data : option Item)
  : bool * t :=
  if valid_index slot (weapon_slots inv) then
    match assign (weapon_slots inv) (Z.to_nat slot) weapon_data with
    | Some l => (true, set_weapon_slots inv l)
    | None => (true, inv)
    end
  else (false, inv).

(** The weapon in the active slot; [None] for an empty slot and for a
    slot index out of range. *)
Definition get_active_weapon (inv : t) : option Item :=
  if valid_index (active_weapon_slot inv) (weapon_slots inv)
  then match nth_error (weapon_slots inv)
               (Z.to_nat (active_weapon_slot inv)) with
       | Some content => content
       | None => None
       end
  else None.

Definition switch_weapon_slot (inv : t) (slot : Z) : bool * t :=
  if valid_index slot (weapon_slots inv) then
    match nth_error (weapon_slots inv) (Z.to_nat slot) with
    | Some (Some _) => (true, set_active_weapon_slot inv slot)
    | _ => (false, inv)
    end
  else (false, inv).

(** [set_consumable]; the outer [None] is the IndexError of
    [consumable_counts[slot]]. *)
Definition set_consumable (inv : t) (slot : Z)
    (consumable_data : option Item) (count : Z) : option (bool * t) :=
  if valid_index slot (consumable_slots inv) then
    match assign (consumable_slots inv) (Z.to_nat slot) consumable_data with
    | Some slots =>
        let count := match consumable_data with
                     | Some _ => count
                     | None => 0
                     end in
        match assign (consumable_counts inv) (Z.to_nat slot) count with
        | Some counts => Some (true, set_consumables inv slots counts)
        | None => None
        end
    | None => None
    end
  else Some (false, inv).

(** [use_consumable]; the outer [None] is the IndexError of
    [consumable_counts[slot]]. *)
Definition use_consumable (inv : t) (slot : Z)
  : option (option Item * t) :=
  if valid_index slot (consumable_slots inv) then
    let i := Z.to_nat slot in
    match nth_error (consumable_slots inv) i with
    | Some (Some content) =>
        match nth_error (consumable_counts inv) i with
        | None => None
        | Some count =>
            if count >? 0 then
              let count := count - 1 in
              if count <=? 0 then
                (* the slot is emptied before it is returned *)
                match assign (consumable_slots inv) i None,
                      assign (consumable_counts inv) i 0 with
                | Some slots, Some counts =>
                    Some (None, set_consumables inv slots counts)
                | _, _ => None
                end
              else
                match assign (consumable_counts inv) i count with
                | Some counts =>
                    Some (Some content,
                          set_consumables inv (consumable_slots inv) counts)
                | None => None
                end
            else Some (None, inv)
        end
    | _ => Some (None, inv)
    end
  else Some (None, inv).

(** [get_consumable]; the outer [None] is the IndexError of
    [consumable_counts[slot]]. *)
Definition get_consumable (inv : t) (slot : Z)
  : option (option Item * Z) :=
  if valid_index slot (consumable_slots inv) then
    match nth_error (consumable_slots inv) (Z.to_nat slot),
          nth_error (consumable_counts inv) (Z.to_nat slot) with
    | Some content, Some count => Some (content, count)
    | _, _ => None
    end
  else Some (None, 0).
End Items.

End Inventory.

Module SkillTree.

Record t := { unlocked_nodes : list string; available_points : Z }.

(** [node_id in self.unlocked_nodes] *)
Definition has_node (s : t) (node_id : string) : bool :=
  existsb (String.eqb node_id) (unlocked_nodes s).

Definition unlock_node (s : t) (node_id : string) : bool * t :=
  if negb (has_node s node_id)
  then (true, {| unlocked_nodes := unlocked_nodes s ++ [node_id];
                 available_points := available_points s |})
  else (false, s).

Definition add_skill_point (s : t) (amount : Z) : t :=
  {| unlocked_nodes := unlocked_nodes s;
     available_points := available_points s + amount |}.

End SkillTree.

(** ** game/core/timers.py: Cooldown *)

Module Cooldown.

Record t := { duration : Q; remaining : Q }.

(** [Cooldown(duration)] *)
Definition init (duration : Q) : t :=
  {| duration := duration; remaining := 0 |}.

Definition update (c : t) (dt : Q) : t :=
  if Qltb 0 (remaining c) then
    let r := (remaining c - dt)%Q in
    {| duration := duration c; remaining := if Qltb r 0 then 0%Q else r |}
  else c.

Definition is_ready (c : t) : bool := Qle_bool (remaining c) 0.

Definition trigger (c : t) : bool * t :=
  if is_ready c
  then (true, {| duration := duration c; remaining := duration c |})
  else (false, c).

(** [max(0.0, self.remaining)] *)
Definition get_remaining (c : t) : Q :=
  if Qltb 0 (remaining c) then remaining c else 0%Q.

End Cooldown.

(** ** game/gameplay/player.py *)

Module InputBuffer.

(** [buffered_actions] maps an action to the time it was buffered. *)
Record t := { buffer_time : Q; buffered_actions : list (string * Q) }.

Fixpoint lookup (action : string) (l : list (string * Q)) : option Q :=
  match l with
  | [] => None
  | (k, v) :: l' => if String.eqb k action then Some v else lookup action l'
  end.

(** [d[action] = value]: overwrites in place or appends. *)
Fixpoint store (action : string) (value : Q) (l : list (string * Q))
  : list (string * Q) :=
  match l with
  | [] => [(action, value)]
  | (k, v) :: l' =>
      if String.eqb k action then (k, value) :: l'
      else (k, v) :: store action value l'
  end.

(** [del d[action]] *)
Definition delete (action : string) (l : list (string * Q))
  : list (string * Q) :=
  filter (fun p => negb (String.eqb (fst p) action)) l.

Definition buffer_action (b : t) (action : string) (current_time : Q) : t :=
  {| buffer_time := buffer_time b;
     buffered_actions := store action current_time (buffered_actions b) |}.

Definition consume_action (b : t) (action : string) (current_time : Q)
  : bool * t :=
  match lookup action (buffered_actions b) with
  | Some timestamp =>
      let b' := {| buffer_time := buffer_time b;
                   buffered_actions := delete action (buffered_actions b) |} in
      if Qle_bool (current_time - timestamp) (buffer_time b)
      then (true, b')
      else (false, b')
  | None => (false, b)
  end.

Definition update (b : t) (current_time : Q) : t :=
  let expired :=
    map fst (filter (fun p => Qltb (buffer_time b) (current_time - snd p))
               (buffered_actions b)) in
  {| buffer_time := buffer_time b;
     buffered_actions :=
       fold_left (fun l action => delete action l) expired
         (buffered_actions b) |}.

End InputBuffer.

Module PlayerController.

Definition weapons : list WeaponType := [SWORD; SPEAR; CROSSBOW].

(** [weapons.index(weapon.weapon_type)] *)
Definition index_of (ty : WeaponType) : Z :=
  match ty with SWORD => 0 | SPEAR => 1 | CROSSBOW => 2 end.

(** The part of [_switch_weapon] that acts on the Weapon component. *)
Definition switch_weapon (weapon : Weapon) (direction : Z) : Weapon :=
  let current_index := index_of (weapon_type weapon) in
  let new_index := (current_index + direction) mod 3 in
  let new_type := nth (Z.to_nat new_index) weapons SWORD in
  match new_type with
  | SWORD =>
      {| weapon_type := SWORD; attack_delay := 1 # 2; range := 60;
         projectile_speed := projectile_speed weapon;
         reload_time := reload_time weapon; penetration := 0;
         range_multiplier := range_multiplier weapon;
         last_attack_time := last_attack_time weapon; ammo := ammo weapon |}
  | SPEAR =>
      {| weapon_type := SPEAR; attack_delay := 7 # 10; range := 90;
         projectile_speed := projectile_speed weapon;
         reload_time := reload_time weapon; penetration := 1;
         range_multiplier := range_multiplier weapon;
         last_attack_time := last_attack_time weapon; ammo := ammo weapon |}
  | CROSSBOW =>
      {| weapon_type := CROSSBOW; attack_delay := 3 # 2; range := 400;
         projectile_speed := 400; reload_time := 0; penetration := 0;
         range_multiplier := range_multiplier weapon;
         last_attack_time := last_attack_time weapon; ammo := ammo weapon |}
  end.

End PlayerController.

(** * Theorems *)

(** ** Numerics *)

Lemma py_int_inject_Z (z : Z) : py_int (inject_Z z) = z.
Proof. unfold py_int; simpl. apply Z.quot_1_r. Qed.

Lemma py_int_nonneg_floor (q : Q) : (0 <= q)%Q -> py_int q = Qfloor q.
Proof.
  destruct q as [n d]; unfold py_int, Qfloor, Qle; simpl; intros H.
  apply Z.quot_div_nonneg; lia.
Qed.

Lemma py_int_nonneg_bounds (q : Q) :
  (0 <= q)%Q -> (inject_Z (py_int q) <= q /\ q < inject_Z (py_int q) + 1)%Q.
Proof.
  intros H. rewrite (py_int_nonneg_floor _ H). split.
  - apply Qfloor_le.
  - pose proof (Qlt_floor q) as L. rewrite inject_Z_plus in L. exact L.
Qed.

Lemma py_int_opp (q : Q) : py_int (- q) = - py_int q.
Proof.
  destruct q as [n d]; unfold py_int; simpl.
  apply Z.quot_opp_l. discriminate.
Qed.

Lemma py_int_nonpos_bounds (q : Q) :
  (q <= 0)%Q -> (inject_Z (py_int q) - 1 < q /\ q <= inject_Z (py_int q))%Q.
Proof.
  intros H.
  assert (Hn : (0 <= - q)%Q) by lra.
  destruct (py_int_nonneg_bounds _ Hn) as [A B].
  rewrite py_int_opp, inject_Z_opp in A, B. split; lra.
Qed.

(** ** Health *)

(** C1. For a Health with [0 <= hp <= max_hp] and a damage [d >= 0],
    [take_damage d] returns [min d hp] and leaves [hp = max 0 (hp - d)];
    the new hp is never negative and never above [max_hp]. *)
Theorem take_damage_spec (h : Health) (d : Z) :
  0 <= hp h <= max_hp h ->
  0 <= d ->
  let (dealt, h') := take_damage h d in
  dealt = Z.min d (hp h) /\
  hp h' = Z.max 0 (hp h - d) /\
  0 <= hp h' <= max_hp h' /\
  max_hp h' = max_hp h.
Proof.
  intros Hhp Hd. unfold take_damage; cbn [hp max_hp].
  repeat split; lia.
Qed.

Lemma take_damage_spec_witness :
  let h := {| max_hp := 100; hp := 50 |} in
  let (dealt, h') := take_damage h 80 in
  dealt = Z.min 80 (hp h) /\
  hp h' = Z.max 0 (hp h - 80) /\
  0 <= hp h' <= max_hp h' /\
  max_hp h' = max_hp h.
Proof.
  apply (take_damage_spec {| max_hp := 100; hp := 50 |} 80); simpl; lia.
Defined.

(** ** Damage *)

Definition d_5_2_x125 : Damage :=
  {| base := 5; crit_chance := 0; crit_multiplier := 5 # 4; bonus_damage := 2 |}.

(** C2, as stated, fails: a forced crit on base 5, bonus 2, multiplier 1.25
    yields [int(8.75) = 8], whereas [round(8.75) = 9]. *)
Lemma calculate_damage_not_round :
  fst (calculate_damage d_5_2_x125 (Some true) 0)
  <> py_round (inject_Z (base d_5_2_x125 + bonus_damage d_5_2_x125)
               * crit_multiplier d_5_2_x125).
Proof. vm_compute. discriminate. Qed.

(** C2, amended. A forced crit returns [(B + k) * M] truncated toward zero
    (the integer part, not the nearest integer); a forced non-crit returns
    exactly [B + k]. *)
Theorem calculate_damage_forced (d : Damage) (roll : Q) :
  calculate_damage d (Some false) roll = (base d + bonus_damage d, false) /\
  exists r : Z,
    calculate_damage d (Some true) roll = (r, true) /\
    let p := (inject_Z (base d + bonus_damage d) * crit_multiplier d)%Q in
    ((0 <= p)%Q -> (inject_Z r <= p /\ p < inject_Z r + 1)%Q) /\
    ((p <= 0)%Q -> (inject_Z r - 1 < p /\ p <= inject_Z r)%Q).
Proof.
  split; [reflexivity|].
  eexists; split; [reflexivity|]. cbv zeta. split; intros Hp.
  - apply py_int_nonneg_bounds, Hp.
  - apply py_int_nonpos_bounds, Hp.
Qed.

Lemma calculate_damage_forced_witness :
  calculate_damage d_5_2_x125 (Some false) 0 = (7, false) /\
  calculate_damage d_5_2_x125 (Some true) 0 = (8, true).
Proof.
  destruct (calculate_damage_forced d_5_2_x125 0) as [H _].
  split; [exact H | reflexivity].
Defined.

(** ** Experience *)

Lemma py_int_three_halves (n : Z) :
  py_int (inject_Z n * (3 # 2)) = Z.quot (n * 3) 2.
Proof. reflexivity. Qed.

Lemma three_halves_ge (n : Z) : 1 <= n -> n <= Z.quot (n * 3) 2.
Proof.
  intros H. apply Z.quot_le_lower_bound; lia.
Qed.

Lemma three_halves_nonpos (n : Z) : n <= 0 -> Z.quot (n * 3) 2 <= 0.
Proof.
  intros H.
  replace (n * 3) with (- (- n * 3)) by lia.
  rewrite Z.quot_opp_l by lia.
  assert (0 <= Z.quot (- n * 3) 2) by (apply Z.quot_pos; lia). lia.
Qed.

Lemma py_int_scale_nonneg (a : Z) (m : Q) :
  0 <= a -> (0 <= m)%Q -> 0 <= py_int (inject_Z a * m).
Proof.
  intros Ha Hm.
  assert (Hp : (0 <= inject_Z a * m)%Q).
  { apply Qmult_le_0_compat; [|exact Hm].
    change 0%Q with (inject_Z 0). rewrite <- Zle_Qle. exact Ha. }
  rewrite (py_int_nonneg_floor _ Hp).
  change 0 with (Qfloor 0). apply Qfloor_resp_le, Hp.
Qed.

(** More fuel never changes the result of the level-up loop. *)
Lemma level_up_loop_mono (n : nat) :
  forall e b r, level_up_loop n e b = Some r ->
  forall m, (n <= m)%nat -> level_up_loop m e b = Some r.
Proof.
  induction n as [|n IH]; intros e b r H m Hm; [discriminate|].
  destruct m as [|m]; [lia|]. simpl in *.
  destruct (xp e >=? next_xp e); [|exact H].
  apply (IH _ _ _ H). lia.
Qed.

(** With a positive threshold the loop exits within [xp + 1] tests. *)
Lemma level_up_loop_exits (fuel : nat) :
  forall e b,
    0 <= xp e -> 1 <= next_xp e -> (Z.to_nat (xp e) < fuel)%nat ->
    exists b' e',
      level_up_loop fuel e b = Some (b', e') /\
      0 <= xp e' < next_xp e' /\
      level e <= level e' /\
      (b' = true <-> b = true \/ level e < level e').
Proof.
  induction fuel as [|fuel IH]; intros e b Hx Hn Hf; [lia|].
  simpl. destruct (xp e >=? next_xp e) eqn:G.
  - apply Z.geb_le in G.
    edestruct (IH {| level := level e + 1; xp := xp e - next_xp e;
                     next_xp := py_int (inject_Z (next_xp e) * (3 # 2));
                     xp_multiplier := xp_multiplier e |} true)
      as (b' & e' & R & Hb & Hl & Hiff); cbn [xp next_xp level].
    + lia.
    + rewrite py_int_three_halves. pose proof (three_halves_ge _ Hn). lia.
    + lia.
    + exists b', e'. rewrite R. cbn [level] in Hl.
      split; [reflexivity|]. split; [lia|]. split; [lia|]. split.
      * intros _. right. lia.
      * intros _. apply Hiff. now left.
  - exists b, e. split; [reflexivity|].
    assert (xp e < next_xp e).
    { destruct (Z.geb_spec (xp e) (next_xp e)); [discriminate | lia]. }
    split; [lia|]. split; [lia|]. split.
    + intros ->. now left.
    + intros [-> | L]; [reflexivity | lia].
Qed.

(** With a non-positive threshold that the xp has reached, the loop never
    exits. *)
Lemma level_up_loop_spins (fuel : nat) :
  forall e b, next_xp e <= 0 -> next_xp e <= xp e ->
  level_up_loop fuel e b = None.
Proof.
  induction fuel as [|fuel IH]; intros e b Hn Hx; [reflexivity|].
  simpl. destruct (Z.geb_spec (xp e) (next_xp e)) as [_|L]; [|lia].
  apply IH; cbn [xp next_xp]; rewrite py_int_three_halves;
    pose proof (three_halves_nonpos _ Hn); lia.
Qed.

(** The fuel [xp + 1] used by [add_xp] is enough: running out of it means
    that no amount of fuel reaches the loop exit. *)
Lemma level_up_loop_hangs (e : Experience) (b : bool) :
  level_up_loop (S (Z.to_nat (xp e))) e b = None ->
  forall fuel, level_up_loop fuel e b = None.
Proof.
  intros H fuel.
  destruct (Z.le_gt_cases (next_xp e) (xp e)) as [Hge|Hlt].
  - destruct (Z.le_gt_cases (next_xp e) 0) as [Hn|Hn].
    + now apply level_up_loop_spins.
    + destruct (level_up_loop_exits (S (Z.to_nat (xp e))) e b)
        as (b' & e' & R & _); try lia.
      congruence.
  - simpl in H.
    destruct (Z.geb_spec (xp e) (next_xp e)); [lia | discriminate].
Qed.

(** C10. With [xp >= 0], [next_xp >= 1], [xp_multiplier >= 0] and
    [amount >= 0], [add_xp] terminates: its loop reaches its exit after a
    finite number of iterations (the number of levels gained), leaves
    [0 <= xp < next_xp], and returns true exactly when a level was gained. *)
Theorem add_xp_terminates (e : Experience) (amount : Z) :
  0 <= xp e ->
  1 <= next_xp e ->
  (0 <= xp_multiplier e)%Q ->
  0 <= amount ->
  exists (leveled_up : bool) (e' : Experience),
    add_xp e amount = Some (leveled_up, e') /\
    (exists n, forall fuel, (n <= fuel)%nat ->
       level_up_loop fuel (credit_xp e amount) false = Some (leveled_up, e')) /\
    0 <= xp e' < next_xp e' /\
    level e <= level e' /\
    (leveled_up = true <-> level e < level e').
Proof.
  intros Hx Hn Hm Ha.
  pose proof (py_int_scale_nonneg _ _ Ha Hm) as Hadj.
  destruct (level_up_loop_exits (S (Z.to_nat (xp (credit_xp e amount))))
              (credit_xp e amount) false)
    as (b' & e' & R & Hb & Hl & Hiff); cbn [credit_xp xp next_xp level] in *;
    try lia.
  exists b', e'. split; [exact R|]. split.
  - eexists. intros fuel Hf. eapply level_up_loop_mono; [exact R | exact Hf].
  - split; [lia|]. split; [lia|]. split.
    + intros Hb'. apply Hiff in Hb'. destruct Hb'; [discriminate | lia].
    + intros L. apply Hiff. now right.
Qed.

Lemma add_xp_terminates_witness :
  exists (leveled_up : bool) (e' : Experience),
    add_xp {| level := 1; xp := 40; next_xp := 50; xp_multiplier := 1 |} 100
      = Some (leveled_up, e') /\
    0 <= xp e' < next_xp e' /\ leveled_up = true /\ level e' = 3.
Proof.
  destruct (add_xp_terminates
              {| level := 1; xp := 40; next_xp := 50; xp_multiplier := 1 |} 100)
    as (b & e' & R & _ & Hb & _ & _); cbn [xp next_xp xp_multiplier];
    try lia; try (unfold Qle; simpl; lia).
  exists b, e'. split; [exact R|]. split; [exact Hb|].
  vm_compute in R. injection R as <- <-. split; reflexivity.
Defined.

(** ** StatusEffects *)

Section StatusEffectsFacts.
Import StatusEffects.

(** At most one effect of each kind. *)
Definition one_per_kind (effects : StatusEffects.t) : Prop :=
  NoDup (map effect_type effects).

(** An effect that is still running. *)
Definition running (e : StatusEffect) : bool :=
  negb (Qle_bool (duration e) 0).

Lemma StatusEffectType_eqb_eq (a b : StatusEffectType) :
  StatusEffectType_eqb a b = true <-> a = b.
Proof. destruct a, b; simpl; split; congruence. Qed.

Lemma StatusEffectType_eqb_neq (a b : StatusEffectType) :
  StatusEffectType_eqb a b = false <-> a <> b.
Proof. destruct a, b; simpl; split; congruence. Qed.

Lemma refresh_kinds (l : t) (e : StatusEffect) :
  forall l', refresh l e = Some l' -> map effect_type l' = map effect_type l.
Proof.
  induction l as [|a l IH]; simpl; intros l' H; [discriminate|].
  destruct (StatusEffectType_eqb (effect_type a) (effect_type e)).
  - injection H as <-. reflexivity.
  - destruct (refresh l e) as [r|]; [|discriminate].
    injection H as <-. simpl. f_equal. now apply IH.
Qed.

Lemma refresh_None (l : t) (e : StatusEffect) :
  refresh l e = None <-> ~ In (effect_type e) (map effect_type l).
Proof.
  induction l as [|a l IH]; simpl.
  - tauto.
  - destruct (StatusEffectType_eqb (effect_type a) (effect_type e)) eqn:E.
    + apply StatusEffectType_eqb_eq in E. split; [discriminate|].
      intros H. exfalso. apply H. now left.
    + apply StatusEffectType_eqb_neq in E.
      destruct (refresh l e) as [r|].
      * split; [discriminate|]. intros H. exfalso.
        assert (N : ~ In (effect_type e) (map effect_type l)) by tauto.
        apply IH in N. discriminate.
      * split; [|reflexivity]. intros _ [H|H]; [now apply E|].
        now apply (proj1 IH).
Qed.

(** The refresh touches the first effect of the kind and nothing else. *)
Lemma refresh_Some (l : t) (e : StatusEffect) :
  forall l', refresh l e = Some l' ->
  exists l1 existing l2,
    l = l1 ++ existing :: l2 /\
    effect_type existing = effect_type e /\
    ~ In (effect_type e) (map effect_type l1) /\
    l' = l1 ++ set_duration existing (duration e) :: l2.
Proof.
  induction l as [|a l IH]; simpl; intros l' H; [discriminate|].
  destruct (StatusEffectType_eqb (effect_type a) (effect_type e)) eqn:E.
  - injection H as <-. apply StatusEffectType_eqb_eq in E.
    exists [], a, l. simpl. tauto.
  - apply StatusEffectType_eqb_neq in E.
    destruct (refresh l e) as [r|]; [|discriminate]. injection H as <-.
    destruct (IH r eq_refl) as (l1 & ex & l2 & -> & K & N & ->).
    exists (a :: l1), ex, l2. simpl. repeat split; trivial.
    intros [F|F]; [now apply E | now apply N].
Qed.

Lemma has_effect_In (l : t) (ty : StatusEffectType) :
  has_effect l ty = true <-> In ty (map effect_type l).
Proof.
  unfold has_effect. rewrite existsb_exists, in_map_iff.
  split; intros (a & H1 & H2).
  - exists a. apply StatusEffectType_eqb_eq in H2. tauto.
  - exists a. subst ty. split; [exact H2|]. now apply StatusEffectType_eqb_eq.
Qed.

Lemma add_effect_one_per_kind (l : t) (e : StatusEffect) :
  one_per_kind l -> one_per_kind (add_effect l e).
Proof.
  unfold one_per_kind, add_effect. intros H.
  destruct (refresh l e) as [r|] eqn:R.
  - now rewrite (refresh_kinds _ _ _ R).
  - apply refresh_None in R. rewrite map_app. simpl.
    apply NoDup_app; try assumption.
    + repeat constructor. simpl. tauto.
    + intros a Ha [<-|[]]. now apply R.
Qed.

(** Dropping elements keeps the keys duplicate-free. *)
Lemma NoDup_map_filter {X Y} (key : X -> Y) (keep : X -> bool)
    (xs : list X) :
  NoDup (map key xs) -> NoDup (map key (filter keep xs)).
Proof.
  intros ND. induction xs as [|a xs IH]; cbn [filter map] in *.
  - constructor.
  - apply NoDup_cons_iff in ND. destruct ND as [Fresh ND].
    destruct (keep a); cbn [map]; [|now apply IH].
    apply NoDup_cons; [|now apply IH].
    rewrite in_map_iff. intros (b & E & Hb). apply filter_In in Hb.
    apply Fresh. rewrite in_map_iff. exists b. tauto.
Qed.

Lemma remove_effect_one_per_kind (l : t) (ty : StatusEffectType) :
  one_per_kind l -> one_per_kind (remove_effect l ty).
Proof. apply NoDup_map_filter. Qed.

(** An effect whose duration is at most 0 equals no running effect, so
    [list.remove] finds nothing among the effects already kept. *)
Lemma list_remove_running (x : StatusEffect) (l : t) :
  running x = false -> Forall (fun e => running e = true) l ->
  list_remove x l = None.
Proof.
  intros Hx. induction 1 as [|a l Ha _ IH]; simpl; [reflexivity|].
  destruct (effect_eqb a x) eqn:E.
  - exfalso. unfold effect_eqb in E.
    repeat (apply andb_prop in E; destruct E as [E ?]).
    match goal with H : Qeq_bool (duration a) _ = true |- _ =>
      apply Qeq_bool_iff in H; rename H into D end.
    unfold running in Hx, Ha.
    apply negb_false_iff in Hx. apply negb_true_iff in Ha.
    apply Qle_bool_iff in Hx. rewrite <- D in Hx.
    apply Qle_bool_iff in Hx. congruence.
  - now rewrite IH.
Qed.

Lemma update_loop_filter (dt : Q) (remaining : t) :
  forall visited, Forall (fun e => running e = true) visited ->
  update_loop dt visited remaining
  = visited ++ filter running (map (tick dt) remaining).
Proof.
  induction remaining as [|e rest IH]; intros visited Hv.
  - simpl. now rewrite app_nil_r.
  - cbn [update_loop map filter].
    assert (R : running (tick dt e)
                = negb (Qle_bool (duration (tick dt e)) 0)) by reflexivity.
    destruct (Qle_bool (duration (tick dt e)) 0) eqn:D;
      rewrite R; cbn [negb].
    + rewrite list_remove_running; trivial.
      now apply IH.
    + rewrite IH.
      * now rewrite <- app_assoc.
      * apply Forall_app. split; [exact Hv|].
        repeat constructor. exact R.
Qed.

(** [update] ticks every effect and keeps exactly the running ones. *)
Lemma update_filter (l : t) (dt : Q) :
  update l dt = filter running (map (tick dt) l).
Proof. unfold update. now rewrite update_loop_filter. Qed.

Lemma update_one_per_kind (l : t) (dt : Q) :
  one_per_kind l -> one_per_kind (update l dt).
Proof.
  unfold one_per_kind. intros H. rewrite update_filter.
  apply NoDup_map_filter. rewrite map_map. exact H.
Qed.

(** C9. [add_effect], [remove_effect] and [update] keep at most one
    effect per kind.  Adding an effect of a kind already present only
    overwrites the duration of the existing effect (same length, same
    value); adding a new kind appends it.  [update] lowers every
    duration by [dt] and an effect stays exactly when its new duration
    is above 0. *)
Theorem status_effects_one_per_kind :
  (forall l e, one_per_kind l -> one_per_kind (add_effect l e)) /\
  (forall l ty, one_per_kind l -> one_per_kind (remove_effect l ty)) /\
  (forall l dt, one_per_kind l -> one_per_kind (update l dt)) /\
  (forall l e, has_effect l (effect_type e) = true ->
     exists l1 existing l2,
       l = l1 ++ existing :: l2 /\
       effect_type existing = effect_type e /\
       ~ In (effect_type e) (map effect_type l1) /\
       add_effect l e
       = l1 ++ {| effect_type := effect_type existing;
                  duration := duration e;
                  value := value existing;
                  tick_rate := tick_rate existing;
                  last_tick := last_tick existing |} :: l2) /\
  (forall l e, has_effect l (effect_type e) = false ->
     add_effect l e = l ++ [e]) /\
  (forall l dt,
     update l dt
     = filter (fun e => negb (Qle_bool (duration e) 0))
         (map (fun e => {| effect_type := effect_type e;
                           duration := duration e - dt;
                           value := value e;
                           tick_rate := tick_rate e;
                           last_tick := last_tick e |}) l)).
Proof.
  split; [exact add_effect_one_per_kind|].
  split; [exact remove_effect_one_per_kind|].
  split; [exact update_one_per_kind|].
  split; [|split].
  - intros l e H. apply has_effect_In in H. unfold add_effect.
    destruct (refresh l e) as [r|] eqn:R.
    + apply refresh_Some in R. exact R.
    + apply refresh_None in R. contradiction.
  - intros l e H. unfold add_effect.
    destruct (refresh l e) as [r|] eqn:R; [|reflexivity].
    apply refresh_Some in R.
    destruct R as (l1 & ex & l2 & -> & K & _ & _).
    assert (In (effect_type e) (map effect_type (l1 ++ ex :: l2))).
    { rewrite map_app, in_app_iff. right. left. exact K. }
    apply has_effect_In in H0. congruence.
  - intros l dt. apply update_filter.
Qed.

Definition slow_3s : StatusEffect :=
  {| effect_type := SLOW; duration := 3; value := 1 # 2;
     tick_rate := 1; last_tick := 0 |}.
Definition burn_1s : StatusEffect :=
  {| effect_type := BURN; duration := 1; value := 5;
     tick_rate := 1; last_tick := 0 |}.
Definition slow_5s_strong : StatusEffect :=
  {| effect_type := SLOW; duration := 5; value := 9 # 10;
     tick_rate := 1; last_tick := 0 |}.

Lemma status_effects_one_per_kind_witness :
  one_per_kind (add_effect [slow_3s; burn_1s] slow_5s_strong) /\
  one_per_kind (update [slow_3s; burn_1s] 1) /\
  add_effect [slow_3s; burn_1s] slow_5s_strong
  = [ {| effect_type := SLOW; duration := 5; value := 1 # 2;
         tick_rate := 1; last_tick := 0 |}; burn_1s ] /\
  map effect_type (update [slow_3s; burn_1s] 1) = [SLOW].
Proof.
  destruct status_effects_one_per_kind as (A & _ & U & _).
  assert (K : one_per_kind [slow_3s; burn_1s]).
  { unfold one_per_kind. simpl.
    repeat constructor; simpl; intuition discriminate. }
  split; [apply A, K|]. split; [apply U, K|].
  split; reflexivity.
Defined.

End StatusEffectsFacts.

(** ** CombatSystem: dodge and death handling *)

Section CombatFacts.
Import CombatSystem.
Local Open Scope sim_scope.

Ltac run :=
  unfold bind, ret, get_entity, mutate, emit, random, remove_entity,
         raise, hang in *;
  cbn beta iota.

(** C4. When the target's faction tag is "enemy" and the dodge roll is
    below 0.1, [apply_damage] returns 0, leaves the entity store (so the
    target's hp) as it was and emits no event, whatever the damage
    amount, the attacker and the crit flag are. *)
Theorem apply_damage_dodge (w : World) (target_id damage attacker_id : Z)
    (is_crit : bool) (target : Entity) (faction : Faction) :
  EntityManager.get_entity (entity_manager w) target_id = Some target ->
  get_Faction target = Some faction ->
  tag faction = ENEMY ->
  (rolls w (rolls_drawn w) < 1 # 10)%Q ->
  exists w',
    apply_damage target_id damage attacker_id is_crit w = Ok 0 w' /\
    entity_manager w' = entity_manager w /\
    event_queue w' = event_queue w /\
    EntityManager.get_entity (entity_manager w') target_id = Some target.
Proof.
  intros Ht Hf Htag Hroll.
  unfold apply_damage. run. rewrite Ht.
  destruct (get_Health target) as [health|].
  - unfold dodges. rewrite Hf, Htag. run. cbn [FactionType_eqb].
    assert (D : Qltb (rolls w (rolls_drawn w)) (1 # 10) = true).
    { unfold Qltb. apply negb_true_iff.
      destruct (Qle_bool (1 # 10) (rolls w (rolls_drawn w))) eqn:E;
        [|reflexivity].
      apply Qle_bool_iff in E. exfalso. apply (Qlt_not_le _ _ Hroll E). }
    rewrite D. eexists. split; [reflexivity|]. cbn. auto.
  - exists w. auto.
Qed.

Definition goblin : Entity :=
  {| get_Transform := Some {| x := 10; y := 0; dx := 0; dy := 0 |};
     get_Health := Some {| max_hp := 30; hp := 30 |};
     get_Damage := None;
     get_Faction := Some {| tag := ENEMY |};
     get_Weapon := None;
     get_Experience := Some {| level := 2; xp := 0; next_xp := 50;
                               xp_multiplier := 1 |};
     get_Collider := Some {| width := 32; height := 32; solid := true |};
     get_Enemy := Some {| enemy_type := "goblin" |};
     get_StatusEffects := None |}.

Definition sword : Weapon :=
  {| weapon_type := SWORD; attack_delay := 67 # 100; range := 60;
     projectile_speed := 0; reload_time := 0; penetration := 0;
     range_multiplier := None; last_attack_time := 0; ammo := 0 |}.

Definition hero : Entity :=
  {| get_Transform := Some {| x := 0; y := 0; dx := 0; dy := 0 |};
     get_Health := Some {| max_hp := 100; hp := 100 |};
     get_Damage := Some {| base := 15; crit_chance := 0;
                           crit_multiplier := 2; bonus_damage := 0 |};
     get_Faction := Some {| tag := PLAYER |};
     get_Weapon := Some sword;
     get_Experience := Some {| level := 1; xp := 0; next_xp := 50;
                               xp_multiplier := 1 |};
     get_Collider := Some {| width := 32; height := 32; solid := true |};
     get_Enemy := None;
     get_StatusEffects := None |}.

(** A world with the hero (id 0) and the given second entity (id 1);
    every roll of the generator is [roll]. *)
Definition arena (other : Entity) (roll : Q) : World :=
  {| entity_manager :=
       {| EntityManager.entities := [(0, hero); (1, other)];
          EntityManager.next_id := 2 |};
     event_queue := [];
     rolls := fun _ => roll;
     rolls_drawn := 0 |}.

Lemma apply_damage_dodge_witness :
  exists w',
    apply_damage 1 1000 0 true (arena goblin (1 # 20)) = Ok 0 w' /\
    entity_manager w' = entity_manager (arena goblin (1 # 20)) /\
    event_queue w' = [] /\
    EntityManager.get_entity (entity_manager w') 1 = Some goblin.
Proof.
  apply (apply_damage_dodge (arena goblin (1 # 20)) 1 1000 0 true
           goblin {| tag := ENEMY |}); reflexivity.
Defined.

(** *** Death handling *)

Lemma py_int_comp (p q : Q) : (p == q)%Q -> py_int p = py_int q.
Proof.
  intros E. destruct (Qlt_le_dec p 0) as [N|P].
  - assert (Hp : (0 <= - p)%Q) by lra. assert (Hq : (0 <= - q)%Q) by lra.
    pose proof (py_int_opp p) as A. pose proof (py_int_opp q) as B.
    rewrite (py_int_nonneg_floor _ Hp) in A.
    rewrite (py_int_nonneg_floor _ Hq) in B.
    assert (F : Qfloor (- p) = Qfloor (- q)) by (apply Qfloor_comp; lra).
    lia.
  - assert (Hq : (0 <= q)%Q) by lra.
    rewrite (py_int_nonneg_floor _ P), (py_int_nonneg_floor _ Hq).
    now apply Qfloor_comp.
Qed.

Lemma xp_formula_value (enemy_level : Z) :
  (inject_Z 10 * (1 + inject_Z enemy_level * (1 # 10))
   == inject_Z (10 + enemy_level))%Q.
Proof.
  rewrite inject_Z_plus. ring.
Qed.

(** The reward is [floor(10 * (1 + level * 0.1))], tripled for a boss. *)
Lemma xp_reward_formula (enemy_level : Z) (faction : Faction) :
  xp_reward enemy_level faction
  = Qfloor (inject_Z 10 * (1 + inject_Z enemy_level * (1 # 10)))
    * (if FactionType_eqb (tag faction) BOSS then 3 else 1)
  /\ Qfloor (inject_Z 10 * (1 + inject_Z enemy_level * (1 # 10)))
     = 10 + enemy_level.
Proof.
  assert (F : Qfloor (inject_Z 10 * (1 + inject_Z enemy_level * (1 # 10)))
              = 10 + enemy_level).
  { rewrite (Qfloor_comp _ _ (xp_formula_value enemy_level)).
    apply Qfloor_Z. }
  split; [|exact F]. unfold xp_reward. cbv zeta.
  rewrite (py_int_comp _ _ (xp_formula_value enemy_level)), py_int_inject_Z, F.
  destruct (tag faction); cbn [FactionType_eqb]; lia.
Qed.

(** With a positive threshold [add_xp] returns. *)
Lemma add_xp_returns (e : Experience) (amount : Z) :
  1 <= next_xp e ->
  exists b e', add_xp e amount = Some (b, e') /\ 1 <= next_xp e'.
Proof.
  intros Hn. unfold add_xp.
  destruct (Z.lt_ge_cases (xp (credit_xp e amount)) 0) as [Neg|Pos].
  - exists false, (credit_xp e amount). cbn [level_up_loop].
    destruct (Z.geb_spec (xp (credit_xp e amount))
                (next_xp (credit_xp e amount))) as [G|_].
    + cbn [credit_xp next_xp xp] in G, Neg. lia.
    + split; [reflexivity | exact Hn].
  - destruct (level_up_loop_exits (S (Z.to_nat (xp (credit_xp e amount))))
                (credit_xp e amount) false) as (b & e' & R & Hb & _);
      try assumption; try lia.
    exists b, e'. split; [exact R | lia].
Qed.

Lemma lookup_filter_self (entity_id : Z) (l : list (Z * Entity)) :
  EntityManager.lookup entity_id
    (filter (fun p => negb (fst p =? entity_id)) l) = None.
Proof.
  induction l as [|[k e] l IH]; simpl; [reflexivity|].
  destruct (Z.eqb_spec k entity_id); simpl; [exact IH|].
  destruct (Z.eqb_spec k entity_id); [contradiction | exact IH].
Qed.

Lemma lookup_filter_other (entity_id other : Z) (l : list (Z * Entity)) :
  other <> entity_id ->
  EntityManager.lookup other
    (filter (fun p => negb (fst p =? entity_id)) l)
  = EntityManager.lookup other l.
Proof.
  intros N. induction l as [|[k e] l IH]; simpl; [reflexivity|].
  destruct (Z.eqb_spec k entity_id); simpl.
  - destruct (Z.eqb_spec k other); [lia | exact IH].
  - destruct (Z.eqb_spec k other); [reflexivity | exact IH].
Qed.

Lemma lookup_replace_self (entity_id : Z) (f : Entity -> Entity)
    (l : list (Z * Entity)) :
  EntityManager.lookup entity_id (EntityManager.replace entity_id f l)
  = option_map f (EntityManager.lookup entity_id l).
Proof.
  induction l as [|[k e] l IH]; simpl; [reflexivity|].
  destruct (Z.eqb_spec k entity_id) as [E|N]; simpl.
  - destruct (Z.eqb_spec k entity_id); [reflexivity | contradiction].
  - destruct (Z.eqb_spec k entity_id); [contradiction | exact IH].
Qed.

Lemma lookup_replace_other (entity_id other : Z) (f : Entity -> Entity)
    (l : list (Z * Entity)) :
  other <> entity_id ->
  EntityManager.lookup other (EntityManager.replace entity_id f l)
  = EntityManager.lookup other l.
Proof.
  intros N. induction l as [|[k e] l IH]; simpl; [reflexivity|].
  destruct (Z.eqb_spec k entity_id) as [E|N']; simpl.
  - destruct (Z.eqb_spec k other); [lia | reflexivity].
  - destruct (Z.eqb_spec k other); [reflexivity | exact IH].
Qed.

Definition goblin_chief : Entity :=
  {| get_Transform := Some {| x := 10; y := 0; dx := 0; dy := 0 |};
     get_Health := Some {| max_hp := 300; hp := 5 |};
     get_Damage := None;
     get_Faction := Some {| tag := BOSS |};
     get_Weapon := None;
     get_Experience := Some {| level := 5; xp := 0; next_xp := 50;
                               xp_multiplier := 1 |};
     get_Collider := Some {| width := 64; height := 64; solid := true |};
     get_Enemy := Some {| enemy_type := "goblin_chief" |};
     get_StatusEffects := None |}.

(** C8, as stated, fails: a boss whose hp reaches 0 is removed from the
    entity store by the death handling of the combat system. *)
Lemma handle_death_removes_boss :
  exists w',
    apply_damage 1 10 0 false (arena goblin_chief (1 # 2)) = Ok 5 w' /\
    EntityManager.get_entity (entity_manager (arena goblin_chief (1 # 2))) 1
      = Some goblin_chief /\
    EntityManager.get_entity (entity_manager w') 1 = None /\
    event_queue w'
    = [EVENT_DAMAGE_TAKEN 1 5 0 false; EVENT_ENEMY_KILLED 1 0].
Proof.
  eexists. split; [vm_compute; reflexivity|].
  repeat split; reflexivity.
Qed.

(** C8, amended. For a dead entity and a killer that both carry a
    Faction (and a killer whose Experience, if it has one, has
    [next_xp >= 1], so that [add_xp] returns): a dead player only emits
    player-died and stays in the store; a dead neutral entity changes
    nothing; a dead enemy or boss gets enemy-killed emitted and is
    removed from the store, bosses included.  XP is granted before
    that only when the dead entity and the killer both carry
    Experience: the killer then receives
    [floor(10 * (1 + level * 0.1))] XP, [level] being the level of the
    dead entity, tripled for a boss, through [add_xp], with a level-up
    event when that returns true.  When one of the two carries no
    Experience, no XP is granted, no level-up event is emitted and the
    killer is left as it was. *)
Theorem handle_death_effects (w : World) (entity_id killer_id : Z)
    (entity killer : Entity) (faction killer_faction : Faction) :
  EntityManager.get_entity (entity_manager w) entity_id = Some entity ->
  EntityManager.get_entity (entity_manager w) killer_id = Some killer ->
  get_Faction entity = Some faction ->
  get_Faction killer = Some killer_faction ->
  (forall ke, get_Experience killer = Some ke -> 1 <= next_xp ke) ->
  exists w',
    handle_death entity_id killer_id w = Ok tt w' /\
    match tag faction with
    | PLAYER =>
        event_queue w' = event_queue w ++ [EVENT_PLAYER_DIED entity_id] /\
        entity_manager w' = entity_manager w
    | NEUTRAL => w' = w
    | ENEMY | BOSS =>
        EntityManager.get_entity (entity_manager w') entity_id = None /\
        match get_Experience entity, get_Experience killer with
        | Some exp, Some killer_exp =>
            let xp_amount :=
              Qfloor (inject_Z 10 * (1 + inject_Z (level exp) * (1 # 10)))
              * (if FactionType_eqb (tag faction) BOSS then 3 else 1) in
            exists leveled_up killer_exp',
              add_xp killer_exp xp_amount = Some (leveled_up, killer_exp') /\
              event_queue w'
              = event_queue w
                ++ (if leveled_up
                    then [EVENT_LEVEL_UP killer_id (level killer_exp')]
                    else [])
                ++ [EVENT_ENEMY_KILLED entity_id killer_id] /\
              (killer_id <> entity_id ->
               EntityManager.get_entity (entity_manager w') killer_id
               = Some (set_Experience killer killer_exp'))
        | _, _ =>
            event_queue w'
            = event_queue w ++ [EVENT_ENEMY_KILLED entity_id killer_id] /\
            (killer_id <> entity_id ->
             EntityManager.get_entity (entity_manager w') killer_id
             = Some killer)
        end
    end.
Proof.
  intros He Hk Hf Hkf Hexp.
  unfold handle_death. run. rewrite He, Hk, Hf, Hkf.
  assert (Removed : forall em,
    EntityManager.get_entity (EntityManager.remove_entity em entity_id)
      entity_id = None).
  { intros em. apply lookup_filter_self. }
  assert (Kept : forall em, killer_id <> entity_id ->
    EntityManager.get_entity (EntityManager.remove_entity em entity_id)
      killer_id = EntityManager.get_entity em killer_id).
  { intros em N. now apply lookup_filter_other. }
  assert (Dead :
    exists w',
      grant_xp killer_id entity killer faction w = Ok tt w' /\
      match get_Experience entity, get_Experience killer with
      | Some exp, Some killer_exp =>
          exists leveled_up killer_exp',
            add_xp killer_exp
              (Qfloor (inject_Z 10 * (1 + inject_Z (level exp) * (1 # 10)))
               * (if FactionType_eqb (tag faction) BOSS then 3 else 1))
            = Some (leveled_up, killer_exp') /\
            event_queue w'
            = event_queue w
              ++ (if leveled_up
                  then [EVENT_LEVEL_UP killer_id (level killer_exp')]
                  else []) /\
            EntityManager.get_entity (entity_manager w') killer_id
            = Some (set_Experience killer killer_exp')
      | _, _ => w' = w
      end).
  { unfold grant_xp.
    destruct (get_Experience entity) as [exp|];
      [|exists w; split; reflexivity].
    destruct (get_Experience killer) as [killer_exp|] eqn:KE;
      [|exists w; split; reflexivity].
    destruct (xp_reward_formula (level exp) faction) as [Rw _].
    rewrite <- Rw.
    destruct (add_xp_returns killer_exp (xp_reward (level exp) faction))
      as (b & ke' & A & _); [now apply Hexp|].
    unfold add_xp_to. rewrite A. run. cbn [fst snd].
    assert (L : EntityManager.get_entity
                  (EntityManager.mutate (entity_manager w) killer_id
                     (fun k => set_Experience k ke')) killer_id
                = Some (set_Experience killer ke')).
    { unfold EntityManager.get_entity, EntityManager.mutate.
      cbn [EntityManager.entities]. rewrite lookup_replace_self.
      unfold EntityManager.get_entity in Hk. now rewrite Hk. }
    destruct b.
    - eexists. split; [reflexivity|].
      cbn [event_queue entity_manager set_entity_manager].
      exists true, ke'. split; [reflexivity|]. split; [reflexivity|].
      exact L.
    - eexists. split; [reflexivity|].
      cbn [event_queue entity_manager set_entity_manager].
      exists false, ke'. split; [reflexivity|]. rewrite app_nil_r.
      split; [reflexivity|]. exact L. }
  destruct Dead as (w1 & R & P).
  destruct (tag faction) eqn:T.
  - eexists. split; [reflexivity|]. cbn. auto.
  - rewrite R. eexists. split; [reflexivity|].
    cbn [entity_manager event_queue set_entity_manager].
    split; [apply Removed|].
    destruct (get_Experience entity) as [exp|];
      [destruct (get_Experience killer) as [killer_exp|]|].
    + destruct P as (b & ke' & A & Q1 & Q2). exists b, ke'.
      split; [exact A|]. split.
      * rewrite Q1. now rewrite <- app_assoc.
      * intros N. rewrite Kept by exact N. exact Q2.
    + subst w1. split; [reflexivity|]. intros N. now rewrite Kept.
    + subst w1. split; [reflexivity|]. intros N. now rewrite Kept.
  - rewrite R. eexists. split; [reflexivity|].
    cbn [entity_manager event_queue set_entity_manager].
    split; [apply Removed|].
    destruct (get_Experience entity) as [exp|];
      [destruct (get_Experience killer) as [killer_exp|]|].
    + destruct P as (b & ke' & A & Q1 & Q2). exists b, ke'.
      split; [exact A|]. split.
      * rewrite Q1. now rewrite <- app_assoc.
      * intros N. rewrite Kept by exact N. exact Q2.
    + subst w1. split; [reflexivity|]. intros N. now rewrite Kept.
    + subst w1. split; [reflexivity|]. intros N. now rewrite Kept.
  - exists w. split; reflexivity.
Qed.

Lemma handle_death_effects_witness :
  exists w',
    handle_death 1 0 (arena goblin (1 # 2)) = Ok tt w' /\
    EntityManager.get_entity (entity_manager w') 1 = None /\
    event_queue w' = [EVENT_ENEMY_KILLED 1 0] /\
    option_map get_Experience
      (EntityManager.get_entity (entity_manager w') 0)
    = Some (Some {| level := 1; xp := 12; next_xp := 50;
                    xp_multiplier := 1 |}).
Proof.
  destruct (handle_death_effects (arena goblin (1 # 2)) 1 0 goblin hero
              {| tag := ENEMY |} {| tag := PLAYER |}
              eq_refl eq_refl eq_refl eq_refl) as (w' & R & Gone & P).
  { intros ke [= <-]. simpl. lia. }
  exists w'. split; [exact R|]. split; [exact Gone|].
  cbn [goblin hero get_Experience] in P.
  destruct P as (b & ke' & A & Ev & K).
  vm_compute in A. injection A as <- <-.
  split; [exact Ev|]. rewrite K by discriminate. reflexivity.
Defined.

End CombatFacts.

(** ** CombatSystem.perform_attack *)

Section AttackFacts.
Import CombatSystem.
Local Open Scope sim_scope.

Ltac run :=
  unfold bind, ret, get_entity, mutate, emit, random, remove_entity,
         raise, hang in *;
  cbn beta iota.

Abbreviation store := (list (Z * Entity)).
Abbreviation lookup := EntityManager.lookup.

(** The entity dictionary of a world. *)
Definition ents (w : World) : store :=
  EntityManager.entities (entity_manager w).

Definition keys (l : store) : list Z := map fst l.

(** Equal on every component but Health and Experience. *)
Definition same_body (e e' : Entity) : Prop :=
  get_Transform e' = get_Transform e /\
  get_Damage e' = get_Damage e /\
  get_Faction e' = get_Faction e /\
  get_Weapon e' = get_Weapon e /\
  get_Collider e' = get_Collider e /\
  get_Enemy e' = get_Enemy e /\
  get_StatusEffects e' = get_StatusEffects e.

Lemma same_body_refl e : same_body e e.
Proof. repeat split. Qed.

Lemma same_body_trans e1 e2 e3 :
  same_body e1 e2 -> same_body e2 e3 -> same_body e1 e3.
Proof.
  unfold same_body. intros (A1 & A2 & A3 & A4 & A5 & A6 & A7)
    (B1 & B2 & B3 & B4 & B5 & B6 & B7).
  repeat split; congruence.
Qed.

Section Evolution.
(** One attack mutates the store only through these three operations,
    where [ok] singles out the entities the attack may damage. *)
Variable attacker_id : Z.
Variable ok : Z -> Prop.

Inductive step : store -> store -> Prop :=
| step_health id h l :
    ok id -> id <> attacker_id ->
    step l (EntityManager.replace id (fun t => set_Health t h) l)
| step_exp ke l :
    1 <= next_xp ke ->
    step l (EntityManager.replace attacker_id
              (fun k => set_Experience k ke) l)
| step_remove id l :
    ok id -> id <> attacker_id ->
    step l (filter (fun p => negb (fst p =? id)) l).

Inductive evolves : store -> store -> Prop :=
| evolves_refl l : evolves l l
| evolves_step l1 l2 l3 : evolves l1 l2 -> step l2 l3 -> evolves l1 l3.

Lemma evolves_trans l1 l2 l3 :
  evolves l1 l2 -> evolves l2 l3 -> evolves l1 l3.
Proof.
  intros H12 H23. induction H23 as [|l2 l3 l4 _ IH S]; [exact H12|].
  eapply evolves_step; [apply IH, H12 | exact S].
Qed.

Lemma evolves_one l1 l2 : step l1 l2 -> evolves l1 l2.
Proof. intros S. eapply evolves_step; [apply evolves_refl | exact S]. Qed.

(** How the entry of one id may differ between two stores. *)
Definition entry_rel (id : Z) (o o' : option Entity) : Prop :=
  match o, o' with
  | None, None => True
  | None, Some _ => False
  | Some e, None => ok id /\ id <> attacker_id
  | Some e, Some e' =>
      same_body e e' /\
      (get_Health e' = get_Health e \/ (ok id /\ id <> attacker_id)) /\
      (get_Experience e' = get_Experience e \/ id = attacker_id)
  end.

Lemma entry_rel_refl id o : entry_rel id o o.
Proof.
  destruct o as [e|]; simpl; [|exact I].
  split; [apply same_body_refl|]. split; now left.
Qed.

Lemma entry_rel_trans id o1 o2 o3 :
  entry_rel id o1 o2 -> entry_rel id o2 o3 -> entry_rel id o1 o3.
Proof.
  destruct o1 as [e1|], o2 as [e2|], o3 as [e3|]; simpl; try tauto.
  intros (B1 & H1 & X1) (B2 & H2 & X2).
  split; [eapply same_body_trans; eassumption|]. split.
  - destruct H1 as [H1|H1]; [|now right].
    destruct H2 as [H2|H2]; [left; congruence | now right].
  - destruct X1 as [X1|X1]; [|now right].
    destruct X2 as [X2|X2]; [left; congruence | now right].
Qed.

Lemma step_entry_rel l l' :
  step l l' -> forall id, entry_rel id (lookup id l) (lookup id l').
Proof.
  intros S id. destruct S as [id0 h l Hok Hne | ke l Hke | id0 l Hok Hne].
  - destruct (Z.eq_dec id id0) as [->|N].
    + rewrite lookup_replace_self.
      destruct (lookup id0 l) as [e|]; simpl; [|exact I].
      split; [repeat split|]. split; [now right | now left].
    + rewrite lookup_replace_other by exact N. apply entry_rel_refl.
  - destruct (Z.eq_dec id attacker_id) as [->|N].
    + rewrite lookup_replace_self.
      destruct (lookup attacker_id l) as [e|]; simpl; [|exact I].
      split; [repeat split|]. split; [now left | now right].
    + rewrite lookup_replace_other by exact N. apply entry_rel_refl.
  - destruct (Z.eq_dec id id0) as [->|N].
    + rewrite lookup_filter_self.
      destruct (lookup id0 l) as [e|]; simpl; [now split | exact I].
    + rewrite lookup_filter_other by exact N. apply entry_rel_refl.
Qed.

Lemma evolves_entry_rel l l' :
  evolves l l' -> forall id, entry_rel id (lookup id l) (lookup id l').
Proof.
  induction 1 as [l | l1 l2 l3 _ IH S]; intros id.
  - apply entry_rel_refl.
  - eapply entry_rel_trans; [apply IH | now apply step_entry_rel].
Qed.

(** The level-up loop of the attacker cannot spin. *)
Definition exp_ok (l : store) : Prop :=
  forall att ke, lookup attacker_id l = Some att ->
                 get_Experience att = Some ke -> 1 <= next_xp ke.

Lemma step_exp_ok l l' : step l l' -> exp_ok l -> exp_ok l'.
Proof.
  intros S H att ke.
  destruct S as [id0 h l Hok Hne | ke0 l Hke | id0 l Hok Hne].
  - rewrite lookup_replace_other by congruence. apply H.
  - rewrite lookup_replace_self.
    destruct (lookup attacker_id l) as [e|]; simpl; [|discriminate].
    intros [= <-]. simpl. intros [= <-]. exact Hke.
  - rewrite lookup_filter_other by congruence. apply H.
Qed.

Lemma evolves_exp_ok l l' : evolves l l' -> exp_ok l -> exp_ok l'.
Proof.
  induction 1 as [l | l1 l2 l3 _ IH S]; intros H; [exact H|].
  eapply step_exp_ok; [exact S | now apply IH].
Qed.

Lemma keys_replace id f (l : store) :
  keys (EntityManager.replace id f l) = keys l.
Proof.
  induction l as [|[k e] l IH]; simpl; [reflexivity|].
  destruct (k =? id); simpl; [reflexivity | now rewrite IH].
Qed.

Lemma step_NoDup l l' : step l l' -> NoDup (keys l) -> NoDup (keys l').
Proof.
  intros S H. destruct S.
  - now rewrite keys_replace.
  - now rewrite keys_replace.
  - now apply NoDup_map_filter.
Qed.

Lemma evolves_NoDup l l' : evolves l l' -> NoDup (keys l) -> NoDup (keys l').
Proof.
  induction 1 as [l | l1 l2 l3 _ IH S]; intros H; [exact H|].
  eapply step_NoDup; [exact S | now apply IH].
Qed.


Lemma grant_xp_evolves w entity killer faction :
  lookup attacker_id (ents w) = Some killer ->
  exp_ok (ents w) ->
  exists w',
    grant_xp attacker_id entity killer faction w = Ok tt w' /\
    evolves (ents w) (ents w').
Proof.
  intros Hk Hexp. unfold grant_xp.
  destruct (get_Experience entity) as [exp|];
    [|exists w; split; [reflexivity | apply evolves_refl]].
  destruct (get_Experience killer) as [killer_exp|] eqn:KE;
    [|exists w; split; [reflexivity | apply evolves_refl]].
  destruct (add_xp_returns killer_exp (xp_reward (level exp) faction))
    as (b & ke' & A & Hn); [now apply (Hexp killer)|].
  unfold add_xp_to. rewrite A. run. cbn [fst snd].
  destruct b; eexists; (split; [reflexivity|]);
    unfold ents; cbn [entity_manager set_entity_manager];
    apply evolves_one; now apply step_exp.
Qed.

Lemma handle_death_evolves w entity_id :
  ok entity_id -> entity_id <> attacker_id ->
  exp_ok (ents w) ->
  exists w',
    handle_death entity_id attacker_id w = Ok tt w' /\
    evolves (ents w) (ents w').
Proof.
  intros Hok Hne Hexp. unfold handle_death. run.
  change (EntityManager.get_entity (entity_manager w) entity_id)
    with (lookup entity_id (ents w)).
  change (EntityManager.get_entity (entity_manager w) attacker_id)
    with (lookup attacker_id (ents w)).
  destruct (lookup entity_id (ents w)) as [entity|];
    [|exists w; split; [reflexivity | apply evolves_refl]].
  destruct (lookup attacker_id (ents w)) as [killer|] eqn:Hk;
    [|exists w; split; [reflexivity | apply evolves_refl]].
  destruct (get_Faction entity) as [faction|];
    [|exists w; split; [reflexivity | apply evolves_refl]].
  destruct (get_Faction killer) as [kf|];
    [|exists w; split; [reflexivity | apply evolves_refl]].
  destruct (grant_xp_evolves w entity killer faction Hk Hexp)
    as (w1 & R & E1).
  destruct (tag faction).
  - eexists. split; [reflexivity|]. apply evolves_refl.
  - rewrite R. eexists. split; [reflexivity|].
    eapply evolves_step; [exact E1|].
    unfold ents at 2. cbn [entity_manager set_entity_manager].
    now apply step_remove.
  - rewrite R. eexists. split; [reflexivity|].
    eapply evolves_step; [exact E1|].
    unfold ents at 2. cbn [entity_manager set_entity_manager].
    now apply step_remove.
  - exists w. split; [reflexivity | apply evolves_refl].
Qed.

Lemma dodges_returns target w :
  exists b w', dodges target w = Ok b w' /\ ents w' = ents w.
Proof.
  unfold dodges. destruct (get_Faction target) as [f|];
    [|exists false, w; split; reflexivity].
  destruct (FactionType_eqb (tag f) ENEMY);
    [|exists false, w; split; reflexivity].
  run. eexists _, _. split; reflexivity.
Qed.

(** [apply_damage] on an entity the attack may damage returns, and
    changes the store only through the three operations. *)
Lemma apply_damage_evolves w target_id damage is_crit :
  ok target_id -> target_id <> attacker_id ->
  exp_ok (ents w) ->
  exists a w',
    apply_damage target_id damage attacker_id is_crit w = Ok a w' /\
    evolves (ents w) (ents w').
Proof.
  intros Hok Hne Hexp. unfold apply_damage. run.
  destruct (EntityManager.get_entity (entity_manager w) target_id)
    as [target|]; [|exists 0, w; split; [reflexivity | apply evolves_refl]].
  destruct (get_Health target) as [health|];
    [|exists 0, w; split; [reflexivity | apply evolves_refl]].
  destruct (dodges_returns target w) as (b & w1 & D & E1). rewrite D.
  destruct b.
  { exists 0, w1. split; [reflexivity|]. rewrite E1. apply evolves_refl. }
  destruct (take_damage health damage) as [actual h'] eqn:TD.
  assert (S2 : evolves (ents w)
                 (EntityManager.replace target_id
                    (fun t => set_Health t h') (ents w1))).
  { rewrite E1. apply evolves_one. now apply step_health. }
  destruct (actual >? 0); [|eexists _, _; split; [reflexivity | exact S2]].
  destruct (negb (is_alive h'));
    [|eexists _, _; split; [reflexivity | exact S2]].
  match goal with
  | |- context [handle_death target_id attacker_id ?w3] =>
      destruct (handle_death_evolves w3 target_id Hok Hne) as (w4 & R & E4)
  end.
  { unfold ents; cbn [entity_manager set_entity_manager].
    eapply evolves_exp_ok; [exact S2 | exact Hexp]. }
  rewrite R. eexists _, _. split; [reflexivity|].
  eapply evolves_trans; [exact S2 | exact E4].
Qed.

End Evolution.

Lemma nth_error_lookup (l : store) :
  NoDup (keys l) ->
  forall i id e, nth_error l i = Some (id, e) -> lookup id l = Some e.
Proof.
  induction l as [|[k e0] l IH]; intros ND i id e H.
  - destruct i; discriminate.
  - inversion ND as [|? ? Hn Hd]; subst. destruct i as [|i]; simpl in *.
    + injection H as -> ->. now rewrite Z.eqb_refl.
    + destruct (Z.eqb_spec k id) as [->|N].
      * exfalso. apply Hn. apply nth_error_In in H.
        change id with (fst (id, e)). now apply in_map.
      * eapply IH; eassumption.
Qed.

Section Loop.
Variable attacker_id : Z.
Variable weapon : Weapon.
Variable damage_comp : Damage.
Variable attacker_faction : Faction.
Variable target_pos : Q * Q.
Variable range_sq : Q.
(** The store when the loop starts. *)
Variable l0 : store.

(** The entities the loop may damage: hostile to the attacker and
    within range of the target point. *)
Definition targetable (id : Z) : Prop :=
  id <> attacker_id /\
  exists e0 f t,
    lookup id l0 = Some e0 /\
    get_Faction e0 = Some f /\
    get_Transform e0 = Some t /\
    is_enemy_of attacker_faction f = true /\
    in_range t target_pos range_sq = true.

Let step_fn :=
  attack_step attacker_id weapon damage_comp attacker_faction
    target_pos range_sq.

Let evolved := evolves attacker_id targetable l0.

Hypothesis l0_exp_ok : exp_ok attacker_id l0.

Lemma attack_step_evolves w id e hits :
  evolved (ents w) ->
  lookup id (ents w) = Some e ->
  exists fl hits' w',
    step_fn id e hits w = Ok (fl, hits') w' /\
    evolved (ents w') /\
    (hits' = hits \/ (hits' = hits ++ [id] /\ targetable id)) /\
    (fl = Break ->
     0 < penetration weapon /\
     penetration weapon + 1 <= Z.of_nat (length hits')) /\
    (fl = Continue -> 0 < penetration weapon ->
     Z.of_nat (length hits) < penetration weapon + 1 ->
     Z.of_nat (length hits') < penetration weapon + 1).
Proof.
  intros Ev Hl. unfold step_fn, attack_step.
  assert (Skip : exists fl hits' w',
             Ok (Continue, hits) w = Ok (fl, hits') w' /\
             evolved (ents w') /\
             (hits' = hits \/ (hits' = hits ++ [id] /\ targetable id)) /\
             (fl = Break ->
              0 < penetration weapon /\
              penetration weapon + 1 <= Z.of_nat (length hits')) /\
             (fl = Continue -> 0 < penetration weapon ->
              Z.of_nat (length hits) < penetration weapon + 1 ->
              Z.of_nat (length hits') < penetration weapon + 1)).
  { exists Continue, hits, w. split; [reflexivity|]. split; [exact Ev|].
    split; [now left|]. split; [discriminate | auto]. }
  destruct (Z.eqb_spec id attacker_id) as [E|Hne]; [exact Skip|].
  destruct (get_Faction e) as [tf|] eqn:HF; [|exact Skip].
  destruct (get_Transform e) as [tt|] eqn:HT; [|exact Skip].
  destruct (get_Health e) as [th|] eqn:HH; [|exact Skip].
  destruct (is_enemy_of attacker_faction tf) eqn:HE; [|exact Skip].
  destruct (in_range tt target_pos range_sq) eqn:HR; [|exact Skip].
  cbn [negb]. clear Skip.
  assert (Tg : targetable id).
  { pose proof (evolves_entry_rel _ _ _ _ Ev id) as Rel.
    rewrite Hl in Rel.
    destruct (lookup id l0) as [e0|] eqn:L0; [|contradiction].
    destruct Rel as ((BT & _ & BF & _) & _).
    split; [exact Hne|].
    exists e0, tf, tt. repeat split; congruence. }
  run.
  destruct (calculate_damage damage_comp None (rolls w (rolls_drawn w)))
    as [damage is_crit].
  match goal with
  | |- context [apply_damage id damage attacker_id is_crit ?w1] =>
      destruct (apply_damage_evolves attacker_id targetable w1 id damage
                  is_crit Tg Hne) as (a & w2 & R & E2)
  end.
  { unfold ents; cbn [entity_manager].
    eapply evolves_exp_ok; [exact Ev | exact l0_exp_ok]. }
  rewrite R.
  assert (Ev2 : evolved (ents w2)).
  { eapply evolves_trans; [exact Ev | exact E2]. }
  set (hits' := if a >? 0 then hits ++ [id] else hits).
  assert (Hh : hits' = hits \/ (hits' = hits ++ [id] /\ targetable id)).
  { subst hits'. destruct (a >? 0); [right; now split | now left]. }
  destruct (Z.gtb_spec (penetration weapon) 0) as [P|P]; cbn [andb].
  - destruct (Z.geb_spec (Z.of_nat (length hits'))
                (penetration weapon + 1)) as [G|G].
    + exists Break, hits', w2. split; [reflexivity|].
      split; [exact Ev2|]. split; [exact Hh|].
      split; [intros _; split; lia | discriminate].
    + exists Continue, hits', w2. split; [reflexivity|].
      split; [exact Ev2|]. split; [exact Hh|].
      split; [discriminate | intros _ _ _; lia].
  - exists Continue, hits', w2. split; [reflexivity|].
    split; [exact Ev2|]. split; [exact Hh|].
    split; [discriminate | intros _ L; lia].
Qed.

Hypothesis l0_NoDup : NoDup (keys l0).

Definition size_changed : exn :=
  RuntimeError "dictionary changed size during iteration".


End Loop.


End AttackFacts.

(** ** CombatSystem.perform_attack: the claim *)

Section AttackClaim.
Import CombatSystem.
Local Open Scope sim_scope.

Ltac run :=
  unfold bind, ret, get_entity, mutate, emit, random, remove_entity,
         raise, hang in *;
  cbn beta iota.

Abbreviation store := (list (Z * Entity)).
Abbreviation lookup := EntityManager.lookup.


Lemma filter_all {A} (l : list A) : filter (fun _ => true) l = l.
Proof. induction l as [|a l IH]; cbn; [reflexivity | now rewrite IH]. Qed.

Lemma filter_twice {A} (p q : A -> bool) (l : list A) :
  filter q (filter p l) = filter (fun a => p a && q a) l.
Proof.
  induction l as [|a l IH]; cbn [filter]; [reflexivity|].
  destruct (p a); cbn [filter andb]; [|exact IH].
  destruct (q a); now rewrite IH.
Qed.

Lemma filter_keeps_length {A} (p : A -> bool) (l : list A) :
  length (filter p l) = length l -> filter p l = l.
Proof.
  induction l as [|a l IH]; cbn [filter]; [reflexivity|].
  destruct (p a); cbn [length]; intros H.
  - f_equal. apply IH. lia.
  - pose proof (filter_length_le p l). lia.
Qed.

Lemma keys_remove (id : Z) (l : list (Z * Entity)) :
  keys (filter (fun p => negb (fst p =? id)) l)
  = filter (fun k => negb (k =? id)) (keys l).
Proof.
  unfold keys. induction l as [|[k e] l IH]; cbn [filter map fst];
    [reflexivity|].
  destruct (k =? id); cbn [negb map fst]; [exact IH | now rewrite IH].
Qed.

(** An attack only ever drops keys from the store. *)
Lemma evolves_keys attacker_id ok (l l' : list (Z * Entity)) :
  evolves attacker_id ok l l' ->
  exists p, keys l' = filter p (keys l).
Proof.
  induction 1 as [l | l1 l2 l3 _ (p & IH) S].
  - exists (fun _ => true). now rewrite filter_all.
  - destruct S as [id h l Hok Hne | ke l Hke | id l Hok Hne].
    + exists p. now rewrite keys_replace.
    + exists p. now rewrite keys_replace.
    + exists (fun k => p k && negb (k =? id)).
      now rewrite keys_remove, IH, filter_twice.
Qed.

Lemma evolves_length attacker_id ok (l l' : list (Z * Entity)) :
  evolves attacker_id ok l l' ->
  (length l' <= length l)%nat /\
  (length l' = length l -> keys l' = keys l).
Proof.
  intros Ev. destruct (evolves_keys _ _ _ _ Ev) as (p & K).
  assert (A : length l' = length (keys l')) by (unfold keys; now rewrite length_map).
  assert (B : length l = length (keys l)) by (unfold keys; now rewrite length_map).
  rewrite A, B, K. split; [apply filter_length_le|].
  apply filter_keeps_length.
Qed.


(** The store once the weapon of the attacker is stamped. *)
Definition stamp_weapon (w : World) (attacker_id : Z) (stamped : Weapon)
  : World :=
  set_entity_manager w
    (EntityManager.mutate (entity_manager w) attacker_id
       (fun a => set_Weapon a stamped)).

(** A ready attacker: [perform_attack] stamps the weapon and runs the
    loop over the store. *)
Lemma perform_attack_ready (w : World) (attacker_id : Z)
    (target_pos : Q * Q) (now : Q) (attacker : Entity) (weapon : Weapon)
    (damage_comp : Damage) (faction : Faction) (transform : Transform) :
  NoDup (keys (ents w)) ->
  EntityManager.lookup attacker_id (ents w) = Some attacker ->
  get_Weapon attacker = Some weapon ->
  get_Damage attacker = Some damage_comp ->
  get_Faction attacker = Some faction ->
  get_Transform attacker = Some transform ->
  (forall ke, get_Experience attacker = Some ke -> 1 <= next_xp ke) ->
  can_attack weapon now = true ->
  let stamped := set_last_attack_time weapon now in
  let range_sq :=
    (get_effective_range stamped * get_effective_range stamped)%Q in
  let w0 := stamp_weapon w attacker_id stamped in
  perform_attack attacker_id target_pos now w
  = attack_loop
      (attack_step attacker_id stamped damage_comp faction target_pos
         range_sq)
      (length (ents w0)) (seq 0 (length (ents w0))) [] w0 /\
  EntityManager.lookup attacker_id (ents w0)
  = Some (set_Weapon attacker stamped) /\
  exp_ok attacker_id (ents w0) /\
  NoDup (keys (ents w0)) /\
  keys (ents w0) = keys (ents w).
Proof.
  intros ND Ha HW HD HF HT Hexp C stamped range_sq w0.
  assert (L0a : EntityManager.lookup attacker_id (ents w0)
                = Some (set_Weapon attacker stamped)).
  { unfold w0, stamp_weapon, ents. cbn [entity_manager set_entity_manager].
    unfold EntityManager.mutate. cbn [EntityManager.entities].
    rewrite lookup_replace_self. fold (ents w). now rewrite Ha. }
  assert (K0 : keys (ents w0) = keys (ents w)).
  { unfold w0, stamp_weapon, ents. cbn [entity_manager set_entity_manager].
    unfold EntityManager.mutate. cbn [EntityManager.entities].
    apply keys_replace. }
  split; [|split; [exact L0a|split; [|split; [|exact K0]]]].
  - unfold perform_attack. run.
    change (EntityManager.get_entity (entity_manager w) attacker_id)
      with (EntityManager.lookup attacker_id (ents w)).
    rewrite Ha, HW, HD, HF, HT, C. reflexivity.
  - intros att ke. rewrite L0a. intros [= <-]. simpl. apply Hexp.
  - now rewrite K0.
Qed.



Section Snapshot.
Variable attacker_id : Z.
Variable weapon : Weapon.
Variable damage_comp : Damage.
Variable attacker_faction : Faction.
Variable target_pos : Q * Q.
Variable range_sq : Q.

(** The loop of [perform_attack] read as two passes: the guards of
    its body ([continue] for the attacker, for an entity without
    Faction, Transform or Health, for one that is no enemy or is out
    of range) select the candidates; the rest of the body deals the
    blow.  [attack_loop_strikes] below shows that the loop over the
    live dictionary is this iteration. *)




Let step_fn :=
  attack_step attacker_id weapon damage_comp attacker_faction
    target_pos range_sq.






End Snapshot.














(** The sword blow of the scenario: the goblin at the target point loses
    15 hp and is reported as hit. *)
Example perform_attack_hits_goblin :
  exists w',
    perform_attack 0 (10%Q, 0%Q) 1 (arena goblin (1 # 2)) = Ok [1] w' /\
    option_map get_Health (lookup 1 (ents w'))
    = Some (Some {| max_hp := 30; hp := 15 |}) /\
    event_queue w' = [EVENT_DAMAGE_TAKEN 1 15 0 false].
Proof.
  eexists. split; [vm_compute; reflexivity|]. split; reflexivity.
Qed.

(** A blow that kills removes the target while the dictionary is being
    iterated: the loop raises on its next advance. *)
Example perform_attack_kill_raises :
  exists w',
    perform_attack 0 (10%Q, 0%Q) 1 (arena goblin_chief (1 # 2))
    = Raise (RuntimeError "dictionary changed size during iteration") w' /\
    lookup 1 (ents w') = None /\
    option_map get_Weapon (lookup 0 (ents w'))
    = Some (Some (set_last_attack_time sword 1)).
Proof.
  eexists. split; [vm_compute; reflexivity|]. split; reflexivity.
Qed.

End AttackClaim.

(** ** HitboxManager: frame windows *)

Section HitboxFacts.
Import HitboxManager.

Lemma Qeq_bool_refl' (q : Q) : Qeq_bool q q = true.
Proof. apply Qeq_bool_iff. reflexivity. Qed.

Lemma hitbox_eqb_refl (h : Hitbox) : hitbox_eqb h h = true.
Proof.
  unfold hitbox_eqb. rewrite !Z.eqb_refl, !andb_true_r.
  destruct (shape h) as [[c1 c2] r s g | [s1 s2] [e1 e2] w];
    unfold shape_eqb, pair_eqb; simpl; now rewrite !Qeq_bool_refl'.
Qed.

Lemma hitbox_eqb_expired (a b : Hitbox) :
  hitbox_eqb a b = true -> expired a = expired b.
Proof.
  unfold hitbox_eqb, expired. intros H.
  repeat (apply andb_prop in H; destruct H as [H ?]).
  repeat match goal with
         | E : (_ =? _) = true |- _ => apply Z.eqb_eq in E
         end.
  congruence.
Qed.

(** Removing expired hitboxes leaves a leading live hitbox in place. *)
Lemma remove_all_live_head (a : Hitbox) (gone : list Hitbox) :
  expired a = false ->
  Forall (fun h => expired h = true) gone ->
  forall l, remove_all gone (a :: l)
            = option_map (cons a) (remove_all gone l).
Proof.
  intros Ha. induction 1 as [|h gone Hh _ IH]; intros l; [reflexivity|].
  cbn [remove_all list_remove].
  destruct (hitbox_eqb a h) eqn:E.
  { apply hitbox_eqb_expired in E. congruence. }
  destruct (list_remove h l) as [l'|]; [apply IH | reflexivity].
Qed.

Lemma remove_all_expired (l : list Hitbox) :
  remove_all (filter expired l) l
  = Some (filter (fun h => negb (expired h)) l).
Proof.
  induction l as [|a l IH]; [reflexivity|].
  cbn [filter]. destruct (expired a) eqn:Ea; cbn [negb].
  - cbn [remove_all list_remove]. now rewrite hitbox_eqb_refl.
  - rewrite remove_all_live_head; trivial.
    + now rewrite IH.
    + apply Forall_forall. intros h Hh. now apply filter_In in Hh.
Qed.

(** [update] never raises: it advances the counter, stamps every hitbox
    and keeps exactly those that are not expired. *)
Lemma update_purges (m : t) :
  update m
  = Some {| active_hitboxes :=
              filter (fun h => negb (expired h))
                (map (stamp (frame_counter m + 1)) (active_hitboxes m));
            frame_counter := frame_counter m + 1 |}.
Proof. unfold update. cbv zeta. now rewrite remove_all_expired. Qed.

(** The manager states the program can build. *)
Inductive reachable : t -> Prop :=
| reach_init : reachable init
| reach_arc m center radius start_angle arc_angle start_frame end_frame :
    reachable m ->
    reachable (add_arc_hitbox m center radius start_angle arc_angle
                 start_frame end_frame)
| reach_line m start end_ width start_frame end_frame :
    reachable m ->
    reachable (add_line_hitbox m start end_ width start_frame end_frame)
| reach_update m m' : reachable m -> update m = Some m' -> reachable m'
| reach_clear m : reachable m -> reachable (clear m).

(** The counter never goes below 0, and a hitbox carries the counter of
    the last update, or 0 when it was added after it. *)
Lemma reachable_frames (m : t) :
  reachable m ->
  0 <= frame_counter m /\
  forall h, In h (active_hitboxes m) ->
            current_frame h = 0 \/ current_frame h = frame_counter m.
Proof.
  induction 1 as [| m c r s g sf ef _ [IH1 IH2] | m s e w sf ef _ [IH1 IH2]
                  | m m' _ [IH1 IH2] U | m _ _].
  - split; [simpl; lia | intros h []].
  - split; [exact IH1|]. intros h Hh. cbn in Hh.
    apply in_app_iff in Hh. destruct Hh as [Hh|[<-|[]]];
      [now apply IH2 | now left].
  - split; [exact IH1|]. intros h Hh. cbn in Hh.
    apply in_app_iff in Hh. destruct Hh as [Hh|[<-|[]]];
      [now apply IH2 | now left].
  - rewrite update_purges in U. injection U as <-. cbn.
    split; [lia|]. intros h Hh. apply filter_In in Hh.
    destruct Hh as [Hh _]. apply in_map_iff in Hh.
    destruct Hh as (h0 & <- & _). now right.
  - split; [simpl; lia | intros h []].
Qed.

Section Geometry.
Variable check_entity : Shape -> Transform -> Collider -> bool.

Lemma check_hitbox_needs_active attacker_id entities exclude_ids hits h :
  check_hitbox check_entity attacker_id entities exclude_ids hits h
  <> hits ->
  start_frame h <= current_frame h <= end_frame h.
Proof.
  unfold check_hitbox, is_active. intros H.
  destruct (Z.leb_spec (start_frame h) (current_frame h));
    destruct (Z.leb_spec (current_frame h) (end_frame h));
    cbn [andb negb] in H; try (now contradiction H).
  lia.
Qed.

(** C5, amended. A hitbox registers hits only while its own
    [current_frame] lies inside [start_frame, end_frame].  That frame
    is the shared counter as the last [update] stamped it, and 0 for
    a hitbox added since: every [update] advances the shared counter
    by one, stamps it on every hitbox and removes exactly the
    hitboxes whose stamped frame exceeds [end_frame].  So at a hit
    check made right after an update, a hitbox that registers a hit
    has the shared counter inside its window, and in every state the
    manager can reach a hit check while the counter equals
    [start_frame - 1] registers nothing for that hitbox.  (A hitbox
    added since the last update is judged by frame 0, whatever the
    counter is.) *)
Theorem hitbox_frame_window :
  (forall m, exists m',
      update m = Some m' /\
      frame_counter m' = frame_counter m + 1 /\
      active_hitboxes m'
      = filter (fun h => current_frame h <=? end_frame h)
          (map (stamp (frame_counter m + 1)) (active_hitboxes m)) /\
      forall h, In h (active_hitboxes m') ->
                current_frame h = frame_counter m' /\
                current_frame h <= end_frame h) /\
  (forall m m' h attacker_id entities exclude_ids hits,
      update m = Some m' ->
      In h (active_hitboxes m') ->
      check_hitbox check_entity attacker_id entities exclude_ids hits h
      <> hits ->
      start_frame h <= frame_counter m' <= end_frame h) /\
  (forall m h attacker_id entities exclude_ids hits,
      reachable m ->
      In h (active_hitboxes m) ->
      frame_counter m = start_frame h - 1 ->
      check_hitbox check_entity attacker_id entities exclude_ids hits h
      = hits) /\
  (forall m m' h,
      reachable m ->
      In h (active_hitboxes m) ->
      end_frame h < current_frame h ->
      update m = Some m' ->
      ~ In (stamp (frame_counter m') h) (active_hitboxes m')) /\
  (forall m h attacker_id entities exclude_ids hits,
      reachable m ->
      In h (active_hitboxes m) ->
      check_hitbox check_entity attacker_id entities exclude_ids hits h
      <> hits ->
      start_frame h <= current_frame h <= end_frame h /\
      (current_frame h = frame_counter m \/ current_frame h = 0)) /\
  (forall h attacker_id entities exclude_ids hits,
      check_hitbox check_entity attacker_id entities exclude_ids hits h
      <> hits ->
      start_frame h <= current_frame h <= end_frame h) /\
  (forall m m' h,
      update m = Some m' ->
      In h (active_hitboxes m) ->
      (In (stamp (frame_counter m') h) (active_hitboxes m')
       <-> frame_counter m' <= end_frame h)).
Proof.
  assert (F : forall l,
             filter (fun h => negb (expired h)) l
             = filter (fun h => current_frame h <=? end_frame h) l).
  { intros l. apply filter_ext. intros h. unfold expired.
    destruct (Z.gtb_spec (current_frame h) (end_frame h));
      destruct (Z.leb_spec (current_frame h) (end_frame h));
      simpl; try reflexivity; lia. }
  assert (Post : forall m m', update m = Some m' ->
            forall h, In h (active_hitboxes m') ->
                      current_frame h = frame_counter m' /\
                      current_frame h <= end_frame h).
  { intros m m' U h Hh. rewrite update_purges in U. injection U as <-.
    cbn in *. rewrite F in Hh. apply filter_In in Hh.
    destruct Hh as [Hh L]. apply in_map_iff in Hh.
    destruct Hh as (h0 & <- & _). cbn in *. split; [reflexivity|].
    now apply Z.leb_le. }
  split; [|split; [|split; [|split; [|split; [|split]]]]].
  - intros m. eexists. split; [apply update_purges|].
    split; [reflexivity|]. split; [apply F|].
    intros h Hh. exact (Post m _ (update_purges m) h Hh).
  - intros m m' h a es ex hits U Hh Reg.
    apply check_hitbox_needs_active in Reg.
    destruct (Post m m' U h Hh) as [E _]. lia.
  - intros m h a es ex hits R Hh C.
    destruct (reachable_frames m R) as [P Fr].
    unfold check_hitbox, is_active.
    destruct (Fr h Hh) as [E|E]; rewrite E;
      destruct (Z.leb_spec (start_frame h) 0);
      destruct (Z.leb_spec (start_frame h) (frame_counter m));
      cbn [andb negb]; try reflexivity; lia.
  - intros m m' h R Hh Ex U Hin.
    destruct (reachable_frames m R) as [P Fr].
    destruct (Post m m' U _ Hin) as [_ L].
    rewrite update_purges in U. injection U as <-. cbn in *.
    destruct (Fr h Hh); lia.
  - intros m h a es ex hits R Hh Reg.
    split; [eapply check_hitbox_needs_active, Reg|].
    destruct (reachable_frames m R) as [_ Fr].
    destruct (Fr h Hh); [now right | now left].
  - intros h a es ex hits Reg.
    eapply check_hitbox_needs_active, Reg.
  - intros m m' h U Hh. rewrite update_purges in U. injection U as <-.
    cbn [active_hitboxes frame_counter]. rewrite F, filter_In.
    cbn [stamp current_frame end_frame]. rewrite Z.leb_le. split.
    + now intros [_ L].
    + intros L. split; [|exact L]. now apply in_map.
Qed.
End Geometry.

End HitboxFacts.

(** ** WeaponAttackSystem: hits per activation *)

Section ActivationFacts.
Import HitboxManager WeaponAttackSystem.

(** A target that stays inside the shape. *)
Definition always_inside : Shape -> Transform -> Collider -> bool :=
  fun _ _ _ => true.

Definition brute : Entity :=
  {| get_Transform := Some {| x := 10; y := 0; dx := 0; dy := 0 |};
     get_Health := Some {| max_hp := 100; hp := 100 |};
     get_Damage := None;
     get_Faction := Some {| tag := ENEMY |};
     get_Weapon := None;
     get_Experience := None;
     get_Collider := Some {| width := 32; height := 32; solid := true |};
     get_Enemy := Some {| enemy_type := "goblin" |};
     get_StatusEffects := None |}.

Lemma hitbox_frame_window_witness :
  let m := add_arc_hitbox init (0, 0)%Q 60 0 1 2 3 in
  let h := {| shape := Arc (0, 0)%Q 60 0 1; start_frame := 2;
              end_frame := 3; current_frame := 1 |} in
  update m = Some {| active_hitboxes := [h]; frame_counter := 1 |} /\
  check_hitbox always_inside 0
    (EntityManager.entities (entity_manager (arena brute (1 # 2)))) [] [] h
  = [].
Proof.
  intros m h. split; [reflexivity|].
  destruct (hitbox_frame_window always_inside) as (_ & _ & W & _).
  apply (W {| active_hitboxes := [h]; frame_counter := 1 |}).
  - apply (reach_update m); [|reflexivity].
    apply reach_arc, reach_init.
  - now left.
  - reflexivity.
Defined.

(** A manager that was updated [n] times and holds no hitbox. *)
Lemma reachable_idle (n : nat) :
  reachable {| active_hitboxes := []; frame_counter := Z.of_nat n |}.
Proof.
  induction n as [|n IH]; [exact reach_init|].
  apply (reach_update _ _ IH). rewrite update_purges.
  cbn [active_hitboxes frame_counter map filter]. do 2 f_equal. lia.
Qed.

(** The claim as first stated fails at the interface of the manager:
    after 30 updates an arc with the window 0 to 3 is added; a hit check
    before the next update judges it by its own frame 0 and reports the
    target, although the shared counter, 30, is outside the window. *)
Lemma hitbox_hit_outside_window :
  let m := add_arc_hitbox
             {| active_hitboxes := []; frame_counter := 30 |}
             (0, 0)%Q 60 0 1 0 3 in
  reachable m /\
  frame_counter m = 30 /\
  (forall h, In h (active_hitboxes m) ->
             start_frame h = 0 /\ end_frame h = 3 /\
             ~ (start_frame h <= frame_counter m <= end_frame h)) /\
  check_hits always_inside m 0
    (EntityManager.entities (entity_manager (arena brute (1 # 2)))) None
  = [1].
Proof.
  intros m. split; [|split; [|split]].
  - apply reach_arc. exact (reachable_idle 30).
  - reflexivity.
  - intros h [<-|[]]. cbn. lia.
  - reflexivity.
Qed.

(** One sword swing of entity 0: an arc active on frames 0 to 3. *)
Definition swing : WeaponAttackSystem.t :=
  {| hitbox_manager := add_arc_hitbox init (0, 0)%Q 60 0 1 0 3;
     attack_frames := [(0, 0)] |}.

Definition swing_arc (frame : Z) : Hitbox :=
  {| shape := Arc (0, 0)%Q 60 0 1; start_frame := 0; end_frame := 3;
     current_frame := frame |}.

(** C6 at a failing input: one hitbox, one target that stays inside it.
    Two consecutive frames of the same activation window both register
    the target, and it is damaged twice. *)
Theorem hitbox_hits_target_every_frame :
  exists s1 w1 s2 w2,
    update_attack_frames always_inside swing (1 # 60) (arena brute (1 # 2))
    = Ok s1 w1 /\
    update_attack_frames always_inside s1 (1 # 60) w1 = Ok s2 w2 /\
    active_hitboxes (hitbox_manager s1) = [swing_arc 1] /\
    active_hitboxes (hitbox_manager s2) = [swing_arc 2] /\
    check_hits always_inside (hitbox_manager s1) 0
      (EntityManager.entities (entity_manager w1)) None = [1] /\
    check_hits always_inside (hitbox_manager s2) 0
      (EntityManager.entities (entity_manager w2)) None = [1] /\
    event_queue w2
    = [EVENT_DAMAGE_TAKEN 1 15 0 false; EVENT_DAMAGE_TAKEN 1 15 0 false] /\
    option_map get_Health
      (EntityManager.get_entity (entity_manager w2) 1)
    = Some (Some {| max_hp := 100; hp := 70 |}).
Proof.
  eexists _, _, _, _.
  split; [vm_compute; reflexivity|].
  split; [vm_compute; reflexivity|].
  repeat split; reflexivity.
Qed.

End ActivationFacts.

(** ** Pathfinder *)

Section PathfinderFacts.
Import Pathfinder.

(** Manhattan distance between two tiles. *)
Definition manhattan (a b : Z * Z) : Z :=
  Z.abs (fst a - fst b) + Z.abs (snd a - snd b).

Lemma In_range (a b z : Z) : In z (range a b) <-> a <= z < b.
Proof.
  unfold range. rewrite in_map_iff. split.
  - intros (i & <- & Hi). apply in_seq in Hi. lia.
  - intros H. exists (Z.to_nat (z - a)). split; [lia|].
    apply in_seq. lia.
Qed.

Lemma In_ring (r : Z) (d : Z * Z) :
  In d (ring r) <-> 0 <= r /\ Z.abs (fst d) + Z.abs (snd d) = r.
Proof.
  unfold ring. rewrite filter_In. destruct d as [dx dy]. cbn [fst snd].
  rewrite in_prod_iff, !In_range, Z.eqb_eq. lia.
Qed.

Lemma find_app {A} (p : A -> bool) (l1 l2 : list A) :
  find p (l1 ++ l2)
  = match find p l1 with Some a => Some a | None => find p l2 end.
Proof.
  induction l1 as [|a l1 IH]; simpl; [reflexivity|].
  destruct (p a); [reflexivity | exact IH].
Qed.

(** Scanning the rings of radius [a + s], [a + s + 1], ... in order
    finds an offset of the first ring that has one. *)
Lemma find_rings (p : Z * Z -> bool) (a : Z) (n : nat) :
  forall s : nat,
    match find p (flat_map ring
                    (map (fun i => a + Z.of_nat i) (seq s n))) with
    | Some d =>
        p d = true /\
        exists k, (s <= k < s + n)%nat /\
                  In d (ring (a + Z.of_nat k)) /\
                  forall j d', (s <= j < k)%nat ->
                               In d' (ring (a + Z.of_nat j)) -> p d' = false
    | None =>
        forall j d', (s <= j < s + n)%nat ->
                     In d' (ring (a + Z.of_nat j)) -> p d' = false
    end.
Proof.
  induction n as [|n IH]; intros s; cbn [seq map flat_map].
  - cbn. intros j d' Hj. lia.
  - rewrite find_app.
    destruct (find p (ring (a + Z.of_nat s))) as [d|] eqn:F.
    + apply find_some in F. destruct F as [Hin Hp].
      split; [exact Hp|]. exists s. split; [lia|]. split; [exact Hin|].
      intros j d' Hj. lia.
    + specialize (IH (S s)).
      pose proof (find_none _ _ F) as Fn.
      destruct (find p (flat_map ring
                          (map (fun i => a + Z.of_nat i) (seq (S s) n))))
        as [d|].
      * destruct IH as (Hp & k & Hk & Hin & Hlow).
        split; [exact Hp|]. exists k. split; [lia|]. split; [exact Hin|].
        intros j d' Hj Hd'.
        destruct (Nat.eq_dec j s) as [->|N]; [now apply Fn|].
        apply (Hlow j); [lia | exact Hd'].
      * intros j d' Hj Hd'.
        destruct (Nat.eq_dec j s) as [->|N]; [now apply Fn|].
        apply (IH j); [lia | exact Hd'].
Qed.

(** [_find_nearest_walkable] with the default radius: a walkable tile at
    the least Manhattan distance between 1 and 5, or the tile itself
    when there is none. *)
Lemma find_nearest_walkable_spec (pf : t) (tx ty : Z) :
  let tile := (tx, ty) in
  let found := find_nearest_walkable pf tx ty 5 in
  (Level.is_walkable (level pf) (fst found) (snd found) = true /\
   1 <= manhattan found tile <= 5 /\
   forall other,
     Level.is_walkable (level pf) (fst other) (snd other) = true ->
     1 <= manhattan other tile ->
     manhattan found tile <= manhattan other tile)
  \/ (found = tile /\
      forall other,
        1 <= manhattan other tile <= 5 ->
        Level.is_walkable (level pf) (fst other) (snd other) = false).
Proof.
  intros tile found. subst found tile. unfold find_nearest_walkable.
  set (p := fun d : Z * Z =>
              Level.is_walkable (level pf) (tx + fst d) (ty + snd d)).
  pose proof (find_rings p 1 5 0) as S.
  change (range 1 (5 + 1)) with (map (fun i => 1 + Z.of_nat i) (seq 0 5)).
  destruct (find p (flat_map ring (map (fun i => 1 + Z.of_nat i) (seq 0 5))))
    as [[ddx ddy]|].
  - left. destruct S as (Hp & k & Hk & Hin & Hlow).
    apply In_ring in Hin. cbn [fst snd] in *. unfold manhattan. cbn [fst snd].
    split; [exact Hp|]. split; [lia|].
    intros [ox oy] Wo Do. cbn [fst snd] in *.
    destruct (Z_lt_le_dec (Z.abs (ox - tx) + Z.abs (oy - ty))
                (Z.abs (tx + ddx - tx) + Z.abs (ty + ddy - ty)))
      as [Lt|Ge]; [|exact Ge].
    exfalso.
    assert (Hf : p (ox - tx, oy - ty) = false).
    { apply (Hlow (Z.to_nat (Z.abs (ox - tx) + Z.abs (oy - ty) - 1))).
      - lia.
      - apply In_ring. cbn [fst snd]. lia. }
    unfold p in Hf. cbn [fst snd] in Hf.
    replace (tx + (ox - tx)) with ox in Hf by lia.
    replace (ty + (oy - ty)) with oy in Hf by lia. congruence.
  - right. split; [reflexivity|].
    intros [ox oy] Do. unfold manhattan in Do. cbn [fst snd] in *.
    specialize (S (Z.to_nat (Z.abs (ox - tx) + Z.abs (oy - ty) - 1))
                  (ox - tx, oy - ty)).
    unfold p in S. cbn [fst snd] in S.
    replace (tx + (ox - tx)) with ox in S by lia.
    replace (ty + (oy - ty)) with oy in S by lia.
    apply S; [lia|]. apply In_ring. cbn [fst snd]. lia.
Qed.

Lemma tile_eqb_eq (a b : Z * Z) : tile_eqb a b = true <-> a = b.
Proof.
  destruct a as [ax ay], b as [bx by_]. unfold tile_eqb. cbn [fst snd].
  rewrite andb_true_iff, !Z.eqb_eq. split; [intros [-> ->] | intros [= -> ->]];
    auto.
Qed.

Lemma existsb_tile (tile : Z * Z) (l : list (Z * Z)) :
  existsb (tile_eqb tile) l = true <-> In tile l.
Proof.
  rewrite existsb_exists. split.
  - intros (b & Hb & E). apply tile_eqb_eq in E. now subst.
  - intros H. exists tile. split; [exact H | now apply tile_eqb_eq].
Qed.

(** Every tile inside the bounds of the level. *)
Definition all_tiles (l : Level.t) : list (Z * Z) :=
  list_prod (range 0 (Level.width l)) (range 0 (Level.height l)).

Lemma walkable_all_tiles (l : Level.t) (tile : Z * Z) :
  Level.is_walkable l (fst tile) (snd tile) = true -> In tile (all_tiles l).
Proof.
  destruct tile as [tx ty]. unfold Level.is_walkable, Level.in_bounds.
  cbn [fst snd]. intros H.
  destruct (0 <=? tx) eqn:A; destruct (tx <? Level.width l) eqn:B;
    destruct (0 <=? ty) eqn:C; destruct (ty <? Level.height l) eqn:D;
    cbn [andb] in H; try discriminate.
  apply Z.leb_le in A, C. apply Z.ltb_lt in B, D.
  apply in_prod; apply In_range; lia.
Qed.

Lemma length_all_tiles (l : Level.t) :
  length (all_tiles l)
  = (Z.to_nat (Level.width l) * Z.to_nat (Level.height l))%nat.
Proof.
  unfold all_tiles, range. rewrite length_prod, !length_map, !length_seq.
  now rewrite !Z.sub_0_r.
Qed.

Lemma get_neighbors_walkable (pf : t) (tx ty : Z) (n : Z * Z) :
  In n (get_neighbors pf tx ty) ->
  Level.is_walkable (level pf) (fst n) (snd n) = true.
Proof. unfold get_neighbors. intros H. now apply filter_In in H. Qed.

Lemma get_neighbors_length (pf : t) (tx ty : Z) :
  (length (get_neighbors pf tx ty) <= 8)%nat.
Proof.
  unfold get_neighbors.
  eapply Nat.le_trans; [apply filter_length_le|].
  now rewrite length_map.
Qed.

Section Heap.
Variable heappush : list Node -> Node -> list Node.
Variable heappop : list Node -> option (Node * list Node).

(** What the search relies on: a push adds the item, a pop of a
    non-empty heap takes one item out. *)
Hypothesis heappush_perm :
  forall l n, Permutation (heappush l n) (n :: l).
Hypothesis heappop_perm :
  forall l, l <> [] ->
    exists n l', heappop l = Some (n, l') /\ Permutation l (n :: l').

Variable pf : t.
Variable goal : Z * Z.
Variable start : Z * Z.

Definition node_tile (n : Node) : Z * Z := (node_x n, node_y n).

(** The tiles the search can meet. *)
Definition known (tile : Z * Z) : Prop :=
  tile = start \/
  Level.is_walkable (level pf) (fst tile) (snd tile) = true.

Definition tile_budget : nat :=
  S (Z.to_nat (Level.width (level pf))
     * Z.to_nat (Level.height (level pf))).

Lemma closed_bound (closed_set : list (Z * Z)) :
  NoDup closed_set ->
  (forall tile, In tile closed_set -> known tile) ->
  (length closed_set <= tile_budget)%nat.
Proof.
  intros ND K.
  assert (I : incl closed_set (start :: all_tiles (level pf))).
  { intros tile Ht. destruct (K tile Ht) as [->|W]; [now left|].
    right. now apply walkable_all_tiles. }
  pose proof (NoDup_incl_length ND I) as L. cbn [length] in L.
  rewrite length_all_tiles in L. exact L.
Qed.

Lemma push_neighbors (closed_set : list (Z * Z)) (current : Node)
    (neighbors : list (Z * Z)) :
  forall open_set,
    (forall n, In n neighbors -> known n) ->
    (forall n, In n open_set -> known (node_tile n)) ->
    let open_set' :=
      fold_left (push_neighbor heappush goal closed_set current)
        neighbors open_set in
    (length open_set' <= length open_set + length neighbors)%nat /\
    (forall n, In n open_set' -> known (node_tile n)).
Proof.
  induction neighbors as [|nb neighbors IH]; intros open_set Kn Ko;
    cbn [fold_left length].
  - split; [lia | exact Ko].
  - set (pushed := push_neighbor heappush goal closed_set current
                     open_set nb).
    assert (P : (length pushed <= S (length open_set))%nat /\
                forall n, In n pushed -> known (node_tile n)).
    { subst pushed. unfold push_neighbor.
      destruct (existsb (tile_eqb nb) closed_set).
      - split; [lia | exact Ko].
      - split.
        + rewrite (Permutation_length (heappush_perm _ _)). cbn. lia.
        + intros n Hn.
          apply (Permutation_in _ (heappush_perm _ _)) in Hn.
          destruct Hn as [<-|Hn]; [|now apply Ko].
          unfold node_tile. cbn [node_x node_y].
          replace (fst nb, snd nb) with nb by now destruct nb.
          apply Kn. now left. }
    destruct P as [PL PK].
    destruct (IH pushed) as [L K]; [|exact PK|].
    { intros n Hn. apply Kn. now right. }
    split; [lia | exact K].
Qed.

(** The loop reaches its exit: the open set shrinks unless a new tile
    is closed, and a tile is closed once. *)
Lemma search_terminates (fuel : nat) :
  forall open_set closed_set,
    NoDup closed_set ->
    (forall tile, In tile closed_set -> known tile) ->
    (forall n, In n open_set -> known (node_tile n)) ->
    (length open_set + 8 * (tile_budget - length closed_set) < fuel)%nat ->
    exists r,
      search heappush heappop fuel pf goal open_set closed_set = Some r /\
      forall node, r = Some node -> node_tile node = goal.
Proof.
  induction fuel as [|fuel IH]; intros open_set closed_set ND Kc Ko M;
    [lia|].
  cbn [search].
  destruct open_set as [|n0 rest] eqn:Eo.
  { exists None. split; [reflexivity | discriminate]. }
  rewrite <- Eo in *.
  assert (NE : open_set <> []) by (rewrite Eo; discriminate).
  destruct (heappop_perm open_set NE) as (current & open' & Pop & Perm).
  rewrite Pop.
  assert (Len : length open_set = S (length open')).
  { now rewrite (Permutation_length Perm). }
  assert (Ko' : forall n, In n open' -> known (node_tile n)).
  { intros n Hn. apply Ko. apply (Permutation_in _ (Permutation_sym Perm)).
    now right. }
  assert (Kcur : known (node_tile current)).
  { apply Ko. apply (Permutation_in _ (Permutation_sym Perm)). now left. }
  fold (node_tile current).
  destruct (existsb (tile_eqb (node_tile current)) closed_set) eqn:Seen.
  - apply IH; trivial. lia.
  - assert (NI : ~ In (node_tile current) closed_set).
    { intros I. apply existsb_tile in I. congruence. }
    assert (ND' : NoDup (node_tile current :: closed_set))
      by now constructor.
    assert (Kc' : forall tile, In tile (node_tile current :: closed_set) ->
                               known tile).
    { intros tile [<-|Ht]; [exact Kcur | now apply Kc]. }
    pose proof (closed_bound _ ND' Kc') as B. cbn [length] in B.
    destruct (tile_eqb (node_tile current) goal) eqn:G.
    + exists (Some current). split; [reflexivity|].
      intros node [= <-]. now apply tile_eqb_eq.
    + destruct (push_neighbors (node_tile current :: closed_set) current
                  (get_neighbors pf (node_x current) (node_y current))
                  open') as [L K]; trivial.
      { intros n Hn. right. eapply get_neighbors_walkable, Hn. }
      pose proof (get_neighbors_length pf (node_x current)
                    (node_y current)) as L8.
      apply IH; trivial. cbn [length]. lia.
Qed.
End Heap.

Lemma filter_none {A} (p : A -> bool) (l : list A) :
  (forall a, p a = false) -> filter p l = [].
Proof.
  intros H. induction l as [|a l IH]; simpl; [reflexivity|].
  now rewrite H.
Qed.

Section HeapClaims.
Variable heappush : list Node -> Node -> list Node.
Variable heappop : list Node -> option (Node * list Node).
Hypothesis heappush_perm :
  forall l n, Permutation (heappush l n) (n :: l).
Hypothesis heappop_perm :
  forall l, l <> [] ->
    exists n l', heappop l = Some (n, l') /\ Permutation l (n :: l').

(** C7. A walkable start or goal tile is kept; a non-walkable one is
    replaced by a walkable tile at the least Manhattan distance between
    1 and 5, or kept when no such tile exists.  The search over the
    replaced tiles terminates, a node it returns lies on the goal tile,
    and when it exhausts the open set the path is exactly
    [[(goal_x, goal_y)]].  On a level without walkable tiles, start and
    goal on different tiles get that fallback. *)
Theorem find_path_fallback (pf : t) (start_x start_y goal_x goal_y : Q) :
  tile_size pf <> 0 ->
  let start_tile :=
    (floordiv start_x (tile_size pf), floordiv start_y (tile_size pf)) in
  let goal_tile :=
    (floordiv goal_x (tile_size pf), floordiv goal_y (tile_size pf)) in
  let start_node :=
    mkNode (fst (snap pf start_tile)) (snd (snap pf start_tile)) 0
      (inject_Z (heuristic (fst (snap pf start_tile))
                   (snd (snap pf start_tile))
                   (fst (snap pf goal_tile)) (snd (snap pf goal_tile))))
      None in
  (forall tile,
      Level.is_walkable (level pf) (fst tile) (snd tile) = true ->
      snap pf tile = tile) /\
  (forall tile,
      Level.is_walkable (level pf) (fst tile) (snd tile) = false ->
      (Level.is_walkable (level pf) (fst (snap pf tile))
         (snd (snap pf tile)) = true /\
       1 <= manhattan (snap pf tile) tile <= 5 /\
       forall other,
         Level.is_walkable (level pf) (fst other) (snd other) = true ->
         1 <= manhattan other tile ->
         manhattan (snap pf tile) tile <= manhattan other tile)
      \/ (snap pf tile = tile /\
          forall other,
            1 <= manhattan other tile <= 5 ->
            Level.is_walkable (level pf) (fst other) (snd other) = false)) /\
  (exists r,
      search heappush heappop (search_fuel pf) pf (snap pf goal_tile)
        (heappush [] start_node) [] = Some r /\
      (forall node, r = Some node ->
                    (node_x node, node_y node) = snap pf goal_tile) /\
      find_path heappush heappop pf start_x start_y goal_x goal_y
      = Path match r with
             | Some node => rev (trace pf node)
             | None => [(goal_x, goal_y)]
             end) /\
  ((forall tx ty, Level.is_walkable (level pf) tx ty = false) ->
   start_tile <> goal_tile ->
   find_path heappush heappop pf start_x start_y goal_x goal_y
   = Path [(goal_x, goal_y)]).
Proof.
  intros Hts start_tile goal_tile start_node.
  assert (Keep : forall tile,
             Level.is_walkable (level pf) (fst tile) (snd tile) = true ->
             snap pf tile = tile).
  { intros tile W. unfold snap. now rewrite W. }
  assert (Near : forall tile,
      Level.is_walkable (level pf) (fst tile) (snd tile) = false ->
      (Level.is_walkable (level pf) (fst (snap pf tile))
         (snd (snap pf tile)) = true /\
       1 <= manhattan (snap pf tile) tile <= 5 /\
       forall other,
         Level.is_walkable (level pf) (fst other) (snd other) = true ->
         1 <= manhattan other tile ->
         manhattan (snap pf tile) tile <= manhattan other tile)
      \/ (snap pf tile = tile /\
          forall other,
            1 <= manhattan other tile <= 5 ->
            Level.is_walkable (level pf) (fst other) (snd other) = false)).
  { intros [tx ty] W. unfold snap. rewrite W. cbn [fst snd].
    apply (find_nearest_walkable_spec pf tx ty). }
  assert (Run : exists r,
      search heappush heappop (search_fuel pf) pf (snap pf goal_tile)
        (heappush [] start_node) [] = Some r /\
      forall node, r = Some node ->
                   (node_x node, node_y node) = snap pf goal_tile).
  { apply (search_terminates heappush heappop heappush_perm heappop_perm
             pf (snap pf goal_tile) (snap pf start_tile)).
    - constructor.
    - intros tile [].
    - intros n Hn.
      apply (Permutation_in _ (heappush_perm _ _)) in Hn.
      destruct Hn as [<-|[]]. left. unfold node_tile, start_node.
      cbn [node_x node_y]. now destruct (snap pf start_tile).
    - rewrite (Permutation_length (heappush_perm _ _)).
      unfold search_fuel, tile_budget. cbn [length]. lia. }
  assert (Unfold :
      find_path heappush heappop pf start_x start_y goal_x goal_y
      = match search heappush heappop (search_fuel pf) pf
                (snap pf goal_tile) (heappush [] start_node) [] with
        | None => Diverges
        | Some (Some node) => Path (rev (trace pf node))
        | Some None => Path [(goal_x, goal_y)]
        end).
  { unfold find_path. destruct (Z.eqb_spec (tile_size pf) 0);
      [contradiction | reflexivity]. }
  split; [exact Keep|]. split; [exact Near|]. split.
  - destruct Run as (r & R & G). exists r. split; [exact R|].
    split; [exact G|]. rewrite Unfold, R. now destruct r.
  - intros Blocked Far. rewrite Unfold.
    assert (Same : forall tile, snap pf tile = tile).
    { intros tile. destruct (Near tile) as [(W & _)|[E _]];
        [apply Blocked | | exact E].
      rewrite Blocked in W. discriminate. }
    assert (Sn : start_node
                 = mkNode (fst start_tile) (snd start_tile) 0
                     (inject_Z (heuristic (fst start_tile) (snd start_tile)
                                  (fst goal_tile) (snd goal_tile))) None).
    { unfold start_node. now rewrite !Same. }
    rewrite (Same goal_tile).
    assert (One : heappush [] start_node = [start_node]).
    { apply Permutation_length_1_inv.
      apply Permutation_sym, heappush_perm. }
    rewrite One. unfold search_fuel. cbn [Nat.add search].
    destruct (heappop_perm [start_node]) as (n & l' & Pop & Perm);
      [discriminate|].
    apply Permutation_length_1_inv in Perm. injection Perm as <- ->.
    rewrite Pop. cbn [existsb].
    rewrite Sn at 1 2. cbn [node_x node_y].
    replace (fst start_tile, snd start_tile) with start_tile
      by now destruct start_tile.
    destruct (tile_eqb start_tile goal_tile) eqn:E.
    { apply tile_eqb_eq in E. contradiction. }
    unfold get_neighbors. rewrite filter_none; [reflexivity|].
    intros a. apply Blocked.
Qed.
End HeapClaims.

(** A priority queue ordered by [Node.__lt__]: a push goes behind the
    items that are not more expensive, a pop takes the front. *)
Fixpoint insert_by_f (n : Node) (l : list Node) : list Node :=
  match l with
  | [] => [n]
  | a :: l' => if lt n a then n :: a :: l' else a :: insert_by_f n l'
  end.

Definition sorted_push (l : list Node) (n : Node) : list Node :=
  insert_by_f n l.

Definition sorted_pop (l : list Node) : option (Node * list Node) :=
  match l with
  | [] => None
  | a :: l' => Some (a, l')
  end.

Lemma sorted_push_perm (l : list Node) (n : Node) :
  Permutation (sorted_push l n) (n :: l).
Proof.
  unfold sorted_push. induction l as [|a l IH]; simpl; [reflexivity|].
  destruct (lt n a); [reflexivity|].
  rewrite IH. apply perm_swap.
Qed.

Lemma sorted_pop_perm (l : list Node) :
  l <> [] ->
  exists n l', sorted_pop l = Some (n, l') /\ Permutation l (n :: l').
Proof.
  destruct l as [|a l]; [congruence|]. intros _. now exists a, l.
Qed.

Definition level_3x3 (walkable : bool) : Level.t :=
  {| Level.width := 3; Level.height := 3;
     Level.tiles := fun _ _ => walkable |}.

Definition pathfinder_3x3 (walkable : bool) : t :=
  {| level := level_3x3 walkable; tile_size := 32 |}.

Lemma find_path_fallback_witness :
  find_path sorted_push sorted_pop (pathfinder_3x3 false) 10 10 70 70
  = Path [(70, 70)%Q].
Proof.
  pose proof (find_path_fallback sorted_push sorted_pop sorted_push_perm
                sorted_pop_perm (pathfinder_3x3 false) 10 10 70 70) as T.
  cbv zeta in T. destruct T as (_ & _ & _ & Blocked); [discriminate|].
  apply Blocked.
  - intros tx ty. unfold Level.is_walkable.
    now destruct (Level.in_bounds _ tx ty).
  - vm_compute. discriminate.
Defined.

(** On the open 3 by 3 level the search walks the diagonal through the
    tile centres. *)
Example find_path_open_diagonal :
  find_path sorted_push sorted_pop (pathfinder_3x3 true) 10 10 70 70
  = Path [(inject_Z 16, inject_Z 16); (inject_Z 48, inject_Z 48);
          (inject_Z 80, inject_Z 80)].
Proof. vm_compute. reflexivity. Qed.

(** Start and goal inside the same tile of a level without walkable
    tiles: the search reaches the goal at once and the path is the tile
    centre, not the goal point. *)
Example find_path_blocked_same_tile :
  find_path sorted_push sorted_pop (pathfinder_3x3 false) 10 10 20 20
  = Path [(inject_Z 16, inject_Z 16)].
Proof. vm_compute. reflexivity. Qed.

End PathfinderFacts.

(** * Further properties of the components *)

Section ComponentFacts.

(** [Qltb] decides the strict order. *)
Lemma Qltb_lt (a b : Q) : Qltb a b = true <-> (a < b)%Q.
Proof.
  unfold Qltb. rewrite negb_true_iff. split.
  - intros H. apply Qnot_le_lt. intros L. apply Qle_bool_iff in L. congruence.
  - intros H. destruct (Qle_bool b a) eqn:E; [|reflexivity].
    apply Qle_bool_iff in E. exfalso. apply (Qlt_not_le _ _ H E).
Qed.

Lemma Qltb_ge (a b : Q) : Qltb a b = false <-> (b <= a)%Q.
Proof.
  unfold Qltb. rewrite negb_false_iff. apply Qle_bool_iff.
Qed.

(** X1. For a Health with [0 <= hp <= max_hp] and an amount [>= 0],
    [heal] returns [min amount (max_hp - hp)], the headroom actually
    filled, and leaves [hp = min max_hp (hp + amount)], still within
    [0, max_hp]. *)
Theorem heal_spec (h : Health) (amount : Z) :
  0 <= hp h <= max_hp h ->
  0 <= amount ->
  let (healed, h') := heal h amount in
  healed = Z.min amount (max_hp h - hp h) /\
  hp h' = Z.min (max_hp h) (hp h + amount) /\
  0 <= hp h' <= max_hp h' /\
  max_hp h' = max_hp h.
Proof.
  intros Hhp Ha. unfold heal; cbn [hp max_hp].
  repeat split; lia.
Qed.

Lemma heal_spec_witness :
  let h := {| max_hp := 100; hp := 90 |} in
  let (healed, h') := heal h 30 in
  healed = Z.min 30 (max_hp h - hp h) /\
  hp h' = Z.min (max_hp h) (hp h + 30) /\
  0 <= hp h' <= max_hp h' /\
  max_hp h' = max_hp h.
Proof.
  apply (heal_spec {| max_hp := 100; hp := 90 |} 30); simpl; lia.
Defined.

(** X2. Healing by the damage actually dealt undoes [take_damage] (for
    any damage amount, when [hp <= max_hp]); damaging by the amount
    actually healed undoes [heal] (for any amount, when [0 <= hp]). *)
Theorem damage_heal_round_trip (h : Health) (amount : Z) :
  (hp h <= max_hp h ->
   let (dealt, h1) := take_damage h amount in heal h1 dealt = (dealt, h)) /\
  (0 <= hp h ->
   let (healed, h1) := heal h amount in
   take_damage h1 healed = (healed, h)).
Proof.
  destruct h as [m p]. unfold take_damage, heal; cbn [hp max_hp].
  split; intros H; f_equal; try f_equal; lia.
Qed.

Lemma damage_heal_round_trip_witness :
  heal (snd (take_damage {| max_hp := 100; hp := 40 |} 70))
       (fst (take_damage {| max_hp := 100; hp := 40 |} 70))
  = (40, {| max_hp := 100; hp := 40 |}).
Proof.
  destruct (damage_heal_round_trip {| max_hp := 100; hp := 40 |} 70)
    as [A _].
  apply A. simpl. lia.
Defined.

(** X3. Enmity is symmetric and irreflexive; a neutral faction is hostile
    to nobody, and enemy and boss are not hostile to each other. *)
Theorem is_enemy_of_symmetric (a b : Faction) :
  is_enemy_of a b = is_enemy_of b a /\
  is_enemy_of a a = false /\
  (tag a = NEUTRAL -> is_enemy_of a b = false) /\
  (tag a <> PLAYER -> tag b <> PLAYER -> is_enemy_of a b = false) /\
  (is_enemy_of a b = true -> tag a = PLAYER \/ tag b = PLAYER).
Proof.
  destruct a as [ta], b as [tb]; unfold is_enemy_of; cbn [tag].
  destruct ta, tb; cbn; repeat split; intros; try congruence; auto.
Qed.

End ComponentFacts.

(** ** Inventory *)

Section InventoryFacts.
Import Inventory.
Variable Item : Type.

Abbreviation inventory := (Inventory.t Item).

Lemma valid_index_spec {A} (index : Z) (l : list A) :
  valid_index index l = true <-> 0 <= index < Z.of_nat (length l).
Proof.
  unfold valid_index. rewrite andb_true_iff, Z.leb_le, Z.ltb_lt. tauto.
Qed.

Lemma pop_last {A} (l : list A) (a : A) :
  nth_error (l ++ [a]) (length l) = Some a /\
  firstn (length l) (l ++ [a]) ++ skipn (S (length l)) (l ++ [a]) = l.
Proof.
  split.
  - rewrite nth_error_app2 by lia. now rewrite Nat.sub_diag.
  - rewrite firstn_app, Nat.sub_diag, firstn_all. cbn [firstn].
    rewrite skipn_all2 by (rewrite length_app; simpl; lia).
    now rewrite !app_nil_r.
Qed.

Lemma length_pop {A} (l : list A) (i : nat) :
  (i < length l)%nat ->
  length (firstn i l ++ skipn (S i) l) = pred (length l).
Proof.
  intros H. rewrite length_app, length_firstn, length_skipn. lia.
Qed.

(** X4. [add_item] succeeds exactly while the inventory holds fewer than
    [max_size] items, appends the item and never exceeds the capacity;
    removing the last index afterwards gives the item back and restores
    the inventory.  [remove_item] with an index outside
    [0, len(items))], negative ones included, returns nothing and
    changes nothing; inside, it returns that item and the list gets one
    shorter. *)
Theorem inventory_add_remove (inv : inventory) (item : Item) (index : Z) :
  (let (added, inv') := add_item inv item in
   (added = true <-> Z.of_nat (length (items inv)) < max_size inv) /\
   (added = true ->
    items inv' = items inv ++ [item] /\
    remove_item inv' (Z.of_nat (length (items inv))) = (Some item, inv)) /\
   (added = false -> inv' = inv) /\
   (Z.of_nat (length (items inv)) <= max_size inv ->
    Z.of_nat (length (items inv')) <= max_size inv')) /\
  (let (removed, inv') := remove_item inv index in
   (index < 0 \/ Z.of_nat (length (items inv)) <= index ->
    removed = None /\ inv' = inv) /\
   (0 <= index < Z.of_nat (length (items inv)) ->
    removed = nth_error (items inv) (Z.to_nat index) /\
    removed <> None /\
    Z.of_nat (length (items inv')) = Z.of_nat (length (items inv)) - 1)).
Proof.
  split.
  - unfold add_item.
    destruct (Z.ltb_spec (Z.of_nat (length (items inv))) (max_size inv))
      as [L|G].
    + split; [tauto|]. split; [|split; [discriminate|]].
      * intros _. split; [reflexivity|].
        unfold remove_item. cbn [items set_items].
        assert (V : valid_index (Z.of_nat (length (items inv)))
                      (items inv ++ [item]) = true).
        { apply valid_index_spec. rewrite length_app. simpl. lia. }
        rewrite V, Nat2Z.id.
        destruct (pop_last (items inv) item) as [E1 E2].
        rewrite E1, E2. now destruct inv.
      * intros _. cbn [items set_items max_size].
        rewrite length_app. simpl. lia.
    + split; [split; [discriminate | lia]|].
      split; [discriminate|]. split; [reflexivity | tauto].
  - unfold remove_item.
    destruct (valid_index index (items inv)) eqn:V.
    + apply valid_index_spec in V. split; [lia|]. intros _.
      split; [reflexivity|]. split.
      * apply nth_error_Some. lia.
      * cbn [items set_items]. rewrite length_pop by lia. lia.
    + split; [auto|]. intros H. apply valid_index_spec in H. congruence.
Qed.

(** X5. [spend_gold] succeeds exactly when the gold covers the amount
    and then subtracts it; otherwise nothing changes; gold that is not
    negative stays so.  Spending what was just added restores the
    inventory. *)
Theorem inventory_gold (inv : inventory) (amount : Z) :
  let (spent, inv') := spend_gold inv amount in
  (spent = true <-> amount <= gold inv) /\
  (spent = true -> inv' = set_gold inv (gold inv - amount)) /\
  (spent = false -> inv' = inv) /\
  (0 <= gold inv -> 0 <= gold inv') /\
  (0 <= gold inv -> spend_gold (add_gold inv amount) amount = (true, inv)).
Proof.
  unfold spend_gold, add_gold. cbn [gold set_gold].
  destruct (Z.geb_spec (gold inv) amount) as [G|L].
  - split; [split; [lia | reflexivity]|].
    split; [reflexivity|]. split; [discriminate|].
    split; [cbn [gold set_gold]; lia|].
    intros P. destruct (Z.geb_spec (gold inv + amount) amount); [|lia].
    f_equal. destruct inv; unfold set_gold; cbn. f_equal. lia.
  - split; [split; [discriminate | lia]|].
    split; [discriminate|]. split; [reflexivity|].
    split; [tauto|].
    intros P. destruct (Z.geb_spec (gold inv + amount) amount); [|lia].
    f_equal. destruct inv; unfold set_gold; cbn. f_equal. lia.
Qed.

Lemma assign_Some {A} (l : list A) (i : nat) (v : A) :
  (i < length l)%nat ->
  exists l', assign l i v = Some l' /\
             length l' = length l /\
             nth_error l' i = Some v /\
             forall j, j <> i -> nth_error l' j = nth_error l j.
Proof.
  revert i. induction l as [|a l IH]; intros i H; [simpl in H; lia|].
  destruct i as [|i]; cbn [assign].
  - exists (v :: l). repeat split. intros [|j] N; [congruence | reflexivity].
  - destruct (IH i) as (l' & E & L & N & O); [simpl in H; lia|].
    rewrite E. exists (a :: l'). split; [reflexivity|].
    split; [simpl; lia|]. split; [exact N|].
    intros [|j] Nj; [reflexivity|]. cbn. apply O. congruence.
Qed.

(** X6. With one count per consumable slot, [use_consumable] never
    fails on an index.  On an occupied slot holding [count] uses: with
    two or more it returns the consumable and leaves [count - 1]; with
    exactly one it empties the slot first and so returns nothing, the
    slot then reading [(None, 0)]; with none it returns nothing and
    changes nothing. *)
Theorem use_consumable_spec (inv : inventory) (slot : Z) :
  length (consumable_counts inv) = length (consumable_slots inv) ->
  (exists r, use_consumable inv slot = Some r) /\
  forall content count,
    0 <= slot ->
    nth_error (consumable_slots inv) (Z.to_nat slot) = Some (Some content) ->
    nth_error (consumable_counts inv) (Z.to_nat slot) = Some count ->
    (2 <= count ->
     exists inv',
       use_consumable inv slot = Some (Some content, inv') /\
       get_consumable inv' slot = Some (Some content, count - 1)) /\
    (count = 1 ->
     exists inv',
       use_consumable inv slot = Some (None, inv') /\
       get_consumable inv' slot = Some (None, 0)) /\
    (count <= 0 -> use_consumable inv slot = Some (None, inv)).
Proof.
  intros WF.
  assert (Main : forall content count,
    0 <= slot ->
    nth_error (consumable_slots inv) (Z.to_nat slot) = Some (Some content) ->
    nth_error (consumable_counts inv) (Z.to_nat slot) = Some count ->
    (2 <= count ->
     exists inv',
       use_consumable inv slot = Some (Some content, inv') /\
       get_consumable inv' slot = Some (Some content, count - 1)) /\
    (count = 1 ->
     exists inv',
       use_consumable inv slot = Some (None, inv') /\
       get_consumable inv' slot = Some (None, 0)) /\
    (count <= 0 -> use_consumable inv slot = Some (None, inv))).
  { intros content count P HS HC.
    assert (I : (Z.to_nat slot < length (consumable_slots inv))%nat).
    { apply nth_error_Some. congruence. }
    assert (V : valid_index slot (consumable_slots inv) = true).
    { apply valid_index_spec. lia. }
    unfold use_consumable. rewrite V. cbv zeta. rewrite HS, HC.
    split; [|split].
    - intros G. destruct (Z.gtb_spec count 0); [|lia].
      destruct (Z.leb_spec (count - 1) 0); [lia|].
      destruct (assign_Some (consumable_counts inv) (Z.to_nat slot)
                  (count - 1)) as (cs & E & L & N & _); [lia|].
      rewrite E. eexists. split; [reflexivity|].
      unfold get_consumable. cbn [consumable_slots consumable_counts
                                  set_consumables].
      now rewrite V, HS, N.
    - intros ->. cbn.
      destruct (assign_Some (consumable_slots inv) (Z.to_nat slot) None)
        as (ss & E1 & L1 & N1 & _); [lia|].
      destruct (assign_Some (consumable_counts inv) (Z.to_nat slot) 0)
        as (cs & E2 & L2 & N2 & _); [lia|].
      rewrite E1, E2. eexists. split; [reflexivity|].
      unfold get_consumable. cbn [consumable_slots consumable_counts
                                  set_consumables].
      assert (V' : valid_index slot ss = true).
      { apply valid_index_spec. lia. }
      now rewrite V', N1, N2.
    - intros L. destruct (Z.gtb_spec count 0); [lia | reflexivity]. }
  split; [|exact Main].
  unfold use_consumable.
  destruct (valid_index slot (consumable_slots inv)) eqn:V;
    [|eexists; reflexivity].
  apply valid_index_spec in V.
  destruct (nth_error (consumable_slots inv) (Z.to_nat slot))
    as [[content|]|] eqn:HS; try (eexists; reflexivity).
  destruct (nth_error (consumable_counts inv) (Z.to_nat slot))
    as [count|] eqn:HC.
  - destruct (Main content count) as (A & B & C); try tauto; try lia.
    unfold use_consumable in A, B, C.
    assert (V2 : valid_index slot (consumable_slots inv) = true)
      by (apply valid_index_spec; lia).
    rewrite V2 in A, B, C. cbv zeta in A, B, C.
    rewrite HS, HC in A, B, C.
    destruct (Z_le_gt_dec count 0) as [L|G].
    + rewrite (C L). eexists; reflexivity.
    + destruct (Z.eq_dec count 1) as [E|N].
      * destruct (B E) as (i' & R & _). rewrite R. eexists; reflexivity.
      * destruct A as (i' & R & _); [lia|]. rewrite R. eexists; reflexivity.
  - exfalso. apply nth_error_None in HC. lia.
Qed.

(** X7. [switch_weapon_slot] succeeds exactly on a slot inside the range
    that holds a weapon; the active weapon is then that weapon.  On
    failure the active slot stays.  A weapon stored with [set_weapon] can
    be selected right away. *)
Theorem switch_weapon_slot_spec (inv : inventory) (slot : Z) :
  (let (switched, inv') := switch_weapon_slot inv slot in
   (switched = true <->
    0 <= slot /\
    exists w, nth_error (weapon_slots inv) (Z.to_nat slot) = Some (Some w)) /\
   (switched = true ->
    active_weapon_slot inv' = slot /\
    exists w,
      get_active_weapon inv' = Some w /\
      nth_error (weapon_slots inv) (Z.to_nat slot) = Some (Some w)) /\
   (switched = false -> inv' = inv)) /\
  (forall w,
      0 <= slot < Z.of_nat (length (weapon_slots inv)) ->
      exists inv1 inv2,
        set_weapon inv slot (Some w) = (true, inv1) /\
        switch_weapon_slot inv1 slot = (true, inv2) /\
        get_active_weapon inv2 = Some w).
Proof.
  split.
  - unfold switch_weapon_slot.
    destruct (valid_index slot (weapon_slots inv)) eqn:V.
    + pose proof V as V0. apply valid_index_spec in V.
      destruct (nth_error (weapon_slots inv) (Z.to_nat slot))
        as [[w|]|] eqn:N.
      * split; [split; [intros _; split; [lia | now exists w] | reflexivity]|].
        split; [|discriminate]. intros _. split; [reflexivity|].
        exists w. split; [|reflexivity].
        unfold get_active_weapon.
        cbn [active_weapon_slot weapon_slots set_active_weapon_slot].
        now rewrite V0, N.
      * split; [split; [discriminate | intros (_ & w & E); discriminate]|].
        split; [discriminate | reflexivity].
      * split; [split; [discriminate | intros (_ & w & E); discriminate]|].
        split; [discriminate | reflexivity].
    + split; [split; [discriminate|]|split; [discriminate | reflexivity]].
      intros (P & w & E).
      assert (valid_index slot (weapon_slots inv) = true).
      { apply valid_index_spec. split; [exact P|].
        assert ((Z.to_nat slot < length (weapon_slots inv))%nat)
          by (apply nth_error_Some; congruence).
        lia. }
      congruence.
  - intros w R.
    assert (V : valid_index slot (weapon_slots inv) = true)
      by now apply valid_index_spec.
    destruct (assign_Some (weapon_slots inv) (Z.to_nat slot) (Some w))
      as (l & E & L & N & _); [lia|].
    unfold set_weapon. rewrite V, E. eexists _, _.
    split; [reflexivity|].
    unfold switch_weapon_slot. cbn [weapon_slots set_weapon_slots].
    assert (V1 : valid_index slot l = true)
      by (apply valid_index_spec; lia).
    rewrite V1, N. split; [reflexivity|].
    unfold get_active_weapon.
    cbn [active_weapon_slot weapon_slots set_active_weapon_slot
         set_weapon_slots].
    now rewrite V1, N.
Qed.

End InventoryFacts.

Definition starting_inventory : Inventory.t string :=
  {| Inventory.items := []; Inventory.gold := 0; Inventory.max_size := 20;
     Inventory.weapon_slots := [Some "sword"%string; None; Some "crossbow"%string];
     Inventory.active_weapon_slot := 0;
     Inventory.consumable_slots := [Some "potion"%string; None];
     Inventory.consumable_counts := [3; 0] |}.

Lemma use_consumable_spec_witness :
  exists inv',
    Inventory.use_consumable starting_inventory 0
    = Some (Some "potion"%string, inv') /\
    Inventory.get_consumable inv' 0 = Some (Some "potion"%string, 2).
Proof.
  destruct (use_consumable_spec string starting_inventory 0 eq_refl)
    as [_ H].
  destruct (H "potion"%string 3 ltac:(lia) eq_refl eq_refl) as (A & _).
  apply A. lia.
Defined.

(** ** SkillTree, StatusEffects lookups, Cooldown, InputBuffer *)

Section SkillTreeFacts.
Import SkillTree.

Lemma has_node_In (s : SkillTree.t) (node_id : string) :
  has_node s node_id = true <-> In node_id (unlocked_nodes s).
Proof.
  unfold has_node. rewrite existsb_exists. split.
  - intros (n & Hn & E). apply String.eqb_eq in E. now subst.
  - intros H. exists node_id. split; [exact H | apply String.eqb_refl].
Qed.

(** X8. [unlock_node] succeeds exactly for a node that is not unlocked
    yet; afterwards the node is unlocked, a second unlock fails and
    changes nothing, the list of unlocked nodes stays duplicate-free, and
    the available skill points are never touched. *)
Theorem unlock_node_spec (s : SkillTree.t) (node_id : string) :
  let (unlocked, s') := unlock_node s node_id in
  (unlocked = true <-> ~ In node_id (unlocked_nodes s)) /\
  has_node s' node_id = true /\
  unlock_node s' node_id = (false, s') /\
  (NoDup (unlocked_nodes s) -> NoDup (unlocked_nodes s')) /\
  available_points s' = available_points s /\
  (forall other, has_node s other = true -> has_node s' other = true).
Proof.
  unfold unlock_node.
  destruct (has_node s node_id) eqn:H; cbn [negb].
  - pose proof (proj1 (has_node_In s node_id) H) as I.
    split; [split; [discriminate | tauto]|].
    split; [exact H|]. split; [now rewrite H|]. auto.
  - assert (NI : ~ In node_id (unlocked_nodes s)).
    { intros I. apply has_node_In in I. congruence. }
    set (s' := {| unlocked_nodes := unlocked_nodes s ++ [node_id];
                  available_points := available_points s |}).
    assert (H' : has_node s' node_id = true).
    { apply has_node_In. cbn. apply in_app_iff. right. now left. }
    split; [tauto|]. split; [exact H'|].
    split; [now rewrite H'|]. split; [|split; [reflexivity|]].
    + intros ND. cbn. apply NoDup_app; trivial.
      * repeat constructor. intros [].
      * intros a Ha [<-|[]]. contradiction.
    + intros other Ho. apply has_node_In. apply has_node_In in Ho.
      cbn. apply in_app_iff. now left.
Qed.
End SkillTreeFacts.

Section StatusLookupFacts.
Import StatusEffects.

Lemma get_effect_type (l : StatusEffects.t) (ty : StatusEffectType)
    (e : StatusEffect) :
  get_effect l ty = Some e -> effect_type e = ty /\ In e l.
Proof.
  unfold get_effect. intros H. apply find_some in H.
  destruct H as [I E]. apply StatusEffectType_eqb_eq in E. tauto.
Qed.

Lemma get_effect_app (l1 l2 : StatusEffects.t) (ty : StatusEffectType) :
  get_effect (l1 ++ l2) ty
  = match get_effect l1 ty with
    | Some e => Some e
    | None => get_effect l2 ty
    end.
Proof.
  unfold get_effect. induction l1 as [|a l1 IH]; simpl; [reflexivity|].
  destruct (StatusEffectType_eqb (effect_type a) ty); [reflexivity | exact IH].
Qed.

Lemma get_effect_None (l : StatusEffects.t) (ty : StatusEffectType) :
  get_effect l ty = None <-> ~ In ty (map effect_type l).
Proof.
  unfold get_effect. induction l as [|a l IH]; simpl; [tauto|].
  destruct (StatusEffectType_eqb (effect_type a) ty) eqn:E.
  - apply StatusEffectType_eqb_eq in E. split; [discriminate|].
    intros H. exfalso. apply H. now left.
  - apply StatusEffectType_eqb_neq in E. rewrite IH. tauto.
Qed.

Lemma get_effect_add (l : StatusEffects.t) (e : StatusEffect)
    (other : StatusEffectType) :
  get_effect (add_effect l e) other
  = if StatusEffectType_eqb (effect_type e) other
    then match get_effect l other with
         | Some old => Some (set_duration old (duration e))
         | None => Some e
         end
    else get_effect l other.
Proof.
  unfold add_effect.
  destruct (refresh l e) as [r|] eqn:R.
  - apply refresh_Some in R.
    destruct R as (l1 & ex & l2 & -> & K & N & ->).
    rewrite !get_effect_app.
    destruct (StatusEffectType_eqb (effect_type e) other) eqn:E.
    + apply StatusEffectType_eqb_eq in E. subst other.
      rewrite (proj2 (get_effect_None l1 (effect_type e)) N).
      unfold get_effect. cbn [find effect_type set_duration].
      rewrite K, (proj2 (StatusEffectType_eqb_eq _ _) eq_refl).
      reflexivity.
    + destruct (get_effect l1 other); [reflexivity|].
      unfold get_effect. cbn [find effect_type set_duration].
      apply StatusEffectType_eqb_neq in E.
      assert (F : StatusEffectType_eqb (effect_type ex) other = false).
      { apply StatusEffectType_eqb_neq. congruence. }
      now rewrite F.
  - apply refresh_None in R.
    rewrite get_effect_app.
    destruct (StatusEffectType_eqb (effect_type e) other) eqn:E.
    + apply StatusEffectType_eqb_eq in E. subst other.
      rewrite (proj2 (get_effect_None l (effect_type e)) R).
      unfold get_effect. cbn [find].
      now rewrite (proj2 (StatusEffectType_eqb_eq _ _) eq_refl).
    + destruct (get_effect l other); [reflexivity|].
      unfold get_effect. cbn [find]. now rewrite E.
Qed.

Lemma get_effect_remove (l : StatusEffects.t) (ty other : StatusEffectType) :
  get_effect (remove_effect l ty) other
  = if StatusEffectType_eqb other ty then None else get_effect l other.
Proof.
  unfold remove_effect, get_effect.
  induction l as [|a l IH]; cbn [filter find].
  - now destruct (StatusEffectType_eqb other ty).
  - destruct (StatusEffectType_eqb (effect_type a) ty) eqn:A; cbn [negb].
    + rewrite IH. apply StatusEffectType_eqb_eq in A.
      destruct (StatusEffectType_eqb other ty) eqn:O; [reflexivity|].
      apply StatusEffectType_eqb_neq in O.
      assert (F : StatusEffectType_eqb (effect_type a) other = false)
        by (apply StatusEffectType_eqb_neq; congruence).
      now rewrite F.
    + cbn [find].
      destruct (StatusEffectType_eqb (effect_type a) other) eqn:B.
      * apply StatusEffectType_eqb_eq in B.
        apply StatusEffectType_eqb_neq in A.
        assert (F : StatusEffectType_eqb other ty = false)
          by (apply StatusEffectType_eqb_neq; congruence).
        now rewrite F.
      * exact IH.
Qed.

Lemma has_effect_get (l : StatusEffects.t) (ty : StatusEffectType) :
  has_effect l ty = true <-> exists found, get_effect l ty = Some found.
Proof.
  unfold has_effect, get_effect.
  induction l as [|a l IH]; cbn [existsb find].
  - split; [discriminate | intros (f0 & H); discriminate].
  - destruct (StatusEffectType_eqb (effect_type a) ty); cbn [orb].
    + split; [intros _; now exists a | reflexivity].
    + exact IH.
Qed.

(** X9. Lookups after the mutators.  After [add_effect], the effect of
    that kind is present with the duration of the added effect, and with
    the value of the effect that was already there when there was one;
    effects of other kinds read as before.  After [remove_effect] the
    kind is absent and the other kinds read as before.  [has_effect]
    answers true exactly when [get_effect] finds an effect. *)
Theorem status_effects_lookup (l : StatusEffects.t) (e : StatusEffect)
    (ty : StatusEffectType) :
  (exists e',
      get_effect (add_effect l e) (effect_type e) = Some e' /\
      effect_type e' = effect_type e /\
      duration e' = duration e /\
      value e' = match get_effect l (effect_type e) with
                 | Some old => value old
                 | None => value e
                 end) /\
  (ty <> effect_type e ->
   get_effect (add_effect l e) ty = get_effect l ty) /\
  has_effect (remove_effect l ty) ty = false /\
  get_effect (remove_effect l ty) ty = None /\
  (forall other, other <> ty ->
     get_effect (remove_effect l ty) other = get_effect l other) /\
  (has_effect l ty = true <-> exists found, get_effect l ty = Some found).
Proof.
  split; [|split; [|split; [|split; [|split]]]].
  - rewrite get_effect_add, (proj2 (StatusEffectType_eqb_eq _ _) eq_refl).
    destruct (get_effect l (effect_type e)) as [old|] eqn:G.
    + apply get_effect_type in G. destruct G as [T _].
      eexists. split; [reflexivity|]. cbn. auto.
    + exists e. auto.
  - intros N. rewrite get_effect_add.
    assert (F : StatusEffectType_eqb (effect_type e) ty = false)
      by (apply StatusEffectType_eqb_neq; congruence).
    now rewrite F.
  - destruct (has_effect (remove_effect l ty) ty) eqn:H; [|reflexivity].
    apply has_effect_get in H. destruct H as (f0 & G).
    rewrite get_effect_remove in G.
    rewrite (proj2 (StatusEffectType_eqb_eq _ _) eq_refl) in G. discriminate.
  - rewrite get_effect_remove.
    now rewrite (proj2 (StatusEffectType_eqb_eq _ _) eq_refl).
  - intros other N. rewrite get_effect_remove.
    assert (F : StatusEffectType_eqb other ty = false)
      by (apply StatusEffectType_eqb_neq; congruence).
    now rewrite F.
  - apply has_effect_get.
Qed.
End StatusLookupFacts.

(** ** Cooldown *)

Section CooldownFacts.
Import Cooldown.

(** The time left after the steps [dts], subtracted one after the
    other as [update] does: [((left - dt1) - dt2) - ...]. *)
Definition running_down (left : Q) (dts : list Q) : Q :=
  fold_left Qminus dts left.

(** A cooldown that is not running is left alone by [update]. *)
Lemma updates_idle (dts : list Q) (c : Cooldown.t) :
  (remaining c <= 0)%Q -> fold_left update dts c = c.
Proof.
  intros R. induction dts as [|dt dts IH]; [reflexivity|].
  cbn [fold_left]. unfold update at 2.
  assert (P : Qltb 0 (remaining c) = false) by now apply Qltb_ge.
  rewrite P. exact IH.
Qed.

Lemma updates_running (dts : list Q) :
  forall c : Cooldown.t,
    duration (fold_left update dts c) = duration c /\
    ((exists k, (k <= length dts)%nat /\
                (running_down (remaining c) (firstn k dts) <= 0)%Q) ->
     (remaining (fold_left update dts c) <= 0)%Q) /\
    ((forall k, (k <= length dts)%nat ->
                (0 < running_down (remaining c) (firstn k dts))%Q) ->
     remaining (fold_left update dts c)
     = running_down (remaining c) dts).
Proof.
  induction dts as [|dt dts IH]; intros c.
  - cbn [fold_left length]. split; [reflexivity|]. split.
    + intros (k & K & L). assert (k = O) by lia. subst k. exact L.
    + intros _. reflexivity.
  - cbn [fold_left length].
    destruct (IH (update c dt)) as (D & Done & Going).
    assert (U : duration (update c dt) = duration c).
    { unfold update. now destruct (Qltb 0 (remaining c)). }
    split; [congruence|]. split.
    + intros (k & K & L).
      destruct (Qltb 0 (remaining c)) eqn:P.
      * apply Qltb_lt in P. destruct k as [|k].
        { cbn in L. lra. }
        cbn [firstn] in L. unfold running_down in L. cbn [fold_left] in L.
        fold (running_down (remaining c - dt) (firstn k dts)) in L.
        destruct (Qltb (remaining c - dt) 0) eqn:N.
        -- rewrite updates_idle; unfold update; rewrite (proj2 (Qltb_lt _ _) P), N;
             cbn [remaining]; lra.
        -- apply Done. exists k. split; [lia|].
           unfold update. rewrite (proj2 (Qltb_lt _ _) P), N.
           cbn [remaining]. exact L.
      * apply Qltb_ge in P. rewrite updates_idle; unfold update;
          rewrite (proj2 (Qltb_ge _ _) P); exact P.
    + intros Pos.
      assert (P : (0 < remaining c)%Q) by (apply (Pos O); lia).
      assert (N : (0 < remaining c - dt)%Q).
      { specialize (Pos 1%nat). cbn in Pos. apply Pos. lia. }
      assert (E : remaining (update c dt) = (remaining c - dt)%Q).
      { unfold update. rewrite (proj2 (Qltb_lt _ _) P).
        assert (F : Qltb (remaining c - dt) 0 = false)
          by (apply Qltb_ge; lra).
        rewrite F. reflexivity. }
      rewrite Going.
      * rewrite E. reflexivity.
      * intros k K. rewrite E. apply (Pos (S k)). lia.
Qed.

(** X10. A ready cooldown can be triggered.  After that it is ready
    again exactly when the time left, lowered by the update steps one
    after the other as [update] does, was 0 or less after some number
    of the steps; from then on it stays ready whatever the later steps
    are.  While the time left so far stayed positive, [remaining] is
    that time left, and another [trigger] fails and changes nothing. *)
Theorem cooldown_ready_after_duration (c : Cooldown.t) (dts : list Q) :
  is_ready c = true ->
  let c1 := snd (trigger c) in
  let c2 := fold_left update dts c1 in
  fst (trigger c) = true /\
  remaining c1 = duration c /\
  duration c2 = duration c /\
  (is_ready c2 = true <->
   exists k, (k <= length dts)%nat /\
             (running_down (duration c) (firstn k dts) <= 0)%Q) /\
  ((forall k, (k <= length dts)%nat ->
              (0 < running_down (duration c) (firstn k dts))%Q) ->
   remaining c2 = running_down (duration c) dts /\
   get_remaining c2 = running_down (duration c) dts /\
   trigger c2 = (false, c2)).
Proof.
  intros Rdy. unfold trigger at 1 2 3. rewrite Rdy. cbn [fst snd].
  set (c1 := {| duration := duration c; remaining := duration c |}).
  destruct (updates_running dts c1) as (U1 & Done & Going).
  cbn [duration remaining c1] in U1, Done, Going. cbv zeta.
  split; [reflexivity|]. split; [reflexivity|]. split; [exact U1|].
  assert (Pos : (forall k, (k <= length dts)%nat ->
                   (0 < running_down (duration c) (firstn k dts))%Q) ->
                remaining (fold_left update dts c1)
                = running_down (duration c) dts /\
                (0 < remaining (fold_left update dts c1))%Q).
  { intros P. rewrite (Going P). split; [reflexivity|].
    specialize (P (length dts) (Nat.le_refl _)).
    now rewrite firstn_all in P. }
  split.
  - unfold is_ready. rewrite Qle_bool_iff. split; [|exact Done].
    intros L.
    assert (Dec : forall n,
               (exists k, (k <= n)%nat /\
                  (running_down (duration c) (firstn k dts) <= 0)%Q)
               \/ forall k, (k <= n)%nat ->
                    (0 < running_down (duration c) (firstn k dts))%Q).
    { induction n as [|n [(k & K & Z)|IHn]].
      - destruct (Qlt_le_dec 0 (running_down (duration c) (firstn 0 dts)))
          as [G|G].
        + right. intros k K. assert (k = O) by lia. now subst k.
        + left. exists O. split; [lia | exact G].
      - left. exists k. split; [lia | exact Z].
      - destruct (Qlt_le_dec 0
                    (running_down (duration c) (firstn (S n) dts)))
          as [G|G].
        + right. intros k K. destruct (Nat.eq_dec k (S n)) as [->|N];
            [exact G | apply IHn; lia].
        + left. exists (S n). split; [lia | exact G]. }
    destruct (Dec (length dts)) as [E|P]; [exact E|].
    destruct (Pos P) as [_ G]. lra.
  - intros P. destruct (Pos P) as [E G]. split; [exact E|]. split.
    + unfold get_remaining. rewrite (proj2 (Qltb_lt _ _) G). exact E.
    + unfold trigger, is_ready.
      destruct (Qle_bool (remaining (fold_left update dts c1)) 0) eqn:R;
        [|reflexivity].
      apply Qle_bool_iff in R. lra.
Qed.
End CooldownFacts.

Lemma cooldown_ready_after_duration_witness :
  Cooldown.is_ready
    (fold_left Cooldown.update [1%Q; 1%Q; 5%Q]
       (snd (Cooldown.trigger (Cooldown.init 2)))) = true
  <-> exists k, (k <= 3)%nat /\
                (running_down 2 (firstn k [1%Q; 1%Q; 5%Q]) <= 0)%Q.
Proof.
  destruct (cooldown_ready_after_duration (Cooldown.init 2) [1%Q; 1%Q; 5%Q])
    as (_ & _ & _ & A & _).
  - reflexivity.
  - exact A.
Defined.

(** ** Weapon cycling *)

Section SwitchWeaponFacts.
Import PlayerController.

(** X11. [switch_weapon] moves the weapon type [direction] places round
    the cycle sword, spear, crossbow; a switch by [-direction] restores
    the type, and so does one by a multiple of three.  The attack delay,
    range and penetration are those of the new type alone; the time of
    the last attack, the ammunition and the range multiplier are kept. *)
Theorem switch_weapon_cycle (weapon : Weapon) (direction : Z) :
  let w' := switch_weapon weapon direction in
  index_of (weapon_type w')
  = (index_of (weapon_type weapon) + direction) mod 3 /\
  weapon_type (switch_weapon w' (- direction)) = weapon_type weapon /\
  (direction mod 3 = 0 -> weapon_type w' = weapon_type weapon) /\
  (forall other : Weapon,
      weapon_type other = weapon_type weapon ->
      attack_delay (switch_weapon other direction) = attack_delay w' /\
      range (switch_weapon other direction) = range w' /\
      penetration (switch_weapon other direction) = penetration w') /\
  last_attack_time w' = last_attack_time weapon /\
  ammo w' = ammo weapon /\
  range_multiplier w' = range_multiplier weapon.
Proof.
  assert (Idx : forall w d,
             index_of (weapon_type (switch_weapon w d))
             = (index_of (weapon_type w) + d) mod 3).
  { intros w d. unfold switch_weapon.
    pose proof (Z.mod_pos_bound (index_of (weapon_type w) + d) 3 ltac:(lia))
      as B.
    assert (C : (index_of (weapon_type w) + d) mod 3 = 0 \/
                (index_of (weapon_type w) + d) mod 3 = 1 \/
                (index_of (weapon_type w) + d) mod 3 = 2) by lia.
    destruct C as [E | [E | E]]; rewrite E; reflexivity. }
  assert (Inj : forall a b, index_of a = index_of b -> a = b).
  { intros [] []; cbn; intros; congruence || lia. }
  assert (Rng : forall a, 0 <= index_of a < 3).
  { intros []; cbn; lia. }
  cbv zeta. split; [apply Idx|]. split.
  { apply Inj. rewrite Idx, Idx.
    rewrite Zplus_mod_idemp_l.
    replace (index_of (weapon_type weapon) + direction + - direction)
      with (index_of (weapon_type weapon)) by lia.
    apply Z.mod_small, Rng. }
  split.
  { intros M. apply Inj. rewrite Idx.
    rewrite <- Zplus_mod_idemp_r, M, Z.add_0_r.
    apply Z.mod_small, Rng. }
  split.
  { intros other T. unfold switch_weapon. rewrite T.
    destruct (nth (Z.to_nat ((index_of (weapon_type weapon) + direction) mod 3))
                weapons SWORD); cbn; auto. }
  unfold switch_weapon.
  destruct (nth (Z.to_nat ((index_of (weapon_type weapon) + direction) mod 3))
              weapons SWORD); cbn; auto.
Qed.
End SwitchWeaponFacts.

(** ** InputBuffer *)

Section InputBufferFacts.
Import InputBuffer.

Lemma lookup_store (l : list (string * Q)) (action other : string) (v : Q) :
  lookup other (store action v l)
  = if String.eqb action other then Some v else lookup other l.
Proof.
  induction l as [|[k v0] l IH]; cbn [store lookup].
  - reflexivity.
  - destruct (String.eqb k action) eqn:E; cbn [lookup].
    + apply String.eqb_eq in E. subst k.
      now destruct (String.eqb action other).
    + rewrite IH. destruct (String.eqb k other) eqn:F; [|reflexivity].
      apply String.eqb_eq in F. subst k.
      rewrite String.eqb_sym in E. now rewrite E.
Qed.

Lemma lookup_delete (l : list (string * Q)) (action other : string) :
  lookup other (delete action l)
  = if String.eqb action other then None else lookup other l.
Proof.
  unfold delete.
  induction l as [|[k v0] l IH]; cbn [filter lookup fst].
  - now destruct (String.eqb action other).
  - destruct (String.eqb k action) eqn:E; cbn [negb lookup].
    + rewrite IH. apply String.eqb_eq in E. subst k.
      now destruct (String.eqb action other).
    + rewrite IH. destruct (String.eqb k other) eqn:F; [|reflexivity].
      apply String.eqb_eq in F. subst k.
      rewrite String.eqb_sym in E. now rewrite E.
Qed.

Lemma delete_absent (l : list (string * Q)) (action : string) :
  lookup action l = None -> delete action l = l.
Proof.
  unfold delete.
  induction l as [|[k v0] l IH]; cbn [filter lookup fst]; [reflexivity|].
  destruct (String.eqb k action); [discriminate|].
  cbn [negb]. intros H. now rewrite IH.
Qed.

(** X12. An action buffered at time [t] is consumed by the first
    [consume_action], which succeeds exactly when no more than
    [buffer_time] has passed since [t] (whatever was buffered for that
    action before); either way the action is gone afterwards, so a second
    [consume_action] fails and changes nothing.  The other buffered
    actions are left as they were. *)
Theorem buffered_action_consumed_once (b : InputBuffer.t)
    (action : string) (t now : Q) :
  let (consumed, b') := consume_action (buffer_action b action t) action now in
  (consumed = true <-> (now - t <= buffer_time b)%Q) /\
  lookup action (buffered_actions b') = None /\
  (forall later, consume_action b' action later = (false, b')) /\
  buffer_time b' = buffer_time b /\
  (forall other, other <> action ->
     lookup other (buffered_actions b') = lookup other (buffered_actions b)).
Proof.
  unfold consume_action, buffer_action. cbn [buffered_actions buffer_time].
  rewrite lookup_store, String.eqb_refl.
  set (b' := {| buffer_time := buffer_time b;
                buffered_actions :=
                  delete action (store action t (buffered_actions b)) |}).
  assert (Gone : lookup action (buffered_actions b') = None).
  { cbn. now rewrite lookup_delete, String.eqb_refl. }
  assert (Rest : forall other, other <> action ->
             lookup other (buffered_actions b')
             = lookup other (buffered_actions b)).
  { intros other N. cbn. rewrite lookup_delete, lookup_store.
    destruct (String.eqb action other) eqn:E; [|reflexivity].
    apply String.eqb_eq in E. congruence. }
  destruct (Qle_bool (now - t) (buffer_time b)) eqn:Q.
  - split; [split; [intros _; now apply Qle_bool_iff | reflexivity]|].
    split; [exact Gone|]. split; [|split; [reflexivity | exact Rest]].
    intros later. now rewrite Gone.
  - split.
    { split; [discriminate|]. intros L. apply Qle_bool_iff in L. congruence. }
    split; [exact Gone|]. split; [|split; [reflexivity | exact Rest]].
    intros later. now rewrite Gone.
Qed.

Lemma lookup_deletes (ks : list string) :
  forall (l : list (string * Q)) (action : string),
    lookup action (fold_left (fun l k => delete k l) ks l)
    = if in_dec string_dec action ks then None else lookup action l.
Proof.
  induction ks as [|k ks IH]; intros l action; cbn [fold_left].
  - reflexivity.
  - rewrite IH, lookup_delete.
    destruct (in_dec string_dec action ks) as [I|NI];
      destruct (in_dec string_dec action (k :: ks)) as [J|NJ];
      try reflexivity.
    + exfalso. apply NJ. now right.
    + destruct J as [<-|J]; [|contradiction].
      now rewrite String.eqb_refl.
    + destruct (String.eqb k action) eqn:E; [|reflexivity].
      apply String.eqb_eq in E. exfalso. apply NJ. now left.
Qed.

Lemma keys_delete (l : list (string * Q)) (action : string) :
  NoDup (map fst l) -> NoDup (map fst (delete action l)).
Proof.
  unfold delete. induction l as [|[k v] l IH]; cbn [filter map fst];
    intros ND; [constructor|].
  inversion ND as [|x xs NI ND' E]; subst.
  destruct (String.eqb k action); cbn [negb map fst]; [now apply IH|].
  constructor; [|now apply IH].
  intros I. apply NI. apply in_map_iff in I.
  destruct I as ([k1 v1] & E1 & I1). apply filter_In in I1.
  apply in_map_iff. exists (k1, v1). tauto.
Qed.

Lemma keys_deletes (ks : list string) :
  forall l : list (string * Q),
    NoDup (map fst l) ->
    NoDup (map fst (fold_left (fun l k => delete k l) ks l)).
Proof.
  induction ks as [|k ks IH]; intros l ND; cbn [fold_left]; [exact ND|].
  apply IH, keys_delete, ND.
Qed.

Lemma keys_store (l : list (string * Q)) (action : string) (v : Q) :
  NoDup (map fst l) -> NoDup (map fst (store action v l)).
Proof.
  induction l as [|[k v0] l IH]; cbn [store map fst]; intros ND.
  - repeat constructor. intros [].
  - inversion ND as [|x xs NI ND' E]; subst.
    destruct (String.eqb k action) eqn:E; cbn [map fst]; [exact ND|].
    constructor; [|now apply IH].
    intros I. apply in_map_iff in I. destruct I as ([k1 v1] & E1 & I1).
    cbn in E1. subst k1.
    assert (L : lookup k (store action v l) <> None).
    { clear - I1. induction (store action v l) as [|[a q] s IHs];
        [destruct I1|]. cbn [lookup].
      destruct (String.eqb a k) eqn:F; [discriminate|].
      destruct I1 as [[= -> _]|I1]; [now rewrite String.eqb_refl in F|].
      now apply IHs. }
    rewrite lookup_store in L. rewrite String.eqb_sym, E in L.
    apply NI. clear - L. induction l as [|[a q] l IHl]; [now cbn in L|].
    cbn [lookup] in L. cbn [map fst].
    destruct (String.eqb a k) eqn:F.
    + left. now apply String.eqb_eq.
    + right. now apply IHl.
Qed.

Lemma lookup_In (l : list (string * Q)) (action : string) (v : Q) :
  NoDup (map fst l) ->
  (lookup action l = Some v <-> In (action, v) l).
Proof.
  induction l as [|[k v0] l IH]; cbn [lookup map fst]; intros ND.
  - split; [discriminate | intros []].
  - inversion ND as [|x xs NI ND' E]; subst.
    destruct (String.eqb k action) eqn:E.
    + apply String.eqb_eq in E. subst k. split.
      * intros [= ->]. now left.
      * intros [[= ->]|I]; [reflexivity|].
        exfalso. apply NI. apply in_map_iff. now exists (action, v).
    + rewrite (IH ND'). split; [now right|].
      intros [[= -> _]|I]; [|exact I].
      now rewrite String.eqb_refl in E.
Qed.

(** X13. With one entry per action (which [buffer_action],
    [consume_action] and [update] all preserve), [update] drops exactly
    the actions buffered more than [buffer_time] ago and keeps the
    others with their time stamps.  So running [update] first never
    changes what a [consume_action] at the same time answers. *)
Theorem input_buffer_update (b : InputBuffer.t) (now : Q) (action : string) :
  NoDup (map fst (buffered_actions b)) ->
  lookup action (buffered_actions (update b now))
  = match lookup action (buffered_actions b) with
    | Some timestamp =>
        if Qltb (buffer_time b) (now - timestamp) then None
        else Some timestamp
    | None => None
    end /\
  fst (consume_action (update b now) action now)
  = fst (consume_action b action now) /\
  NoDup (map fst (buffered_actions (update b now))) /\
  (forall t, NoDup (map fst (buffered_actions (buffer_action b action t)))) /\
  NoDup (map fst (buffered_actions (snd (consume_action b action now)))).
Proof.
  intros ND.
  assert (L : lookup action (buffered_actions (update b now))
              = match lookup action (buffered_actions b) with
                | Some timestamp =>
                    if Qltb (buffer_time b) (now - timestamp) then None
                    else Some timestamp
                | None => None
                end).
  { unfold update. cbn [buffered_actions]. rewrite lookup_deletes.
    set (late := fun p : string * Q => Qltb (buffer_time b) (now - snd p)).
    destruct (in_dec string_dec action
                (map fst (filter late (buffered_actions b)))) as [I|NI].
    - apply in_map_iff in I. destruct I as ([k v] & E & I).
      cbn in E. subst k. apply filter_In in I. destruct I as [I Lt].
      apply (lookup_In _ _ _ ND) in I. rewrite I.
      unfold late in Lt. cbn [snd] in Lt. now rewrite Lt.
    - destruct (lookup action (buffered_actions b)) as [ts|] eqn:G;
        [|reflexivity].
      destruct (Qltb (buffer_time b) (now - ts)) eqn:Lt; [|reflexivity].
      exfalso. apply NI. apply in_map_iff. exists (action, ts).
      split; [reflexivity|]. apply filter_In.
      split; [now apply lookup_In | exact Lt]. }
  split; [exact L|]. split; [|split; [|split]].
  - unfold consume_action. rewrite L.
    assert (BT : buffer_time (update b now) = buffer_time b) by reflexivity.
    rewrite BT.
    destruct (lookup action (buffered_actions b)) as [ts|]; [|reflexivity].
    unfold Qltb.
    destruct (Qle_bool (now - ts) (buffer_time b)) eqn:Q; cbn [negb].
    + now rewrite Q.
    + reflexivity.
  - unfold update. cbn [buffered_actions]. apply keys_deletes, ND.
  - intros t. cbn. apply keys_store, ND.
  - unfold consume_action.
    destruct (lookup action (buffered_actions b)) as [ts|]; [|exact ND].
    destruct (Qle_bool (now - ts) (buffer_time b)); cbn;
      apply keys_delete, ND.
Qed.
End InputBufferFacts.

Definition attack_buffer : InputBuffer.t :=
  {| InputBuffer.buffer_time := 3 # 10;
     InputBuffer.buffered_actions := [("attack"%string, 1%Q); ("dash"%string, 0%Q)] |}.

Lemma input_buffer_update_witness :
  InputBuffer.lookup "dash"
    (InputBuffer.buffered_actions (InputBuffer.update attack_buffer (11 # 10)))
  = None /\
  InputBuffer.lookup "attack"
    (InputBuffer.buffered_actions (InputBuffer.update attack_buffer (11 # 10)))
  = Some 1%Q.
Proof.
  assert (ND : NoDup (map fst (InputBuffer.buffered_actions attack_buffer))).
  { cbn. repeat constructor; cbn; intuition discriminate. }
  split.
  - destruct (input_buffer_update attack_buffer (11 # 10) "dash" ND) as [A _].
    rewrite A. reflexivity.
  - destruct (input_buffer_update attack_buffer (11 # 10) "attack" ND) as [A _].
    rewrite A. reflexivity.
Defined.

(** ** EntityManager: entity ids *)

Section EntityManagerFacts.
Import EntityManager.

(** The ids in use are distinct and smaller than the next id to hand
    out. *)
Definition ids_below_next (em : EntityManager.t) : Prop :=
  NoDup (keys (entities em)) /\
  forall k, In k (keys (entities em)) -> k < next_id em.

Lemma lookup_absent (l : list (Z * Entity)) (entity_id : Z) :
  lookup entity_id l = None <-> ~ In entity_id (keys l).
Proof.
  induction l as [|[k e] l IH]; cbn [lookup keys map fst].
  - split; [intros _ [] | reflexivity].
  - destruct (Z.eqb_spec k entity_id) as [->|N].
    + split; [discriminate|]. intros H. exfalso. apply H. now left.
    + fold (keys l). rewrite IH. split.
      * intros H [E|I]; [now apply N | now apply H].
      * intros H I. apply H. now right.
Qed.

Lemma lookup_snoc (l : list (Z * Entity)) (k entity_id : Z) (e : Entity) :
  lookup entity_id (l ++ [(k, e)])
  = match lookup entity_id l with
    | Some found => Some found
    | None => if k =? entity_id then Some e else None
    end.
Proof.
  induction l as [|[k0 e0] l IH]; cbn [lookup app]; [reflexivity|].
  destruct (k0 =? entity_id); [reflexivity | exact IH].
Qed.

(** [EntityManager.clear] *)
Definition clear (em : EntityManager.t) : EntityManager.t :=
  {| entities := []; next_id := 0 |}.

(** A call on the manager, other than [clear]. *)
Inductive call :=
| Create (e : Entity)
| Remove (entity_id : Z)
| Mutate (entity_id : Z) (f : Entity -> Entity).

(** Runs the calls in order; the ids [create_entity] handed out, in
    the order they were handed out, and the manager at the end. *)
Fixpoint run (calls : list call) (em : EntityManager.t)
  : list Z * EntityManager.t :=
  match calls with
  | [] => ([], em)
  | Create e :: rest =>
      let (new_id, em') := create_entity em e in
      let (ids, em'') := run rest em' in
      (new_id :: ids, em'')
  | Remove entity_id :: rest => run rest (remove_entity em entity_id)
  | Mutate entity_id f :: rest => run rest (mutate em entity_id f)
  end.

Lemma create_entity_fresh (em : EntityManager.t) (e : Entity) :
  ids_below_next em ->
  get_entity em (next_id em) = None /\
  get_entity (snd (create_entity em e)) (next_id em) = Some e /\
  (forall other, other <> next_id em ->
     get_entity (snd (create_entity em e)) other = get_entity em other) /\
  ids_below_next (snd (create_entity em e)).
Proof.
  intros [ND Lt]. unfold create_entity, get_entity.
  cbn [entities next_id snd].
  assert (Fresh : lookup (next_id em) (entities em) = None).
  { apply lookup_absent. intros I. apply Lt in I. lia. }
  split; [exact Fresh|]. split.
  { now rewrite lookup_snoc, Fresh, Z.eqb_refl. }
  split.
  { intros other N. rewrite lookup_snoc.
    destruct (lookup other (entities em)); [reflexivity|].
    destruct (Z.eqb_spec (next_id em) other); [congruence | reflexivity]. }
  split; cbn [entities next_id]; unfold keys; rewrite map_app;
    cbn [map fst]; fold (keys (entities em)).
  - apply NoDup_app; [exact ND | repeat constructor; intros [] |].
    intros a Ha [<-|[]]. apply Lt in Ha. lia.
  - intros k I. apply in_app_iff in I.
    destruct I as [I|[<-|[]]]; [apply Lt in I|]; lia.
Qed.

Lemma remove_entity_below (em : EntityManager.t) (gone : Z) :
  ids_below_next em -> ids_below_next (remove_entity em gone).
Proof.
  intros [ND Lt]. split; cbn [remove_entity entities next_id].
  - apply NoDup_map_filter, ND.
  - intros k I. apply Lt. unfold keys in *. apply in_map_iff in I.
    destruct I as (p & E & I). apply filter_In in I.
    apply in_map_iff. exists p. tauto.
Qed.

Lemma mutate_below (em : EntityManager.t) (entity_id : Z)
    (f : Entity -> Entity) :
  ids_below_next em -> ids_below_next (mutate em entity_id f).
Proof.
  intros [ND Lt].
  split; cbn [mutate entities next_id]; rewrite keys_replace;
    [exact ND | exact Lt].
Qed.

(** The ids handed out by a run start at [next_id] and go up. *)
Lemma run_ids (calls : list call) :
  forall em,
    ids_below_next em ->
    ids_below_next (snd (run calls em)) /\
    next_id em <= next_id (snd (run calls em)) /\
    NoDup (fst (run calls em)) /\
    (forall id, In id (fst (run calls em)) ->
                next_id em <= id < next_id (snd (run calls em))) /\
    (forall id, In id (keys (entities (snd (run calls em)))) ->
                In id (keys (entities em)) \/ In id (fst (run calls em))).
Proof.
  induction calls as [|c calls IH]; intros em WF.
  - cbn [run fst snd]. split; [exact WF|]. split; [lia|].
    split; [constructor|]. split; [intros id []|]. intros id I. now left.
  - destruct c as [e | gone | entity_id f]; cbn [run].
    + destruct (create_entity_fresh em e WF) as (_ & _ & _ & WF').
      unfold create_entity in *. cbn [snd] in WF'.
      set (em' := {| entities := entities em ++ [(next_id em, e)];
                     next_id := next_id em + 1 |}) in *.
      destruct (IH em' WF') as (W & Le & ND & Rng & Src).
      cbn [next_id em'] in Le, Rng.
      destruct (run calls em') as [ids em'']. cbn [fst snd] in *.
      split; [exact W|]. split; [lia|]. split.
      { constructor; [|exact ND]. intros I. apply Rng in I. lia. }
      split.
      { intros id [<-|I]; [lia|]. apply Rng in I. lia. }
      intros id I. destruct (Src id I) as [J|J]; [|right; now right].
      cbn [entities em'] in J. unfold keys in J. rewrite map_app in J.
      apply in_app_iff in J. destruct J as [J|[<-|[]]];
        [now left | right; now left].
    + destruct (IH _ (remove_entity_below em gone WF))
        as (W & Le & ND & Rng & Src).
      cbn [remove_entity next_id] in Le, Rng.
      split; [exact W|]. split; [exact Le|]. split; [exact ND|].
      split; [exact Rng|].
      intros id I. destruct (Src id I) as [J|J]; [|now right].
      left. cbn [remove_entity entities] in J. unfold keys in *.
      apply in_map_iff in J. destruct J as (p & E & J).
      apply filter_In in J. apply in_map_iff. exists p. tauto.
    + destruct (IH _ (mutate_below em entity_id f WF))
        as (W & Le & ND & Rng & Src).
      cbn [mutate next_id] in Le, Rng.
      split; [exact W|]. split; [exact Le|]. split; [exact ND|].
      split; [exact Rng|].
      intros id I. destruct (Src id I) as [J|J]; [|now right].
      left. cbn [mutate entities] in J. now rewrite keys_replace in J.
Qed.

(** X14. Between two calls of [clear], the manager never hands out an
    id twice.  Starting from a manager whose ids in use are distinct and
    below [next_id] (an empty manager is one), after any sequence of
    [create_entity], [remove_entity] and in-place mutations: the ids
    handed out are pairwise distinct, none of them is below the
    [next_id] the sequence started from (so none was in use at the
    start), [next_id] never goes down, the ids in use are still
    distinct and below [next_id], and each of them was in use at the
    start or was handed out on the way.  So an id that was in use or
    was handed out is not handed out again, whether it was freed in the
    meantime or not.  A fresh id reads as absent
    before [create_entity] and as the new entity after it, the other
    ids reading as before; an id freed by [remove_entity] reads as
    absent.  [clear] resets [next_id] to 0, so after it ids start
    again from 0. *)
Theorem entity_ids_never_reused (calls : list call) (em : EntityManager.t)
    (e : Entity) (gone : Z) :
  ids_below_next em ->
  let (handed_out, em') := run calls em in
  NoDup handed_out /\
  (forall id, In id handed_out ->
              next_id em <= id < next_id em' /\
              ~ In id (keys (entities em))) /\
  next_id em <= next_id em' /\
  ids_below_next em' /\
  (forall id, In id (keys (entities em')) ->
              In id (keys (entities em)) \/ In id handed_out) /\
  (let (new_id, em'') := create_entity em' e in
   ~ In new_id handed_out /\
   ~ In new_id (keys (entities em)) /\
   get_entity em' new_id = None /\
   get_entity em'' new_id = Some e /\
   forall other, other <> new_id ->
                 get_entity em'' other = get_entity em' other) /\
  get_entity (remove_entity em' gone) gone = None /\
  fst (create_entity (clear em') e) = 0.
Proof.
  intros WF. destruct (run_ids calls em WF) as (W & Le & ND & Rng & Src).
  destruct (run calls em) as [handed_out em']. cbn [fst snd] in *.
  destruct WF as [ND0 Lt0].
  split; [exact ND|]. split.
  { intros id I. split; [now apply Rng|].
    intros J. apply Lt0 in J. apply Rng in I. lia. }
  split; [exact Le|]. split; [exact W|]. split; [exact Src|].
  split.
  { destruct (create_entity_fresh em' e W) as (F1 & F2 & F3 & _).
    unfold create_entity in *. cbn [snd] in F2, F3.
    split; [intros I; apply Rng in I; lia|].
    split; [intros J; apply Lt0 in J; lia|].
    split; [exact F1|]. split; [exact F2 | exact F3]. }
  split; [cbn [remove_entity entities]; apply lookup_filter_self|].
  reflexivity.
Qed.
End EntityManagerFacts.

Lemma entity_ids_never_reused_witness :
  let em := {| EntityManager.entities := [(0, hero); (1, goblin)];
               EntityManager.next_id := 2 |} in
  fst (run [Remove 1; Create goblin; Remove 2; Create brute] em) = [2; 3] /\
  NoDup (fst (run [Remove 1; Create goblin; Remove 2; Create brute] em)).
Proof.
  assert (WF : ids_below_next
                 {| EntityManager.entities := [(0, hero); (1, goblin)];
                    EntityManager.next_id := 2 |}).
  { split; cbn.
    - repeat constructor; cbn; intuition discriminate.
    - intros k [<-|[<-|[]]]; lia. }
  pose proof (entity_ids_never_reused
                [Remove 1; Create goblin; Remove 2; Create brute] _ goblin 1
                WF) as H.
  cbv zeta. split; [reflexivity|].
  destruct (run [Remove 1; Create goblin; Remove 2; Create brute] _)
    as [handed_out em'] in H |- *.
  apply H.
Defined.

(** ** CombatSystem: blows that land *)

Section DamageFacts.
Import CombatSystem.
Local Open Scope sim_scope.

Ltac run :=
  unfold bind, ret, get_entity, mutate, emit, random, remove_entity,
         raise, hang in *;
  cbn beta iota.

(** The target does not dodge: it is no "enemy", or its roll is 0.1 or
    more. *)
Definition stands (target : Entity) (w : World) : Prop :=
  forall faction,
    get_Faction target = Some faction -> tag faction = ENEMY ->
    (1 # 10 <= rolls w (rolls_drawn w))%Q.

Lemma dodges_stands (target : Entity) (w : World) :
  stands target w ->
  exists w', dodges target w = Ok false w' /\
             entity_manager w' = entity_manager w /\
             event_queue w' = event_queue w.
Proof.
  intros St. unfold dodges.
  destruct (get_Faction target) as [faction|] eqn:F;
    [|exists w; auto].
  destruct (FactionType_eqb (tag faction) ENEMY) eqn:T;
    [|exists w; auto].
  assert (E : tag faction = ENEMY) by (destruct (tag faction); now try discriminate).
  run. pose proof (St faction F E) as R.
  apply Qltb_ge in R. rewrite R. eexists. split; [reflexivity|]. auto.
Qed.

(** X15. A blow of [0 < damage < hp] on a target that does not dodge
    returns [damage], lowers the target's hp by it, queues one
    damage-taken event carrying the attacker and the crit flag, and
    touches no other entity; nothing is removed.  On a missing target,
    or one without Health, [apply_damage] returns 0 and leaves the world
    as it was, without drawing a roll. *)
Theorem apply_damage_hit (w : World) (target_id damage attacker_id : Z)
    (is_crit : bool) :
  (forall target health,
      EntityManager.get_entity (entity_manager w) target_id = Some target ->
      get_Health target = Some health ->
      stands target w ->
      0 < damage < hp health ->
      exists w',
        apply_damage target_id damage attacker_id is_crit w = Ok damage w' /\
        EntityManager.get_entity (entity_manager w') target_id
        = Some (set_Health target
                  {| max_hp := max_hp health; hp := hp health - damage |}) /\
        event_queue w'
        = event_queue w
          ++ [EVENT_DAMAGE_TAKEN target_id damage attacker_id is_crit] /\
        keys (ents w') = keys (ents w) /\
        (forall other, other <> target_id ->
           EntityManager.get_entity (entity_manager w') other
           = EntityManager.get_entity (entity_manager w) other)) /\
  (match EntityManager.get_entity (entity_manager w) target_id with
   | Some target => get_Health target = None
   | None => True
   end ->
   apply_damage target_id damage attacker_id is_crit w = Ok 0 w).
Proof.
  split.
  - intros target health Ht Hh St D.
    unfold apply_damage. run. rewrite Ht, Hh.
    destruct (dodges_stands target w St) as (w1 & R & EM & EQ).
    rewrite R. unfold take_damage. cbv zeta.
    replace (Z.max 0 (hp health - damage)) with (hp health - damage) by lia.
    cbn [hp].
    replace (hp health - (hp health - damage)) with damage by lia.
    replace (damage >? 0) with true by (symmetry; apply Z.gtb_lt; lia).
    unfold is_alive. cbn [hp].
    replace (hp health - damage >? 0) with true
      by (symmetry; apply Z.gtb_lt; lia).
    cbn [negb]. eexists. split; [reflexivity|].
    cbn [entity_manager event_queue set_entity_manager].
    unfold EntityManager.get_entity, EntityManager.mutate, ents.
    cbn [EntityManager.entities entity_manager]. rewrite EM, EQ.
    split.
    { rewrite lookup_replace_self.
      unfold EntityManager.get_entity in Ht. now rewrite Ht. }
    split; [reflexivity|]. split; [apply keys_replace|].
    intros other N. now apply lookup_replace_other.
  - intros H. unfold apply_damage. run.
    destruct (EntityManager.get_entity (entity_manager w) target_id)
      as [target|]; [now rewrite H | reflexivity].
Qed.

(** The world right after a blow that took the last hp of the target:
    hp 0 stored, the damage-taken event queued. *)
Definition struck_down (w : World) (target_id attacker_id : Z)
    (is_crit : bool) (health : Health) : World :=
  {| entity_manager :=
       EntityManager.mutate (entity_manager w) target_id
         (fun t => set_Health t {| max_hp := max_hp health; hp := 0 |});
     event_queue :=
       event_queue w
       ++ [EVENT_DAMAGE_TAKEN target_id (hp health) attacker_id is_crit];
     rolls := rolls w;
     rolls_drawn := rolls_drawn w |}.

(** X16. A blow of [damage >= hp > 0] on a target that does not dodge
    is capped: [apply_damage] stores hp 0, queues a damage-taken event
    that carries the hp the target had, and then runs [handle_death];
    it ends as [handle_death] ends, and when that returns it returns
    the hp the target had, whoever the attacker is.  When the attacker
    is not in the store or carries no Faction, [handle_death] does
    nothing: the target stays in the store with hp 0 and no death event
    follows. *)
Theorem apply_damage_lethal_unclaimed (w : World)
    (target_id damage attacker_id : Z) (is_crit : bool)
    (target : Entity) (health : Health) :
  EntityManager.get_entity (entity_manager w) target_id = Some target ->
  get_Health target = Some health ->
  stands target w ->
  0 < hp health <= damage ->
  exists w1,
    dodges target w = Ok false w1 /\
    entity_manager w1 = entity_manager w /\
    event_queue w1 = event_queue w /\
    apply_damage target_id damage attacker_id is_crit w
    = match handle_death target_id attacker_id
              (struck_down w1 target_id attacker_id is_crit health) with
      | Ok _ w' => Ok (hp health) w'
      | Raise e w' => Raise e w'
      | Hang => Hang
      end /\
    (match EntityManager.get_entity (entity_manager w) attacker_id with
     | Some attacker =>
         attacker_id <> target_id /\ get_Faction attacker = None
     | None => True
     end ->
     apply_damage target_id damage attacker_id is_crit w
     = Ok (hp health)
         (struck_down w1 target_id attacker_id is_crit health) /\
     EntityManager.get_entity
       (entity_manager
          (struck_down w1 target_id attacker_id is_crit health)) target_id
     = Some (set_Health target {| max_hp := max_hp health; hp := 0 |}) /\
     keys (ents (struck_down w1 target_id attacker_id is_crit health))
     = keys (ents w)).
Proof.
  intros Ht Hh St D.
  destruct (dodges_stands target w St) as (w1 & R & EM & EQ).
  exists w1. split; [exact R|]. split; [exact EM|]. split; [exact EQ|].
  assert (Run : apply_damage target_id damage attacker_id is_crit w
                = match handle_death target_id attacker_id
                          (struck_down w1 target_id attacker_id is_crit
                             health) with
                  | Ok _ w' => Ok (hp health) w'
                  | Raise e w' => Raise e w'
                  | Hang => Hang
                  end).
  { unfold apply_damage. run. rewrite Ht, Hh, R.
    unfold take_damage. cbv zeta.
    replace (Z.max 0 (hp health - damage)) with 0 by lia.
    cbn [hp]. rewrite Z.sub_0_r.
    replace (hp health >? 0) with true by (symmetry; apply Z.gtb_lt; lia).
    unfold is_alive. cbn [hp negb Z.gtb Z.compare].
    unfold struck_down, set_entity_manager.
    cbn [entity_manager event_queue rolls rolls_drawn].
    destruct (handle_death target_id attacker_id _) as [[] w'|e w'|];
      reflexivity. }
  split; [exact Run|].
  intros Hk.
  set (w2 := struck_down w1 target_id attacker_id is_crit health) in *.
  set (l1 := EntityManager.replace target_id
               (fun t => set_Health t
                  {| max_hp := max_hp health; hp := 0 |})
               (EntityManager.entities (entity_manager w))).
  assert (E2 : EntityManager.entities (entity_manager w2) = l1).
  { unfold w2, struck_down, l1. cbn [entity_manager].
    unfold EntityManager.mutate. cbn [EntityManager.entities].
    now rewrite EM. }
  unfold EntityManager.get_entity in *.
  assert (K : match EntityManager.lookup attacker_id l1 with
              | Some attacker => get_Faction attacker = None
              | None => True
              end).
  { unfold l1.
    destruct (EntityManager.lookup attacker_id
                (EntityManager.entities (entity_manager w)))
      as [attacker|] eqn:A.
    - destruct Hk as [N F]. rewrite lookup_replace_other, A by exact N.
      exact F.
    - destruct (Z.eq_dec attacker_id target_id) as [->|N].
      + congruence.
      + now rewrite lookup_replace_other, A. }
  assert (F1 : EntityManager.lookup target_id l1
               = Some (set_Health target
                         {| max_hp := max_hp health; hp := 0 |})).
  { unfold l1. now rewrite lookup_replace_self, Ht. }
  assert (Idle : handle_death target_id attacker_id w2 = Ok tt w2).
  { unfold handle_death. run. unfold EntityManager.get_entity.
    rewrite E2, F1.
    destruct (EntityManager.lookup attacker_id l1) as [attacker|];
      [|reflexivity].
    rewrite K. now destruct (get_Faction (set_Health target _)). }
  split; [now rewrite Run, Idle|].
  split; [now rewrite E2|].
  unfold ents. rewrite E2. unfold l1. apply keys_replace.
Qed.
End DamageFacts.

Lemma apply_damage_hit_witness :
  exists w',
    CombatSystem.apply_damage 1 10 0 false (arena goblin (1 # 2)) = Ok 10 w' /\
    event_queue w' = [EVENT_DAMAGE_TAKEN 1 10 0 false].
Proof.
  destruct (apply_damage_hit (arena goblin (1 # 2)) 1 10 0 false) as [A _].
  destruct (A goblin {| max_hp := 30; hp := 30 |} eq_refl eq_refl)
    as (w' & R & _ & Q & _).
  - intros faction _ _. cbn. discriminate.
  - cbn. lia.
  - exists w'. split; [exact R | exact Q].
Defined.

Lemma apply_damage_lethal_unclaimed_witness :
  exists w',
    CombatSystem.apply_damage 1 99 7 true (arena goblin (1 # 2)) = Ok 30 w' /\
    keys (ents w') = [0; 1].
Proof.
  destruct (apply_damage_lethal_unclaimed (arena goblin (1 # 2)) 1 99 7 true
              goblin {| max_hp := 30; hp := 30 |} eq_refl eq_refl)
    as (w1 & _ & _ & _ & _ & Unclaimed).
  - intros faction _ _. cbn. discriminate.
  - cbn. lia.
  - destruct (Unclaimed I) as (R & _ & K).
    eexists. split; [exact R | exact K].
Defined.

(** ** CombatSystem: how an attack ends *)



Section LoopOutcome.
Import CombatSystem.
Local Open Scope sim_scope.

Variable attacker_id : Z.
Variable weapon : Weapon.
Variable damage_comp : Damage.
Variable attacker_faction : Faction.
Variable target_pos : Q * Q.
Variable range_sq : Q.
Variable l0 : list (Z * Entity).

Hypothesis l0_exp_ok : exp_ok attacker_id l0.
Hypothesis l0_NoDup : NoDup (keys l0).
(** No penetration limit: the loop never breaks. *)
Hypothesis unlimited : penetration weapon <= 0.

Let step_fn :=
  attack_step attacker_id weapon damage_comp attacker_faction
    target_pos range_sq.

Let evolved :=
  evolves attacker_id
    (targetable attacker_id attacker_faction target_pos range_sq l0) l0.

(** Without a penetration limit the loop returns only when the store
    still has the size it started with, and raises otherwise. *)
Lemma attack_loop_outcome (used : nat) (positions : list nat) :
  forall w hits,
    evolved (ents w) ->
    exists w',
      evolved (ents w') /\
      ((exists hits',
          attack_loop step_fn used positions hits w = Ok hits' w' /\
          length (ents w') = used)
       \/ (attack_loop step_fn used positions hits w
           = Raise size_changed w' /\
           length (ents w') <> used)).
Proof.
  induction positions as [|i rest IH]; intros w hits Ev;
    cbn [attack_loop]; fold (ents w);
    destruct (Nat.eqb_spec (length (ents w)) used) as [E|E]; cbn [negb].
  - exists w. split; [exact Ev|]. left. exists hits. now split.
  - exists w. split; [exact Ev|]. right. now split.
  - destruct (nth_error (ents w) i) as [[id e]|] eqn:N.
    + assert (L : EntityManager.lookup id (ents w) = Some e).
      { eapply nth_error_lookup; [|exact N].
        eapply evolves_NoDup; [exact Ev | exact l0_NoDup]. }
      destruct (attack_step_evolves attacker_id weapon damage_comp
                  attacker_faction target_pos range_sq l0 l0_exp_ok
                  w id e hits Ev L)
        as (fl & hits' & w' & R & Ev' & _ & HB & _).
      unfold step_fn at 1 3. rewrite R.
      destruct fl.
      * apply IH. exact Ev'.
      * destruct (HB eq_refl). lia.
    + exists w. split; [exact Ev|]. left. exists hits. now split.
  - exists w. split; [exact Ev|]. right. now split.
Qed.

End LoopOutcome.

Section AttackOutcomeFacts.
Import CombatSystem.
Local Open Scope sim_scope.

Ltac run :=
  unfold bind, ret, get_entity, mutate, emit, random, remove_entity,
         raise, hang in *;
  cbn beta iota.


(** X17. For a weapon without a penetration limit ([penetration <= 0])
    [perform_attack] ends in one of two ways: it returns its hit list
    and the store holds the same entities, in the same order, as
    before; or death handling removed at least one entity and the call
    ends with the RuntimeError of a dictionary that changed size during
    iteration.  So a blow that kills (and removes) a target never
    returns normally. *)
Theorem perform_attack_removal_raises (w : World) (attacker_id : Z)
    (target_pos : Q * Q) (now : Q) (attacker : Entity) (weapon : Weapon)
    (damage_comp : Damage) (faction : Faction) (transform : Transform) :
  NoDup (keys (ents w)) ->
  EntityManager.lookup attacker_id (ents w) = Some attacker ->
  get_Weapon attacker = Some weapon ->
  get_Damage attacker = Some damage_comp ->
  get_Faction attacker = Some faction ->
  get_Transform attacker = Some transform ->
  (forall ke, get_Experience attacker = Some ke -> 1 <= next_xp ke) ->
  penetration weapon <= 0 ->
  exists w',
    (exists hits,
        perform_attack attacker_id target_pos now w = Ok hits w' /\
        keys (ents w') = keys (ents w))
    \/ (perform_attack attacker_id target_pos now w
        = Raise (RuntimeError "dictionary changed size during iteration")
            w' /\
        (length (ents w') < length (ents w))%nat /\
        exists gone, In gone (keys (ents w)) /\
                     EntityManager.lookup gone (ents w') = None).
Proof.
  intros ND Ha HW HD HF HT Hexp P.
  destruct (can_attack weapon now) eqn:C.
  - destruct (perform_attack_ready w attacker_id target_pos now attacker
                weapon damage_comp faction transform ND Ha HW HD HF HT
                Hexp C) as (Run & L0a & X0 & N0 & K0).
    cbv zeta in Run, L0a, X0, N0, K0.
    set (stamped := set_last_attack_time weapon now) in *.
    set (w0 := stamp_weapon w attacker_id stamped) in *.
    destruct (attack_loop_outcome attacker_id stamped damage_comp faction
                target_pos
                (get_effective_range stamped * get_effective_range stamped)%Q
                (ents w0) X0 N0 P (length (ents w0))
                (seq 0 (length (ents w0))) w0 [])
      as (w' & Ev & Res).
    { apply evolves_refl. }
    destruct (evolves_length _ _ _ _ Ev) as [Le Same].
    assert (Len : length (ents w0) = length (ents w)).
    { rewrite <- (length_map fst (ents w0)), <- (length_map fst (ents w)).
      fold (keys (ents w0)). fold (keys (ents w)). now rewrite K0. }
    exists w'. destruct Res as [(hits & R & Sz)|[R Sz]].
    + left. exists hits. split; [now rewrite Run|].
      rewrite (Same Sz). exact K0.
    + right. split; [now rewrite Run|]. split; [lia|].
      destruct (evolves_keys _ _ _ _ Ev) as (p & Kp).
      assert (Ex : exists gone, In gone (keys (ents w0)) /\
                                ~ In gone (keys (ents w'))).
      { rewrite Kp.
        assert (Lt : (length (filter p (keys (ents w0)))
                      < length (keys (ents w0)))%nat).
        { rewrite <- Kp. unfold keys. rewrite !length_map. lia. }
        clear - Lt. induction (keys (ents w0)) as [|k ks IH];
          cbn [filter length] in *; [lia|].
        destruct (p k) eqn:Pk; cbn [length] in Lt.
        - destruct IH as (g & I & NI); [lia|]. exists g.
          split; [now right|]. intros [<-|J]; [|contradiction].
          apply NI. apply filter_In. split; [exact I | exact Pk].
        - exists k. split; [now left|]. intros J.
          apply filter_In in J. destruct J as [_ J]. congruence. }
      destruct Ex as (gone & I & NI). exists gone.
      split; [now rewrite <- K0|]. now apply lookup_absent.
  - exists w. left. exists []. split; [|reflexivity].
    unfold perform_attack. run.
    change (EntityManager.get_entity (entity_manager w) attacker_id)
      with (EntityManager.lookup attacker_id (ents w)).
    now rewrite Ha, HW, HD, HF, HT, C.
Qed.

End AttackOutcomeFacts.

Lemma perform_attack_removal_raises_witness :
  exists w',
    (exists hits,
        CombatSystem.perform_attack 0 (10%Q, 0%Q) 1 (arena goblin (1 # 2))
        = Ok hits w' /\
        keys (ents w') = [0; 1])
    \/ (CombatSystem.perform_attack 0 (10%Q, 0%Q) 1 (arena goblin (1 # 2))
        = Raise (RuntimeError "dictionary changed size during iteration") w' /\
        (length (ents w') < 2)%nat /\
        exists gone, In gone [0; 1] /\
                     EntityManager.lookup gone (ents w') = None).
Proof.
  assert (ND : NoDup (keys (ents (arena goblin (1 # 2))))).
  { repeat constructor; simpl; intuition discriminate. }
  assert (HX : forall ke, get_Experience hero = Some ke -> 1 <= next_xp ke).
  { intros ke [= <-]. simpl. lia. }
  apply (perform_attack_removal_raises (arena goblin (1 # 2)) 0 (10%Q, 0%Q) 1
           hero sword _ _ _ ND eq_refl eq_refl eq_refl eq_refl eq_refl HX).
  simpl. lia.
Defined.


(** ** HitboxManager: who is hit *)

Section CheckHitsFacts.
Import HitboxManager.

Variable check_entity : Shape -> Transform -> Collider -> bool.
Variable attacker_id : Z.
Variable entities : list (Z * Entity).
Variable exclude_ids : list Z.

Lemma existsb_Zeqb (id : Z) (l : list Z) :
  existsb (Z.eqb id) l = true <-> In id l.
Proof.
  rewrite existsb_exists. split.
  - intros (k & I & E). apply Z.eqb_eq in E. now subst.
  - intros I. exists id. split; [exact I | apply Z.eqb_refl].
Qed.

(** The shape of [hitbox] covers an entity stored under [id] that has
    a Transform and a Collider and is neither the attacker nor
    excluded. *)
Definition strikes (hitbox : Hitbox) (id : Z) : Prop :=
  id <> attacker_id /\ ~ In id exclude_ids /\
  exists e t c,
    In (id, e) entities /\
    get_Transform e = Some t /\ get_Collider e = Some c /\
    check_entity (shape hitbox) t c = true.

Let item_fn (hitbox : Hitbox) :=
  check_item check_entity hitbox attacker_id exclude_ids.

Lemma check_item_spec (hitbox : Hitbox) (hits : list Z) (id : Z)
    (e : Entity) :
  In (id, e) entities ->
  (NoDup hits -> NoDup (item_fn hitbox hits (id, e))) /\
  (forall k, In k (item_fn hitbox hits (id, e)) ->
             In k hits \/ strikes hitbox k) /\
  (forall k, In k hits -> In k (item_fn hitbox hits (id, e))) /\
  (forall t c,
      id <> attacker_id -> ~ In id exclude_ids ->
      get_Transform e = Some t -> get_Collider e = Some c ->
      check_entity (shape hitbox) t c = true ->
      In id (item_fn hitbox hits (id, e))).
Proof.
  intros I. unfold item_fn, check_item.
  destruct (Z.eqb_spec id attacker_id) as [A|A]; cbn [orb].
  { repeat split; auto. intros t c N. contradiction. }
  destruct (existsb (Z.eqb id) exclude_ids) eqn:X; cbn [orb].
  { apply existsb_Zeqb in X. repeat split; auto.
    intros t c _ N. contradiction. }
  assert (NX : ~ In id exclude_ids).
  { intros J. apply existsb_Zeqb in J. congruence. }
  destruct (existsb (Z.eqb id) hits) eqn:H.
  { apply existsb_Zeqb in H. repeat split; auto. }
  assert (NH : ~ In id hits).
  { intros J. apply existsb_Zeqb in J. congruence. }
  destruct (get_Transform e) as [t|] eqn:T;
    [|repeat split; auto; discriminate].
  destruct (get_Collider e) as [c|] eqn:C;
    [|repeat split; auto; discriminate].
  destruct (check_entity (shape hitbox) t c) eqn:K.
  - split; [|split; [|split]].
    + intros ND. apply NoDup_app; [exact ND | repeat constructor; intros [] |].
      intros a Ha [<-|[]]. contradiction.
    + intros k J. apply in_app_iff in J. destruct J as [J|[<-|[]]];
        [now left|]. right. split; [exact A|]. split; [exact NX|].
      now exists e, t, c.
    + intros k J. apply in_app_iff. now left.
    + intros. apply in_app_iff. right. now left.
  - repeat split; auto. intros t0 c0 _ _ [= <-] [= <-]. congruence.
Qed.

Lemma check_items_spec (hitbox : Hitbox) (items : list (Z * Entity)) :
  incl items entities ->
  forall hits,
    (NoDup hits -> NoDup (fold_left (item_fn hitbox) items hits)) /\
    (forall k, In k (fold_left (item_fn hitbox) items hits) ->
               In k hits \/ strikes hitbox k) /\
    (forall k, In k hits -> In k (fold_left (item_fn hitbox) items hits)) /\
    (forall id e t c,
        In (id, e) items ->
        id <> attacker_id -> ~ In id exclude_ids ->
        get_Transform e = Some t -> get_Collider e = Some c ->
        check_entity (shape hitbox) t c = true ->
        In id (fold_left (item_fn hitbox) items hits)).
Proof.
  induction items as [|[id e] items IH]; intros Sub hits; cbn [fold_left].
  - repeat split; auto. intros id e t c [].
  - assert (I : In (id, e) entities) by (apply Sub; now left).
    assert (Sub' : incl items entities)
      by (intros p Hp; apply Sub; now right).
    destruct (check_item_spec hitbox hits id e I) as (S1 & S2 & S3 & S4).
    destruct (IH Sub' (item_fn hitbox hits (id, e)))
      as (F1 & F2 & F3 & F4).
    split; [auto|]. split; [|split].
    + intros k J. destruct (F2 k J) as [J'|J']; [now apply S2 | now right].
    + auto.
    + intros id0 e0 t c [[= <- <-]|J] N X T C K.
      * apply F3. now apply (S4 t c).
      * now apply (F4 id0 e0 t c).
Qed.

Let hitbox_fn := check_hitbox check_entity attacker_id entities exclude_ids.

Lemma check_hitboxes_spec (hitboxes : list Hitbox) :
  forall hits,
    (NoDup hits -> NoDup (fold_left hitbox_fn hitboxes hits)) /\
    (forall k, In k (fold_left hitbox_fn hitboxes hits) ->
               In k hits \/
               exists h, In h hitboxes /\ is_active h = true /\ strikes h k) /\
    (forall k, In k hits -> In k (fold_left hitbox_fn hitboxes hits)) /\
    (forall h k, In h hitboxes -> is_active h = true -> strikes h k ->
                 In k (fold_left hitbox_fn hitboxes hits)).
Proof.
  induction hitboxes as [|h hitboxes IH]; intros hits; cbn [fold_left].
  - repeat split; auto. intros h k [].
  - assert (Step :
      (NoDup hits -> NoDup (hitbox_fn hits h)) /\
      (forall k, In k (hitbox_fn hits h) ->
                 In k hits \/ (is_active h = true /\ strikes h k)) /\
      (forall k, In k hits -> In k (hitbox_fn hits h)) /\
      (forall k, is_active h = true -> strikes h k ->
                 In k (hitbox_fn hits h))).
    { unfold hitbox_fn, check_hitbox.
      destruct (is_active h) eqn:Act; cbn [negb].
      - destruct (check_items_spec h entities (incl_refl _) hits)
          as (S1 & S2 & S3 & S4).
        unfold item_fn in S1, S2, S3, S4.
        split; [exact S1|]. split; [|split; [exact S3|]].
        + intros k J. destruct (S2 k J) as [J2|J2]; [now left|].
          right. now split.
        + intros k _ (N & X & e & t & c & Ie & T & C & K).
          now apply (S4 k e t c).
      - split; [auto|]. split; [now left|]. split; [auto|].
        intros k A. discriminate. }
    destruct Step as (S1 & S2 & S3 & S4).
    destruct (IH (hitbox_fn hits h)) as (F1 & F2 & F3 & F4).
    split; [auto|]. split; [|split].
    + intros k J. destruct (F2 k J) as [J'|(h' & I' & A' & K')].
      * destruct (S2 k J') as [J2|[A2 K2]]; [now left|].
        right. exists h. split; [now left | now split].
      * right. exists h'. split; [now right | now split].
    + auto.
    + intros h' k [<-|I'] A' K'; [|now apply (F4 h' k)].
      apply F3. now apply S4.
Qed.

End CheckHitsFacts.

(** X19. [check_hits] reports every entity once, and exactly the entities
    that are not the attacker, are not listed in [exclude_ids], carry a
    Transform and a Collider, and are covered by the shape of a hitbox of
    the manager whose current frame lies in its frame window. *)
Theorem check_hits_exact
    (check_entity : HitboxManager.Shape -> Transform -> Collider -> bool)
    (m : HitboxManager.t) (attacker_id : Z) (entities : list (Z * Entity))
    (exclude_ids : option (list Z)) :
  let hits :=
    HitboxManager.check_hits check_entity m attacker_id entities exclude_ids in
  let excluded := match exclude_ids with Some l => l | None => [] end in
  NoDup hits /\
  forall id,
    In id hits <->
    (id <> attacker_id /\ ~ In id excluded /\
     exists hitbox e t c,
       In hitbox (HitboxManager.active_hitboxes m) /\
       HitboxManager.start_frame hitbox
       <= HitboxManager.current_frame hitbox
       <= HitboxManager.end_frame hitbox /\
       In (id, e) entities /\
       get_Transform e = Some t /\ get_Collider e = Some c /\
       check_entity (HitboxManager.shape hitbox) t c = true).
Proof.
  cbv zeta. unfold HitboxManager.check_hits.
  set (excluded := match exclude_ids with Some l => l | None => [] end).
  replace (match exclude_ids with None => [] | Some l => l end)
    with excluded by (unfold excluded; now destruct exclude_ids).
  destruct (check_hitboxes_spec check_entity attacker_id entities excluded
              (HitboxManager.active_hitboxes m) []) as (F1 & F2 & _ & F4).
  assert (Act : forall h,
             HitboxManager.is_active h = true <->
             HitboxManager.start_frame h <= HitboxManager.current_frame h
             <= HitboxManager.end_frame h).
  { intros h. unfold HitboxManager.is_active.
    rewrite andb_true_iff, !Z.leb_le. tauto. }
  split; [apply F1; constructor|].
  intros id. split.
  - intros J. destruct (F2 id J) as [[]|(h & I & A & N & X & e & t & c & K)].
    split; [exact N|]. split; [exact X|].
    exists h, e, t, c. split; [exact I|]. split; [now apply Act | exact K].
  - intros (N & X & h & e & t & c & I & A & K).
    apply (F4 h id I); [now apply Act|].
    split; [exact N|]. split; [exact X|]. now exists e, t, c.
Qed.

(** ** Pathfinder: the path that is found *)

Section PathFacts.
Import Pathfinder.

(** One step of a king on the tile grid. *)
Definition king_step (a b : Z * Z) : Prop :=
  Z.max (Z.abs (fst b - fst a)) (Z.abs (snd b - snd a)) = 1.

(** The neighbours are the walkable tiles among the eight around. *)
Lemma get_neighbors_adjacent (pf : t) (x y : Z) (n : Z * Z) :
  In n (get_neighbors pf x y) <->
  king_step (x, y) n /\
  Level.is_walkable (level pf) (fst n) (snd n) = true.
Proof.
  unfold get_neighbors. rewrite filter_In, in_map_iff.
  unfold king_step. cbn [fst snd]. split.
  - intros [(d & <- & Hd) W]. split; [|exact W].
    unfold directions in Hd. cbn [In] in Hd. cbn [fst snd].
    repeat (destruct Hd as [<-|Hd]; [cbn [fst snd]; lia|]). destruct Hd.
  - intros [K W]. split; [|exact W].
    destruct n as [nx ny]. cbn [fst snd] in *.
    exists (nx - x, ny - y). split; [cbn [fst snd]; f_equal; lia|].
    unfold directions. cbn [In].
    assert (C : (nx - x = 0 \/ nx - x = 1 \/ nx - x = -1) /\
                (ny - y = 0 \/ ny - y = 1 \/ ny - y = -1) /\
                (nx - x <> 0 \/ ny - y <> 0)) by lia.
    destruct C as ([E1|[E1|E1]] & [E2|[E2|E2]] & C3);
      rewrite E1, E2; try tauto; lia.
Qed.

(** Centre of a tile in world coordinates. *)
Definition centre (pf : t) (tile : Z * Z) : Q * Q :=
  (inject_Z (fst tile * tile_size pf + tile_size pf / 2),
   inject_Z (snd tile * tile_size pf + tile_size pf / 2)).

(** The tiles met when following the parent pointers of a node. *)
Fixpoint tiles_back (n : Node) : list (Z * Z) :=
  match n with
  | mkNode x y _ _ parent =>
      (x, y) :: match parent with
                | Some p => tiles_back p
                | None => []
                end
  end.

(** Induction along the parent pointers. *)
Fixpoint Node_chain_ind (P : Node -> Prop)
    (base : forall x y g h, P (mkNode x y g h None))
    (link : forall x y g h p, P p -> P (mkNode x y g h (Some p)))
    (n : Node) : P n :=
  match n with
  | mkNode x y g h None => base x y g h
  | mkNode x y g h (Some p) =>
      link x y g h p (Node_chain_ind P base link p)
  end.

Lemma trace_tiles (pf : t) (n : Node) :
  trace pf n = map (centre pf) (tiles_back n).
Proof.
  induction n as [x y g h | x y g h p IH] using Node_chain_ind.
  - reflexivity.
  - cbn [trace tiles_back map]. now rewrite IH.
Qed.

(** Every parent pointer of [n] leads from a tile to one of its
    neighbours, and the last node is on [start]. *)
Fixpoint chained (pf : t) (start : Z * Z) (n : Node) : Prop :=
  match n with
  | mkNode x y _ _ parent =>
      match parent with
      | None => (x, y) = start
      | Some p =>
          In (x, y) (get_neighbors pf (node_x p) (node_y p)) /\
          chained pf start p
      end
  end.

(** Each tile of the list after the first is walkable and one king
    step away from the tile before it. *)
Definition walk (pf : t) (tiles : list (Z * Z)) : Prop :=
  forall before a b after,
    tiles = before ++ a :: b :: after ->
    king_step a b /\ Level.is_walkable (level pf) (fst b) (snd b) = true.

Lemma walk_snoc (pf : t) (tiles : list (Z * Z)) (a b : Z * Z) :
  walk pf (tiles ++ [a]) ->
  king_step a b ->
  Level.is_walkable (level pf) (fst b) (snd b) = true ->
  walk pf ((tiles ++ [a]) ++ [b]).
Proof.
  intros W K Wb before a0 b0 after E.
  destruct after as [|z after _] using rev_ind.
  - change (before ++ [a0; b0]) with (before ++ [a0] ++ [b0]) in E.
    rewrite app_assoc in E. apply app_inj_tail in E. destruct E as [E <-].
    apply app_inj_tail in E. destruct E as [_ <-]. now split.
  - change (before ++ a0 :: b0 :: after ++ [z])
      with (before ++ (a0 :: b0 :: after) ++ [z]) in E.
    rewrite app_assoc in E. apply app_inj_tail in E. destruct E as [E _].
    now apply (W before a0 b0 after).
Qed.

Lemma chained_walk (pf : t) (start : Z * Z) (n : Node) :
  chained pf start n ->
  hd_error (rev (tiles_back n)) = Some start /\
  (exists l, rev (tiles_back n) = l ++ [(node_x n, node_y n)]) /\
  walk pf (rev (tiles_back n)).
Proof.
  induction n as [x y g h | x y g h p IH] using Node_chain_ind;
    cbn [chained tiles_back rev node_x node_y app].
  - intros <-. split; [reflexivity|]. split; [now exists []|].
    intros before a b after E. apply (f_equal (@length _)) in E.
    rewrite length_app in E. cbn [length] in E. lia.
  - intros [I C]. destruct (IH C) as (H1 & (l & H2) & H3).
    apply get_neighbors_adjacent in I. destruct I as [K W].
    split; [|split].
    + rewrite H2 in *. destruct l; exact H1.
    + now exists (rev (tiles_back p)).
    + rewrite H2 in *. apply walk_snoc; trivial.
Qed.

Section Heap.
Variable heappush : list Node -> Node -> list Node.
Variable heappop : list Node -> option (Node * list Node).
Hypothesis heappush_perm :
  forall l n, Permutation (heappush l n) (n :: l).
Hypothesis heappop_perm :
  forall l, l <> [] ->
    exists n l', heappop l = Some (n, l') /\ Permutation l (n :: l').

Variable pf : t.
Variable goal : Z * Z.
Variable start : Z * Z.

Lemma push_neighbors_chained (closed_set : list (Z * Z))
    (current : Node) (neighbors : list (Z * Z)) :
  chained pf start current ->
  incl neighbors (get_neighbors pf (node_x current) (node_y current)) ->
  forall open_set,
    (forall n, In n open_set -> chained pf start n) ->
    forall n,
      In n (fold_left (push_neighbor heappush goal closed_set current)
              neighbors open_set) ->
      chained pf start n.
Proof.
  intros C. induction neighbors as [|nb neighbors IH];
    intros Sub open_set Ko; cbn [fold_left]; [exact Ko|].
  apply IH; [intros n Hn; apply Sub; now right|].
  intros n Hn. unfold push_neighbor in Hn.
  destruct (existsb (tile_eqb nb) closed_set); [now apply Ko|].
  apply (Permutation_in _ (heappush_perm _ _)) in Hn.
  destruct Hn as [<-|Hn]; [|now apply Ko].
  cbn [chained]. split; [|exact C].
  replace (fst nb, snd nb) with nb by now destruct nb.
  apply Sub. now left.
Qed.

(** A node the search returns is linked back to the start tile. *)
Lemma search_chained (fuel : nat) :
  forall open_set closed_set node,
    (forall n, In n open_set -> chained pf start n) ->
    search heappush heappop fuel pf goal open_set closed_set
    = Some (Some node) ->
    chained pf start node.
Proof.
  induction fuel as [|fuel IH]; intros open_set closed_set node Ko R;
    cbn [search] in R; [discriminate|].
  destruct open_set as [|n0 rest] eqn:Eo; [discriminate|].
  rewrite <- Eo in *.
  assert (NE : open_set <> []) by (rewrite Eo; discriminate).
  destruct (heappop_perm open_set NE) as (current & open' & Pop & Perm).
  rewrite Pop in R.
  assert (Ko' : forall n, In n open' -> chained pf start n).
  { intros n Hn. apply Ko.
    apply (Permutation_in _ (Permutation_sym Perm)). now right. }
  assert (Kcur : chained pf start current).
  { apply Ko. apply (Permutation_in _ (Permutation_sym Perm)).
    now left. }
  destruct (existsb (tile_eqb (node_x current, node_y current))
              closed_set).
  - now apply (IH open' closed_set).
  - destruct (tile_eqb (node_x current, node_y current) goal).
    + now injection R as <-.
    + eapply IH; [|exact R].
      apply push_neighbors_chained; trivial. apply incl_refl.
Qed.

End Heap.

Section HeapPaths.
Variable heappush : list Node -> Node -> list Node.
Variable heappop : list Node -> option (Node * list Node).
Hypothesis heappush_perm :
  forall l n, Permutation (heappush l n) (n :: l).
Hypothesis heappop_perm :
  forall l, l <> [] ->
    exists n l', heappop l = Some (n, l') /\ Permutation l (n :: l').

(** X20. With a tile size other than 0, [find_path] returns either
    the fallback [[(goal_x, goal_y)]] or the centres of a list of
    tiles that starts on the (replaced) start tile, ends on the
    (replaced) goal tile, and in which every further tile is walkable
    and one king step (straight or diagonal) from the tile before. *)
Theorem find_path_is_walk (pf : t) (start_x start_y goal_x goal_y : Q) :
  tile_size pf <> 0 ->
  let start_tile :=
    snap pf (floordiv start_x (tile_size pf),
             floordiv start_y (tile_size pf)) in
  let goal_tile :=
    snap pf (floordiv goal_x (tile_size pf),
             floordiv goal_y (tile_size pf)) in
  find_path heappush heappop pf start_x start_y goal_x goal_y
  = Path [(goal_x, goal_y)]
  \/ exists tiles,
       find_path heappush heappop pf start_x start_y goal_x goal_y
       = Path (map (centre pf) tiles) /\
       hd_error tiles = Some start_tile /\
       last tiles start_tile = goal_tile /\
       walk pf tiles.
Proof.
  intros Hts start_tile goal_tile.
  set (start_node :=
         mkNode (fst start_tile) (snd start_tile) 0
           (inject_Z (heuristic (fst start_tile) (snd start_tile)
                        (fst goal_tile) (snd goal_tile)))
           None).
  assert (Unfold :
      find_path heappush heappop pf start_x start_y goal_x goal_y
      = match search heappush heappop (search_fuel pf) pf goal_tile
                (heappush [] start_node) [] with
        | None => Diverges
        | Some (Some node) => Path (rev (trace pf node))
        | Some None => Path [(goal_x, goal_y)]
        end).
  { unfold find_path. destruct (Z.eqb_spec (tile_size pf) 0);
      [contradiction | reflexivity]. }
  assert (Start : forall n, In n (heappush [] start_node) ->
                            chained pf start_tile n).
  { intros n Hn. apply (Permutation_in _ (heappush_perm _ _)) in Hn.
    destruct Hn as [<-|[]]. cbn [chained start_node].
    now destruct start_tile. }
  destruct (search_terminates heappush heappop heappush_perm
              heappop_perm pf goal_tile start_tile (search_fuel pf)
              (heappush [] start_node) [])
    as (r & R & G).
  { constructor. }
  { intros tile []. }
  { intros n Hn. apply (Permutation_in _ (heappush_perm _ _)) in Hn.
    destruct Hn as [<-|[]]. left. unfold node_tile, start_node.
    cbn [node_x node_y]. now destruct start_tile. }
  { rewrite (Permutation_length (heappush_perm _ _)).
    unfold search_fuel, tile_budget. cbn [length]. lia. }
  rewrite Unfold, R. destruct r as [node|]; [|now left].
  right. exists (rev (tiles_back node)).
  pose proof (search_chained heappush heappop heappush_perm heappop_perm
                pf goal_tile start_tile (search_fuel pf) _ _ node
                Start R) as C.
  destruct (chained_walk pf start_tile node C) as (H1 & (l & H2) & H3).
  split; [|split; [exact H1 | split; [|exact H3]]].
  - now rewrite trace_tiles, map_rev.
  - rewrite H2, last_last. apply (G node eq_refl).
Qed.
End HeapPaths.

End PathFacts.

Lemma find_path_is_walk_witness :
  Pathfinder.find_path sorted_push sorted_pop (pathfinder_3x3 true)
    10 10 70 70
  = Pathfinder.Path [(70, 70)%Q]
  \/ exists tiles,
       Pathfinder.find_path sorted_push sorted_pop (pathfinder_3x3 true)
         10 10 70 70
       = Pathfinder.Path (map (centre (pathfinder_3x3 true)) tiles) /\
       hd_error tiles = Some (0, 0) /\
       last tiles (0, 0) = (2, 2) /\
       walk (pathfinder_3x3 true) tiles.
Proof.
  apply (find_path_is_walk sorted_push sorted_pop sorted_push_perm
           sorted_pop_perm (pathfinder_3x3 true) 10 10 70 70).
  discriminate.
Defined.

(** ** Experience: where the XP goes *)

Section ExperienceFacts.

(** [int(next_xp * 1.5)] *)
Definition raise_threshold (next_xp : Z) : Z :=
  py_int (inject_Z next_xp * (3 # 2)).

(** The threshold after [n] level-ups. *)
Fixpoint threshold (n : nat) (next_xp : Z) : Z :=
  match n with
  | O => next_xp
  | S n' => threshold n' (raise_threshold next_xp)
  end.

(** The XP paid for [n] level-ups. *)
Fixpoint spent (n : nat) (next_xp : Z) : Z :=
  match n with
  | O => 0
  | S n' => next_xp + spent n' (raise_threshold next_xp)
  end.

Lemma level_up_loop_account (fuel : nat) :
  forall e b b' e',
    level_up_loop fuel e b = Some (b', e') ->
    exists n : nat,
      level e' = level e + Z.of_nat n /\
      next_xp e' = threshold n (next_xp e) /\
      xp e' + spent n (next_xp e) = xp e /\
      xp_multiplier e' = xp_multiplier e /\
      (n = O -> b' = b).
Proof.
  induction fuel as [|fuel IH]; intros e b b' e' H; [discriminate|].
  cbn [level_up_loop] in H.
  destruct (xp e >=? next_xp e).
  - apply IH in H. destruct H as (n & L & T & X & M & _).
    cbn [level xp next_xp xp_multiplier] in L, T, X, M.
    exists (S n). cbn [threshold spent]. unfold raise_threshold.
    split; [lia|]. split; [exact T|]. split; [lia|].
    split; [exact M | discriminate].
  - injection H as <- <-. exists O. cbn [threshold spent].
    split; [lia|]. split; [reflexivity|]. split; [lia|]. auto.
Qed.

(** X21. Under the conditions of termination ([xp >= 0],
    [next_xp >= 1], [xp_multiplier >= 0], [amount >= 0]) [add_xp] loses
    no XP: after gaining [n] levels, the XP left plus the thresholds
    paid for the [n] levels is the old XP plus
    [int(amount * xp_multiplier)]; the new threshold is the old one
    raised [n] times by [int(next_xp * 1.5)], and the multiplier is
    unchanged.  When the credited XP stays below the threshold, no level
    is gained and false is returned. *)
Theorem add_xp_accounts (e : Experience) (amount : Z) :
  0 <= xp e ->
  1 <= next_xp e ->
  (0 <= xp_multiplier e)%Q ->
  0 <= amount ->
  exists (n : nat) (leveled_up : bool) (e' : Experience),
    add_xp e amount = Some (leveled_up, e') /\
    level e' = level e + Z.of_nat n /\
    next_xp e' = threshold n (next_xp e) /\
    xp e' + spent n (next_xp e)
    = xp e + py_int (inject_Z amount * xp_multiplier e) /\
    0 <= xp e' < next_xp e' /\
    xp_multiplier e' = xp_multiplier e /\
    (leveled_up = true <-> (0 < n)%nat) /\
    (xp e + py_int (inject_Z amount * xp_multiplier e) < next_xp e ->
     n = O).
Proof.
  intros Hx Hn Hm Ha.
  pose proof (py_int_scale_nonneg _ _ Ha Hm) as Hadj.
  destruct (level_up_loop_exits (S (Z.to_nat (xp (credit_xp e amount))))
              (credit_xp e amount) false)
    as (b' & e' & R & Hb & Hl & Hiff);
    cbn [credit_xp xp next_xp level] in *; try lia.
  destruct (level_up_loop_account _ _ _ _ _ R) as (n & L & T & X & M & B).
  cbn [credit_xp xp next_xp level xp_multiplier] in L, T, X, M.
  exists n, b', e'. split; [exact R|]. split; [exact L|].
  split; [exact T|]. split; [exact X|]. split; [exact Hb|].
  split; [exact M|]. split.
  - split.
    + intros E. apply Hiff in E. destruct E as [E|E]; [discriminate | lia].
    + intros P. apply Hiff. right. lia.
  - intros Small. destruct n as [|n]; [reflexivity|].
    cbn [spent] in X.
    assert (S0 : forall k t, 1 <= t -> 0 <= spent k t).
    { induction k as [|k IHk]; intros t Ht; cbn [spent]; [lia|].
      assert (1 <= raise_threshold t).
      { unfold raise_threshold. rewrite py_int_three_halves.
        pose proof (three_halves_ge _ Ht). lia. }
      specialize (IHk (raise_threshold t)). lia. }
    assert (1 <= raise_threshold (next_xp e)).
    { unfold raise_threshold. rewrite py_int_three_halves.
      pose proof (three_halves_ge _ Hn). lia. }
    pose proof (S0 n (raise_threshold (next_xp e))). lia.
Qed.

(** The body of the [while] loop of [add_xp]. *)
Definition level_up_step (e : Experience) : Experience :=
  {| level := level e + 1;
     xp := xp e - next_xp e;
     next_xp := raise_threshold (next_xp e);
     xp_multiplier := xp_multiplier e |}.

Lemma level_up_loop_step (fuel : nat) (e : Experience) (b : bool) :
  level_up_loop (S fuel) e b
  = if xp e >=? next_xp e then level_up_loop fuel (level_up_step e) true
    else Some (b, e).
Proof. reflexivity. Qed.

(** A threshold of 0 or -1 is left where it is by
    [int(next_xp * 1.5)]. *)
Lemma raise_threshold_stuck (next_xp : Z) :
  -1 <= next_xp <= 0 -> raise_threshold next_xp = next_xp.
Proof.
  intros H. unfold raise_threshold. rewrite py_int_three_halves.
  assert (C : next_xp = 0 \/ next_xp = -1) by lia.
  destruct C as [E | E]; rewrite E; reflexivity.
Qed.

Lemma level_up_steps_stuck (n : nat) (e : Experience) :
  -1 <= next_xp e <= 0 ->
  next_xp e <= xp e ->
  level (Nat.iter n level_up_step e) = level e + Z.of_nat n /\
  next_xp (Nat.iter n level_up_step e) = next_xp e /\
  xp (Nat.iter n level_up_step e) = xp e - Z.of_nat n * next_xp e.
Proof.
  intros Hn Hx. induction n as [|n (L & T & X)].
  - change (Nat.iter 0 level_up_step e) with e. lia.
  - change (Nat.iter (S n) level_up_step e)
      with (level_up_step (Nat.iter n level_up_step e)).
    unfold level_up_step at 1 3 5.
    cbn [level next_xp xp]. rewrite L, T, X.
    rewrite (raise_threshold_stuck _ Hn). lia.
Qed.

(** X22. With a threshold [next_xp] of 0 or -1 that the credited XP
    reaches, the loop of [add_xp] never exits: [int(next_xp * 1.5)]
    leaves such a threshold where it is, so after any number [n] of
    iterations the level is [n] higher, the threshold is the same and
    the XP, now [xp - n * next_xp], still reaches it. *)
Theorem add_xp_never_returns (e : Experience) (amount : Z) :
  -1 <= next_xp e <= 0 ->
  next_xp e <= xp e + py_int (inject_Z amount * xp_multiplier e) ->
  add_xp e amount = None /\
  (forall fuel, level_up_loop fuel (credit_xp e amount) false = None) /\
  forall n : nat,
    let e_n := Nat.iter n level_up_step (credit_xp e amount) in
    level e_n = level e + Z.of_nat n /\
    next_xp e_n = next_xp e /\
    xp e_n
    = xp e + py_int (inject_Z amount * xp_multiplier e)
      - Z.of_nat n * next_xp e /\
    next_xp e_n <= xp e_n.
Proof.
  intros Hn Hx.
  assert (A : forall fuel,
             level_up_loop fuel (credit_xp e amount) false = None).
  { intros fuel. apply level_up_loop_spins; cbn [credit_xp xp next_xp];
      [lia | assumption]. }
  split; [apply A|]. split; [exact A|].
  intros n. cbv zeta.
  destruct (level_up_steps_stuck n (credit_xp e amount)) as (L & T & X);
    cbn [credit_xp xp next_xp level] in *; try assumption.
  split; [exact L|]. split; [exact T|]. split; [exact X|].
  rewrite T, X. nia.
Qed.
End ExperienceFacts.

Lemma add_xp_accounts_witness :
  exists (n : nat) (leveled_up : bool) (e' : Experience),
    add_xp {| level := 1; xp := 40; next_xp := 50; xp_multiplier := 1 |} 100
    = Some (leveled_up, e') /\
    xp e' + spent n 50 = 140.
Proof.
  destruct (add_xp_accounts
              {| level := 1; xp := 40; next_xp := 50; xp_multiplier := 1 |}
              100)
    as (n & b & e' & R & _ & _ & X & _); cbn [xp next_xp xp_multiplier];
    try lia; try (unfold Qle; simpl; lia).
  exists n, b, e'. split; [exact R|]. exact X.
Defined.

Lemma add_xp_never_returns_witness :
  add_xp {| level := 1; xp := 0; next_xp := 0; xp_multiplier := 1 |} 5 = None
  /\ add_xp {| level := 1; xp := 3; next_xp := -1; xp_multiplier := 1 |} 0
     = None.
Proof.
  split.
  - apply (add_xp_never_returns
             {| level := 1; xp := 0; next_xp := 0; xp_multiplier := 1 |} 5);
      cbn; lia.
  - apply (add_xp_never_returns
             {| level := 1; xp := 3; next_xp := -1; xp_multiplier := 1 |} 0);
      cbn; lia.
Defined.

Section ReturnsFacts.
Import CombatSystem.
Local Open Scope sim_scope.

(** The level-up threshold of an entity with Experience is at least 1. *)
Definition exp_fine (e : Entity) : Prop :=
  forall ke, get_Experience e = Some ke -> 1 <= next_xp ke.

Definition thresholds_positive (w : World) : Prop :=
  forall id e, In (id, e) (ents w) -> exp_fine e.

(** From a world with thresholds of at least 1 the call returns, in
    such a world, a value that satisfies [post]. *)
Definition returns {A} (m : M A) (post : A -> Prop) : Prop :=
  forall w, thresholds_positive w ->
    exists a w', m w = Ok a w' /\ thresholds_positive w' /\ post a.

Lemma returns_ret {A} (a : A) (post : A -> Prop) :
  post a -> returns (ret a) post.
Proof. intros P w T. now exists a, w. Qed.

Lemma returns_bind {A B} (m : M A) (k : A -> M B) (mid : A -> Prop)
    (post : B -> Prop) :
  returns m mid -> (forall a, mid a -> returns (k a) post) ->
  returns (bind m k) post.
Proof.
  intros Hm Hk w T. destruct (Hm w T) as (a & w1 & R & T1 & P).
  destruct (Hk a P w1 T1) as (b & w2 & R2 & T2 & Q).
  exists b, w2. unfold bind. rewrite R. auto.
Qed.

Lemma In_lookup (l : list (Z * Entity)) (id : Z) (e : Entity) :
  EntityManager.lookup id l = Some e -> In (id, e) l.
Proof.
  induction l as [|[k e0] l IH]; cbn [EntityManager.lookup];
    [discriminate|].
  destruct (Z.eqb_spec k id) as [->|N].
  - intros [= ->]. now left.
  - intros H. right. now apply IH.
Qed.

Lemma In_replace (l : list (Z * Entity)) (id k : Z)
    (f : Entity -> Entity) (e' : Entity) :
  In (k, e') (EntityManager.replace id f l) ->
  In (k, e') l \/ exists e, e' = f e /\ In (k, e) l.
Proof.
  induction l as [|[k0 e0] l IH]; cbn [EntityManager.replace]; [intros []|].
  destruct (k0 =? id).
  - intros [[= <- <-]|I]; [|left; now right].
    right. exists e0. split; [reflexivity | now left].
  - intros [E|I]; [left; now left|].
    destruct (IH I) as [J|(e & -> & J)]; [left; now right|].
    right. exists e. split; [reflexivity | now right].
Qed.

Lemma returns_get_entity (id : Z) :
  returns (get_entity id) (fun o => forall e, o = Some e -> exp_fine e).
Proof.
  intros w T. eexists _, w. split; [reflexivity|]. split; [exact T|].
  intros e H. apply (T id). now apply In_lookup.
Qed.

Lemma returns_mutate (id : Z) (f : Entity -> Entity) :
  (forall e, exp_fine e -> exp_fine (f e)) ->
  returns (mutate id f) (fun _ => True).
Proof.
  intros F w T. eexists tt, _. split; [reflexivity|]. split; [|exact I].
  intros k e' H. unfold ents in H.
  cbn [entity_manager set_entity_manager EntityManager.mutate
       EntityManager.entities] in H.
  apply In_replace in H. destruct H as [H|(e & -> & H)].
  - now apply (T k).
  - apply F. now apply (T k).
Qed.

Lemma returns_emit (ev : GameEvent) : returns (emit ev) (fun _ => True).
Proof. intros w T. eexists tt, _. split; [reflexivity|]. now split. Qed.

Lemma returns_random : returns random (fun _ => True).
Proof. intros w T. eexists _, _. split; [reflexivity|]. now split. Qed.

Lemma returns_remove_entity (id : Z) :
  returns (remove_entity id) (fun _ => True).
Proof.
  intros w T. eexists tt, _. split; [reflexivity|]. split; [|exact I].
  intros k e H. unfold ents in H.
  cbn [entity_manager set_entity_manager EntityManager.remove_entity
       EntityManager.entities] in H.
  apply filter_In in H. now apply (T k).
Qed.

Lemma returns_grant_xp (killer_id : Z) (entity killer : Entity)
    (faction : Faction) :
  exp_fine killer ->
  returns (grant_xp killer_id entity killer faction) (fun _ => True).
Proof.
  intros K. unfold grant_xp.
  destruct (get_Experience entity) as [exp|];
    [|now apply returns_ret].
  destruct (get_Experience killer) as [killer_exp|] eqn:KE;
    [|now apply returns_ret].
  destruct (add_xp_returns killer_exp (xp_reward (level exp) faction)
              (K _ KE)) as (b & ke' & A & Hn).
  unfold add_xp_to. rewrite A.
  apply returns_bind with (mid := fun _ => True).
  - apply returns_bind with (mid := fun _ => True).
    + apply returns_mutate. intros e _ ke [= <-]. exact Hn.
    + intros _ _. now apply returns_ret.
  - intros r _. destruct (fst r);
      [apply returns_emit | now apply returns_ret].
Qed.

Lemma returns_handle_death (entity_id killer_id : Z) :
  returns (handle_death entity_id killer_id) (fun _ => True).
Proof.
  unfold handle_death.
  eapply returns_bind; [apply returns_get_entity|].
  intros entity _.
  eapply returns_bind; [apply returns_get_entity|].
  intros killer K. cbn beta in K.
  destruct entity as [entity|]; [|now apply returns_ret].
  destruct killer as [killer|]; [|now apply returns_ret].
  destruct (get_Faction entity) as [faction|]; [|now apply returns_ret].
  destruct (get_Faction killer); [|now apply returns_ret].
  destruct (tag faction); try apply returns_emit;
    try (now apply returns_ret);
    (eapply returns_bind; [apply returns_grant_xp; now apply K|];
     intros _ _;
     eapply returns_bind; [apply returns_emit|];
     intros _ _; apply returns_remove_entity).
Qed.

Lemma returns_apply_damage (target_id damage attacker_id : Z)
    (is_crit : bool) :
  returns (apply_damage target_id damage attacker_id is_crit)
    (fun _ => True).
Proof.
  unfold apply_damage.
  eapply returns_bind; [apply returns_get_entity|].
  intros target _.
  destruct target as [target|]; [|now apply returns_ret].
  destruct (get_Health target) as [health|]; [|now apply returns_ret].
  apply returns_bind with (mid := fun _ => True).
  - unfold dodges. destruct (get_Faction target) as [f|];
      [|now apply returns_ret].
    destruct (FactionType_eqb (tag f) ENEMY); [|now apply returns_ret].
    eapply returns_bind; [apply returns_random|].
    intros roll _. now apply returns_ret.
  - intros dodged _. destruct dodged; [now apply returns_ret|].
    destruct (take_damage health damage) as [actual health'].
    apply returns_bind with (mid := fun _ => True).
    { apply returns_mutate. intros e F ke. cbn [set_Health get_Experience].
      apply F. }
    intros _ _.
    apply returns_bind with (mid := fun _ => True);
      [|intros _ _; now apply returns_ret].
    destruct (actual >? 0); [|now apply returns_ret].
    eapply returns_bind; [apply returns_emit|]. intros _ _.
    destruct (negb (is_alive health'));
      [apply returns_handle_death | now apply returns_ret].
Qed.

Lemma returns_damage_hits (attacker_id : Z) (damage_comp : Damage)
    (hit_entities : list Z) :
  returns (WeaponAttackSystem.damage_hits attacker_id damage_comp
             hit_entities) (fun _ => True).
Proof.
  induction hit_entities as [|id rest IH];
    cbn [WeaponAttackSystem.damage_hits]; [now apply returns_ret|].
  eapply returns_bind; [apply returns_random|]. intros roll _.
  destruct (calculate_damage damage_comp None roll) as [damage is_crit].
  eapply returns_bind; [apply returns_apply_damage|]. intros _ _.
  exact IH.
Qed.

End ReturnsFacts.

Section AttackFramesFacts.
Import CombatSystem WeaponAttackSystem.
Local Open Scope sim_scope.

Lemma returns_weaken {A} (m : M A) (p q : A -> Prop) :
  returns m p -> (forall a, p a -> q a) -> returns m q.
Proof.
  intros H W w T. destruct (H w T) as (a & w' & R & T' & P).
  exists a, w'. auto.
Qed.

Lemma keys_bump (attacker_id : Z) (frames : list (Z * Z)) :
  map fst (bump attacker_id frames) = map fst frames.
Proof.
  induction frames as [|[k v] frames IH]; cbn [bump map fst];
    [reflexivity|].
  destruct (k =? attacker_id); cbn [map fst]; [reflexivity|].
  now rewrite IH.
Qed.

Lemma In_bump (attacker_id k v : Z) (frames : list (Z * Z)) :
  NoDup (map fst frames) ->
  In (k, v) (bump attacker_id frames) ->
  (k <> attacker_id /\ In (k, v) frames)
  \/ (k = attacker_id /\ In (k, v - 1) frames).
Proof.
  induction frames as [|[k0 v0] frames IH]; cbn [bump map fst];
    intros ND; [intros []|].
  inversion ND as [|x xs NI ND' E]; subst.
  destruct (Z.eqb_spec k0 attacker_id) as [->|N].
  - intros [[= <- <-]|I].
    + right. split; [reflexivity|]. left. f_equal. lia.
    + left. split; [|now right]. intros ->. apply NI.
      apply in_map_iff. now exists (attacker_id, v).
  - intros [[= <- <-]|I]; [left; split; [exact N | now left]|].
    destruct (IH ND' I) as [[A B]|[A B]]; [left | right];
      (split; [exact A | now right]).
Qed.

Lemma In_drop (attacker_id k v : Z) (frames : list (Z * Z)) :
  In (k, v) (drop attacker_id frames) ->
  k <> attacker_id /\ In (k, v) frames.
Proof.
  unfold drop. intros H. apply filter_In in H. destruct H as [I E].
  cbn [fst] in E. split; [|exact I].
  intros ->. now rewrite Z.eqb_refl in E.
Qed.

Variable check_entity :
  HitboxManager.Shape -> Transform -> Collider -> bool.

(** What the loop over the attackers leaves in [attack_frames]. *)
Definition frames_advanced (attackers : list Z)
    (frames frames' : list (Z * Z)) : Prop :=
  NoDup (map fst frames') /\
  forall k v',
    In (k, v') frames' ->
    (In k attackers /\ In (k, v' - 1) frames)
    \/ (~ In k attackers /\ In (k, v') frames).

Lemma returns_attackers_loop (hm : HitboxManager.t)
    (attackers : list Z) :
  forall frames,
    NoDup attackers -> NoDup (map fst frames) ->
    returns (attackers_loop check_entity hm attackers frames)
      (frames_advanced attackers frames).
Proof.
  induction attackers as [|a rest IH]; intros frames NA NF;
    cbn [attackers_loop].
  { apply returns_ret. split; [exact NF|]. intros k v' I. now right. }
  inversion NA as [|x xs NI NA' E]; subst.
  assert (N1 : NoDup (map fst (bump a frames)))
    by now rewrite keys_bump.
  assert (Keep : returns
                   (attackers_loop check_entity hm rest (bump a frames))
                   (frames_advanced (a :: rest) frames)).
  { eapply returns_weaken; [apply (IH _ NA' N1)|].
    intros frames' [ND Adv]. split; [exact ND|].
    intros k v' I. destruct (Adv k v' I) as [[R B]|[R B]].
    - left. split; [now right|].
      apply In_bump in B; [|exact NF].
      destruct B as [[_ B]|[-> _]]; [exact B | contradiction].
    - apply In_bump in B; [|exact NF].
      destruct B as [[N B]|[-> B]].
      + right. split; [|exact B]. intros [<-|J]; [now apply N | now apply R].
      + left. split; [now left | exact B]. }
  assert (Drop : returns
                   (attackers_loop check_entity hm rest
                      (drop a (bump a frames)))
                   (frames_advanced (a :: rest) frames)).
  { eapply returns_weaken.
    - apply (IH _ NA'). unfold drop. now apply NoDup_map_filter.
    - intros frames' [ND Adv]. split; [exact ND|].
      intros k v' I. destruct (Adv k v' I) as [[R B]|[R B]];
        apply In_drop in B; destruct B as [N B];
        apply In_bump in B; try exact NF;
        destruct B as [[_ B]|[-> _]]; try contradiction.
      + left. split; [now right | exact B].
      + right. split; [|exact B].
        intros [<-|J]; [now apply N | now apply R]. }
  eapply returns_bind; [apply returns_get_entity|].
  intros attacker _. destruct attacker as [attacker|]; [|exact Drop].
  destruct (get_Weapon attacker) as [weapon|]; [|exact Drop].
  destruct (get_Damage attacker) as [damage_comp|]; [|exact Drop].
  apply returns_bind with (mid := fun _ => True); [|intros _ _; exact Keep].
  intros w T. now apply returns_damage_hits.
Qed.

(** X24. In a world where every Experience has a threshold
    [next_xp >= 1], [update_attack_frames] returns, also when a hit
    kills a target and death handling removes it, and leaves such a
    world; the hitbox manager is the updated one, [attack_frames] keeps
    one entry per attacker, and every attacker that is still listed has
    its frame counter raised by exactly one. *)
Theorem update_attack_frames_returns (s : WeaponAttackSystem.t) (dt : Q)
    (w : World) :
  thresholds_positive w ->
  NoDup (map fst (attack_frames s)) ->
  exists s' w',
    update_attack_frames check_entity s dt w = Ok s' w' /\
    thresholds_positive w' /\
    HitboxManager.update (hitbox_manager s) = Some (hitbox_manager s') /\
    NoDup (map fst (attack_frames s')) /\
    forall k v',
      In (k, v') (attack_frames s') -> In (k, v' - 1) (attack_frames s).
Proof.
  unfold update_attack_frames. rewrite update_purges.
  intros T ND.
  destruct (returns_attackers_loop
              {| HitboxManager.active_hitboxes :=
                   filter (fun h => negb (HitboxManager.expired h))
                     (map (HitboxManager.stamp
                             (HitboxManager.frame_counter
                                (hitbox_manager s) + 1))
                        (HitboxManager.active_hitboxes
                           (hitbox_manager s)));
                 HitboxManager.frame_counter :=
                   HitboxManager.frame_counter (hitbox_manager s) + 1 |}
              (map fst (attack_frames s)) (attack_frames s) ND ND w T)
    as (frames' & w' & R & T' & ND' & Adv).
  eexists _, w'. unfold bind. rewrite R. unfold ret.
  split; [reflexivity|]. split; [exact T'|].
  cbn [hitbox_manager attack_frames].
  split; [reflexivity|]. split; [exact ND'|].
  intros k v' I. destruct (Adv k v' I) as [[_ B]|[N B]]; [exact B|].
  exfalso. apply N. apply in_map_iff. now exists (k, v').
Qed.
End AttackFramesFacts.

(** The brute of the arena with 10 hp left: the next sword hit kills. *)
Definition weak_brute : Entity := set_Health brute {| max_hp := 100; hp := 10 |}.

Lemma update_attack_frames_returns_witness :
  exists s' w',
    WeaponAttackSystem.update_attack_frames always_inside swing (1 # 60)
      (arena weak_brute (1 # 2)) = Ok s' w' /\
    EntityManager.get_entity (entity_manager w') 1 = None /\
    forall k v',
      In (k, v') (WeaponAttackSystem.attack_frames s') -> k = 0 /\ v' = 1.
Proof.
  destruct (update_attack_frames_returns always_inside swing (1 # 60)
              (arena weak_brute (1 # 2)))
    as (s' & w' & R & _ & _ & _ & Adv).
  - intros id e [[= <- <-]|[[= <- <-]|[]]] ke; cbn; intros [= <-]; cbn; lia.
  - cbn. repeat constructor. intros [].
  - exists s', w'. split; [exact R|]. split.
    + vm_compute in R. injection R as _ <-. reflexivity.
    + intros k v' I. apply Adv in I. cbn in I.
      destruct I as [[= <- E]|[]]. split; lia.
Defined.
